(** * Tag_Result_Merger: a shallow embedding of [src/src/merge_tagged_results.py]

    The development follows the Python class method by method:
    [discover_merge_files], [merge_files] (with its inner [process_group]),
    [_merge_single_group], [_add_record_data] and [_load_json_file].

    Conventions of the embedding.
    - JSON values are the inductive type [json]; a Python [dict] is an
      insertion-ordered association list, [None] is [JNull].
    - A Python [float] is an exact dyadic number (every binary64 value is one);
      only its zero test and its equality with other dictionary keys are used.
    - File names are ASCII strings ([str.isdigit] is the test on '0'..'9').
    - Effects (reads, retries, sleeps, writes, log records) are threaded through
      an explicit [world]; what the file system answers is an [environment]:
      the outcome of a read attempt is fixed by the path and by the number of
      earlier attempts on it, and the files written by a run are recorded, not
      read back.
    - [joblib.Parallel] is followed on its sequential schedule: groups are
      processed in submission order, results come back in that order, and an
      exception raised by a group is re-raised by the call. *)

From Stdlib Require Import List String Ascii ZArith Bool Arith Lia.
Import ListNotations.

Local Open Scope list_scope.
Set Warnings "-register-all".

(* ================================================================== *)
(** ** Python values *)

Module Py.

(** A Python float as an exact value: [FFinite m e] is [m * 2^e]. *)
Inductive pyfloat : Type :=
| FFinite (m e : Z)
| FInf (neg : bool)
| FNaN.

(** What [json.load] can return. *)
Inductive json : Type :=
| JNull
| JBool (b : bool)
| JInt (n : Z)
| JFloat (f : pyfloat)
| JStr (s : string)
| JList (l : list json)
| JDict (d : list (string * json)).

(** Python truth value, as tested by [if not x]. *)
Definition truthy (v : json) : bool :=
  match v with
  | JNull => false
  | JBool b => b
  | JInt n => negb (n =? 0)%Z
  | JFloat (FFinite m _) => negb (m =? 0)%Z
  | JFloat _ => true
  | JStr s => negb (s =? "")%string
  | JList l => match l with [] => false | _ => true end
  | JDict d => match d with [] => false | _ => true end
  end.

(** Dictionary keys.  Python compares keys with [==] (and equal hashes):
    [True == 1 == 1.0], and a string equals only the same string.  A key is
    kept here in a normal form on which [==] is plain equality. *)
Inductive key : Type :=
| KNone
| KInt (n : Z)
| KDyadic (m e : Z)
| KInf (neg : bool)
| KNaN
| KStr (s : string).

Fixpoint odd_part (p : positive) : positive * Z :=
  match p with
  | xO q => let (r, t) := odd_part q in (r, (t + 1)%Z)
  | _ => (p, 0%Z)
  end.

Definition float_key (f : pyfloat) : key :=
  match f with
  | FFinite m e =>
      match m with
      | Z0 => KInt 0
      | Zpos p =>
          let (r, t) := odd_part p in
          if (0 <=? e + t)%Z then KInt (Zpos r * 2 ^ (e + t))
          else KDyadic (Zpos r) (e + t)
      | Zneg p =>
          let (r, t) := odd_part p in
          if (0 <=? e + t)%Z then KInt (Zneg r * 2 ^ (e + t))
          else KDyadic (Zneg r) (e + t)
      end
  | FInf neg => KInf neg
  | FNaN => KNaN
  end.

(** [hash(v)]: [None] stands for [TypeError: unhashable type]. *)
Definition py_key (v : json) : option key :=
  match v with
  | JNull => Some KNone
  | JBool b => Some (KInt (if b then 1 else 0))
  | JInt n => Some (KInt n)
  | JFloat f => Some (float_key f)
  | JStr s => Some (KStr s)
  | JList _ => None
  | JDict _ => None
  end.

Definition key_eq_dec : forall a b : key, {a = b} + {a <> b}.
Proof.
  decide equality; try apply Z.eq_dec; try apply Bool.bool_dec;
    apply string_dec.
Defined.

End Py.
Export Py.

(* ================================================================== *)
(** ** Insertion-ordered dictionaries *)

Module PyDict.
Section Dict.
Context {K V : Type}.
Variable eq_dec : forall a b : K, {a = b} + {a <> b}.

Definition dict : Type := list (K * V).

(** [d.get(k)], and [k in d] through [mem]. *)
Fixpoint get (k : K) (d : dict) : option V :=
  match d with
  | [] => None
  | (k', v) :: d' => if eq_dec k k' then Some v else get k d'
  end.

Definition mem (k : K) (d : dict) : bool :=
  match get k d with Some _ => true | None => false end.

(** [d[k] = v]: an existing key keeps its position, a new key goes last. *)
Fixpoint set (k : K) (v : V) (d : dict) : dict :=
  match d with
  | [] => [(k, v)]
  | (k', v') :: d' =>
      if eq_dec k k' then (k', v) :: d' else (k', v') :: set k v d'
  end.

Definition keys (d : dict) : list K := map fst d.
Definition values (d : dict) : list V := map snd d.

End Dict.
End PyDict.

(** A JSON object: string keys. *)
Definition record : Type := list (string * json).

(** [record.get(k)], with Python's [None] for a missing key. *)
Definition py_get (k : string) (r : record) : json :=
  match PyDict.get string_dec k r with
  | Some v => v
  | None => JNull
  end.

(* ================================================================== *)
(** ** Paths and file names *)

Record Path : Type := mkPath { parent : string; name : string }.

(** [directory / filename] *)
Definition path_join (dir filename : string) : Path := mkPath dir filename.

Definition Path_eq_dec : forall a b : Path, {a = b} + {a <> b}.
Proof. decide equality; apply string_dec. Defined.

(** [s.rfind(c)]: index of the last occurrence, scanning from index [i]. *)
Fixpoint rfind_from (c : ascii) (s : string) (i : nat) (last : option nat)
  : option nat :=
  match s with
  | EmptyString => last
  | String a s' =>
      rfind_from c s' (S i) (if Ascii.eqb a c then Some i else last)
  end.

Definition rfind (c : ascii) (s : string) : option nat :=
  rfind_from c s 0 None.

(** [Path.stem]: the name without its last suffix; a leading or a trailing
    dot does not start a suffix. *)
Definition stem (p : Path) : string :=
  let nm := name p in
  match rfind "."%char nm with
  | Some i =>
      if (0 <? i) && (i <? String.length nm - 1)
      then substring 0 i nm else nm
  | None => nm
  end.

(** [s.split(c)] *)
Fixpoint split_on (c : ascii) (s : string) : list string :=
  match s with
  | EmptyString => [EmptyString]
  | String a s' =>
      if Ascii.eqb a c then EmptyString :: split_on c s'
      else match split_on c s' with
           | [] => [String a EmptyString]
           | h :: t => String a h :: t
           end
  end.

Definition is_digit_char (a : ascii) : bool :=
  (48 <=? nat_of_ascii a) && (nat_of_ascii a <=? 57).

Fixpoint all_digits (s : string) : bool :=
  match s with
  | EmptyString => true
  | String a s' => is_digit_char a && all_digits s'
  end.

(** [s.isdigit()] *)
Definition isdigit (s : string) : bool :=
  match s with
  | EmptyString => false
  | _ => all_digits s
  end.

(** The base pattern of a file name (lines 87-96 of the source):
    ["2005_articles_1_"] when a number follows [articles],
    ["2005_articles_"] otherwise, nothing for any other name. *)
Definition base_pattern (filename : string) : option string :=
  match split_on "_"%char filename with
  | p0 :: p1 :: rest =>
      if isdigit p0 && (p1 =? "articles")%string then
        match rest with
        | p2 :: _ =>
            if isdigit p2
            then Some (p0 ++ "_articles_" ++ p2 ++ "_")%string
            else Some (p0 ++ "_articles_")%string
        | [] => None
        end
      else None
  | _ => None
  end.

(** [l[i] = x] for [i < len(l)] (the only way the source uses it: the slot
    lists have one entry per directory and [i] is a directory index). *)
Fixpoint list_set {A : Type} (i : nat) (x : A) (l : list A) : list A :=
  match l, i with
  | [], _ => []
  | _ :: t, O => x :: t
  | h :: t, S j => h :: list_set j x t
  end.

(** [all(f is not None for f in l)], returning the tuple of the files. *)
Fixpoint all_some {A : Type} (l : list (option A)) : option (list A) :=
  match l with
  | [] => Some []
  | None :: _ => None
  | Some x :: t =>
      match all_some t with
      | Some t' => Some (x :: t')
      | None => None
      end
  end.

(** [[i+1 for i, f in enumerate(l) if f is None]] *)
Fixpoint missing_from {A : Type} (i : nat) (l : list (option A)) : list nat :=
  match l with
  | [] => []
  | None :: t => S i :: missing_from (S i) t
  | Some _ :: t => missing_from (S i) t
  end.

(* ================================================================== *)
(** ** Exceptions, the world and the monad of the methods *)

Inductive exn : Type :=
| FileNotFoundError   (* a tag results directory does not exist *)
| ValueError          (* no directory given; record missing the id field and 'an' *)
| TypeError           (* iterating None, unhashable key, indexing a str *)
| AttributeError      (* [.get] on a value that is not a dict *)
| KeyError
| IndexError
| OSError             (* open / read / parse / write failure *)
| RetryError.         (* tenacity: attempts exhausted *)

Inductive result (A : Type) : Type :=
| Ok (a : A)
| Raise (e : exn).
Arguments Ok {A} a.
Arguments Raise {A} e.

Inductive level : Type := DEBUG | INFO | WARNING | ERROR.

Inductive message : Type :=
| MsgDiscovering (num_dirs : nat)
| MsgDirExists (i : nat) (dir : string)
| MsgScanning (i num_dirs : nat) (dir : string)
| MsgFoundJson (file_count i : nat)
| MsgUniquePatterns (n : nat)
| MsgAddedGroup (pattern : string) (names : list string)
| MsgMissingDirs (pattern : string) (missing : list nat)
| MsgCreated (complete : nat)
| MsgSkipped (incomplete : nat)
| MsgEachGroup (num_dirs : nat)
| MsgMerging (total : nat) (id_field : string)
| MsgSaveError (idx : nat) (e : exn)
| MsgSaved (n total : nat) (dir : string)
| MsgMerged (n total_records : nat)
| MsgProcessed (n : nat)
| MsgNotAList (filename : string)
| MsgLoadError (p : Path) (e : exn).

(** One attempt to open and parse a file. *)
Inductive outcome : Type :=
| ReadFails (e : exn)
| Parsed (data : json).

(** What the file system answers; the methods cannot change it. *)
Record environment : Type := mkEnv {
  dir_exists : string -> bool;
  glob_json : string -> list string;       (* [dir.glob("*.json")], names in enumeration order *)
  read_outcome : Path -> nat -> outcome;   (* the n-th attempt (from 0) on a path *)
  write_ok : Path -> bool                  (* whether [open(path, 'w')] and the dump succeed *)
}.

(** What the methods have done so far. *)
Record world : Type := mkWorld {
  reads : list Path;                       (* every read attempt, latest first *)
  writes : list (Path * list record);      (* every file written, latest first *)
  slept : nat;                             (* seconds spent in [wait_fixed] *)
  log : list (level * message)             (* log records, latest first *)
}.

Definition world0 : world := mkWorld [] [] 0 [].

Definition M (A : Type) : Type := world -> result A * world.

Definition ret {A : Type} (a : A) : M A := fun w => (Ok a, w).
Definition raise {A : Type} (e : exn) : M A := fun w => (Raise e, w).
Definition bind {A B : Type} (m : M A) (k : A -> M B) : M B :=
  fun w => match m w with
           | (Ok a, w') => k a w'
           | (Raise e, w') => (Raise e, w')
           end.
Definition lift {A : Type} (r : result A) : M A := fun w => (r, w).

(** [try: m except Exception as e: h e] *)
Definition try_except {A : Type} (m : M A) (h : exn -> M A) : M A :=
  fun w => match m w with
           | (Ok a, w') => (Ok a, w')
           | (Raise e, w') => h e w'
           end.

Declare Scope monad_scope.
Delimit Scope monad_scope with monad.
Notation "x <- c ;; k" := (bind c (fun x => k))
  (at level 61, c at next level, right associativity) : monad_scope.
Notation "c ;;; k" := (bind c (fun _ => k))
  (at level 61, right associativity) : monad_scope.
Local Open Scope monad_scope.

Definition logger (lv : level) (msg : message) : M unit :=
  fun w => (Ok tt, mkWorld (reads w) (writes w) (slept w) ((lv, msg) :: log w)).

Definition sleep (seconds : nat) : M unit :=
  fun w => (Ok tt, mkWorld (reads w) (writes w) (seconds + slept w) (log w)).

(* ================================================================== *)
(** ** The merger *)

(** The object built by [__init__]. *)
Record Tag_Result_Merger : Type := mkMerger {
  tagged_results_dirs : list string;
  output_dir : string
}.

(** [__init__]: an empty directory list is refused (the creation of the
    output directory is left out). *)
Definition init (tag_results_dirs : list string) (out : string)
  : result Tag_Result_Merger :=
  match tag_results_dirs with
  | [] => Raise ValueError
  | _ => Ok (mkMerger tag_results_dirs out)
  end.

(** The dict returned by [_merge_single_group]. *)
Record merged_group : Type := mkMerged {
  group_index : nat;
  source_files : list string;
  records : list record
}.

(** What [process_group] returns for a group, when it is not [None]. *)
Inductive group_result : Type :=
| SavedPath (p : Path)               (* [str(output_path)] *)
| MergedResult (m : merged_group)    (* the merged dict itself *)
| Placeholder (idx : nat).           (* [{'group_index': idx, 'records': "skip to save memory"}] *)

(** [tenacity]: [stop_after_attempt(3)], [wait_fixed(5)]. *)
Definition stop_after_attempt : nat := 3.
Definition wait_fixed : nat := 5.

(** The [@retry] decorator: the call is repeated while it raises; once the
    attempt count is reached [RetryError] is raised instead of a new attempt,
    otherwise the delay is slept first.  [remaining] counts the attempts still
    allowed after the current one. *)
Fixpoint retry_loop {A : Type} (delay remaining : nat) (f : M A) : M A :=
  fun w =>
    match f w with
    | (Ok a, w') => (Ok a, w')
    | (Raise e, w') =>
        match remaining with
        | O => (Raise RetryError, w')
        | S r => (sleep delay ;;; retry_loop delay r f) w'
        end
    end.

Definition retry {A : Type} (max_attempts delay : nat) (f : M A) : M A :=
  retry_loop delay (max_attempts - 1) f.

(** [for key, value in source_record.items(): if key != id_field: target_record[key] = value] *)
Definition _add_record_data (target_record source_record : record)
  (id_field : string) : record :=
  fold_left
    (fun target kv =>
       if string_dec (fst kv) id_field then target
       else PyDict.set string_dec (fst kv) (snd kv) target)
    source_record target_record.

(** Lines 206-210: the identifier of a record. *)
Definition resolve_id (id_field : string) (r : record) : result json :=
  let record_id := py_get id_field r in
  let record_id := if truthy record_id then record_id else py_get "an" r in
  if truthy record_id then Ok record_id else Raise ValueError.

Definition records_by_id : Type := list (key * record).

(** The body of the loop over the records of a file (lines 206-217). *)
Definition merge_record (id_field : string) (by_id : records_by_id)
  (rec : json) : result records_by_id :=
  match rec with
  | JDict r =>
      match resolve_id id_field r with
      | Raise e => Raise e
      | Ok record_id =>
          match py_key record_id with
          | None => Raise TypeError
          | Some k =>
              let by_id1 :=
                if PyDict.mem key_eq_dec k by_id then by_id
                else PyDict.set key_eq_dec k [(id_field, record_id)] by_id in
              match PyDict.get key_eq_dec k by_id1 with
              | Some target =>
                  Ok (PyDict.set key_eq_dec k
                        (_add_record_data target r id_field) by_id1)
              | None => Raise KeyError
              end
          end
      end
  | _ => Raise AttributeError
  end.

(** [for record in file_records: ...] *)
Fixpoint merge_records (id_field : string) (by_id : records_by_id)
  (file_records : list json) : result records_by_id :=
  match file_records with
  | [] => Ok by_id
  | rec :: rest =>
      match merge_record id_field by_id rec with
      | Ok by_id' => merge_records id_field by_id' rest
      | Raise e => Raise e
      end
  end.

(** [len(group['records'])] summed over the results (line 190). *)
Fixpoint sum_records (results : list group_result) : result nat :=
  match results with
  | [] => Ok 0
  | SavedPath _ :: _ => Raise TypeError
  | MergedResult m :: rest =>
      match sum_records rest with
      | Ok n => Ok (List.length (records m) + n)
      | Raise e => Raise e
      end
  | Placeholder _ :: rest =>
      match sum_records rest with
      | Ok n => Ok (String.length "skip to save memory" + n)
      | Raise e => Raise e
      end
  end.

Fixpoint filter_some {A : Type} (l : list (option A)) : list A :=
  match l with
  | [] => []
  | Some x :: t => x :: filter_some t
  | None :: t => filter_some t
  end.

(** One entry of [all_files_by_pattern] per pattern: a slot per directory. *)
Definition slots : Type := list (option Path).
Definition pattern_map : Type := list (string * slots).

(** The body of the loop over the files of a directory (lines 84-102);
    [if base_pattern:] fails for [None] and for an empty string. *)
Definition scan_file (num_dirs dir_idx : nat) (tag_dir : string)
  (all_files_by_pattern : pattern_map) (filename : string) : pattern_map :=
  match base_pattern filename with
  | Some bp =>
      if (bp =? "")%string then all_files_by_pattern
      else
        let m1 :=
          if PyDict.mem string_dec bp all_files_by_pattern
          then all_files_by_pattern
          else PyDict.set string_dec bp (repeat None num_dirs)
                 all_files_by_pattern in
        match PyDict.get string_dec bp m1 with
        | Some file_list =>
            PyDict.set string_dec bp
              (list_set dir_idx (Some (path_join tag_dir filename)) file_list)
              m1
        | None => m1
        end
  | None => all_files_by_pattern
  end.

(** The accumulators of the loop of lines 112-120. *)
Record assembly : Type := mkAssembly {
  file_groups : list (list Path);
  complete_groups : nat;
  incomplete_groups : nat
}.

Section Methods.

Variable env : environment.

(** [str(v)] for the values that are not strings, as an f-string formats
    them; a string is formatted as itself. *)
Variable str_other : json -> string.

Definition py_format (v : json) : string :=
  match v with
  | JStr s => s
  | _ => str_other v
  end.

Variable self : Tag_Result_Merger.

(** [open(file_path)] and [json.load]: one more attempt on the path. *)
Definition open_and_parse (p : Path) : M json :=
  fun w =>
    let w' := mkWorld (p :: reads w) (writes w) (slept w) (log w) in
    match read_outcome env p (count_occ Path_eq_dec (reads w) p) with
    | ReadFails e => (Raise e, w')
    | Parsed data => (Ok data, w')
    end.

(** [open(output_path, 'w')] and [json.dump]. *)
Definition write_json (p : Path) (rs : list record) : M unit :=
  fun w =>
    if write_ok env p
    then (Ok tt, mkWorld (reads w) ((p, rs) :: writes w) (slept w) (log w))
    else (Raise OSError, w).

(** The undecorated body of [_load_json_file] (lines 237-249); [None] is the
    Python [None] returned for a value that is not a list. *)
Definition load_json_body (file_path : Path) : M (option (list json)) :=
  try_except
    (data <- open_and_parse file_path ;;
     match data with
     | JList l => ret (Some l)
     | _ => logger WARNING (MsgNotAList (name file_path)) ;;; ret None
     end)
    (fun e => logger WARNING (MsgLoadError file_path e) ;;; raise e).

Definition _load_json_file (file_path : Path) : M (option (list json)) :=
  retry stop_after_attempt wait_fixed (load_json_body file_path).

(** [for file_path in file_group: ...] (lines 202-217); iterating [None]
    is a [TypeError]. *)
Fixpoint merge_group_loop (id_field : string) (file_group : list Path)
  (by_id : records_by_id) : M records_by_id :=
  match file_group with
  | [] => ret by_id
  | file_path :: rest =>
      file_records <- _load_json_file file_path ;;
      match file_records with
      | None => raise TypeError
      | Some l =>
          by_id' <- lift (merge_records id_field by_id l) ;;
          merge_group_loop id_field rest by_id'
      end
  end.

Definition _merge_single_group (file_group : list Path) (id_field : string)
  (group_index : nat) : M (option merged_group) :=
  by_id <- merge_group_loop id_field file_group [] ;;
  match by_id with
  | [] => ret None
  | _ =>
      ret (Some (mkMerged group_index (map name file_group)
                   (PyDict.values by_id)))
  end.

(** The inner function of [merge_files] (lines 152-176). *)
Definition process_group (id_field : string)
  (save_disaggregrated_files append_merge_results : bool)
  (idx : nat) (file_group : list Path) : M (option group_result) :=
  merged <- _merge_single_group file_group id_field idx ;;
  match merged with
  | None => ret None
  | Some m =>
      if save_disaggregrated_files then
        try_except
          (let first_record :=
             match records m with r :: _ => r | [] => [] end in
           let original_filename :=
             py_get "ILA_original_filename" first_record in
           original_filename <-
             (if truthy original_filename
              then ret (py_format original_filename)
              else match file_group with
                   | f0 :: _ => ret (stem f0)
                   | [] => raise IndexError
                   end) ;;
           let output_path :=
             path_join (output_dir self) (original_filename ++ ".json")%string in
           write_json output_path (records m) ;;;
           ret (Some (SavedPath output_path)))
          (fun e => logger ERROR (MsgSaveError idx e) ;;; ret None)
      else if append_merge_results then ret (Some (MergedResult m))
      else ret (Some (Placeholder idx))
  end.

(** [process_group(i, fg) for i, fg in enumerate(file_groups)] *)
Fixpoint run_groups (id_field : string) (save append : bool) (idx : nat)
  (groups : list (list Path)) : M (list (option group_result)) :=
  match groups with
  | [] => ret []
  | fg :: rest =>
      r <- process_group id_field save append idx fg ;;
      rs <- run_groups id_field save append (S idx) rest ;;
      ret (r :: rs)
  end.

Definition merge_files (groups : list (list Path)) (id_field : string)
  (save_disaggregrated_files append_merge_results : bool)
  : M (list group_result) :=
  let total := List.length groups in
  logger INFO (MsgMerging total id_field) ;;;
  results <- run_groups id_field save_disaggregrated_files
               append_merge_results 0 groups ;;
  let results := filter_some results in
  (if save_disaggregrated_files
   then logger INFO (MsgSaved (List.length results) total (output_dir self))
   else ret tt) ;;;
  if append_merge_results then
    total_records <- lift (sum_records results) ;;
    logger INFO (MsgMerged (List.length results) total_records) ;;;
    ret results
  else
    logger INFO (MsgProcessed (List.length results)) ;;;
    ret results.

(** Lines 71-75. *)
Fixpoint check_dirs (i : nat) (dirs : list string) : M unit :=
  match dirs with
  | [] => ret tt
  | tag_dir :: rest =>
      if dir_exists env tag_dir
      then logger INFO (MsgDirExists (S i) tag_dir) ;;; check_dirs (S i) rest
      else raise FileNotFoundError
  end.

(** Lines 80-104. *)
Fixpoint scan_dirs (num_dirs dir_idx : nat) (dirs : list string)
  (all_files_by_pattern : pattern_map) : M pattern_map :=
  match dirs with
  | [] => ret all_files_by_pattern
  | tag_dir :: rest =>
      logger INFO (MsgScanning (S dir_idx) num_dirs tag_dir) ;;;
      let files := glob_json env tag_dir in
      let m := fold_left (scan_file num_dirs dir_idx tag_dir) files
                 all_files_by_pattern in
      logger INFO (MsgFoundJson (List.length files) (S dir_idx)) ;;;
      scan_dirs num_dirs (S dir_idx) rest m
  end.

(** Lines 112-120. *)
Fixpoint assemble (items : pattern_map) (acc : assembly) : M assembly :=
  match items with
  | [] => ret acc
  | (bp, file_list) :: rest =>
      match all_some file_list with
      | Some group =>
          logger DEBUG (MsgAddedGroup bp (map name group)) ;;;
          assemble rest
            (mkAssembly (file_groups acc ++ [group])
               (S (complete_groups acc)) (incomplete_groups acc))
      | None =>
          logger DEBUG (MsgMissingDirs bp (missing_from 0 file_list)) ;;;
          assemble rest
            (mkAssembly (file_groups acc) (complete_groups acc)
               (S (incomplete_groups acc)))
      end
  end.

Definition discover_merge_files : M (list (list Path)) :=
  let num_dirs := List.length (tagged_results_dirs self) in
  logger INFO (MsgDiscovering num_dirs) ;;;
  check_dirs 0 (tagged_results_dirs self) ;;;
  all_files_by_pattern <- scan_dirs num_dirs 0 (tagged_results_dirs self) [] ;;
  logger INFO (MsgUniquePatterns (List.length all_files_by_pattern)) ;;;
  a <- assemble all_files_by_pattern (mkAssembly [] 0 0) ;;
  logger INFO (MsgCreated (complete_groups a)) ;;;
  (if 0 <? incomplete_groups a
   then logger INFO (MsgSkipped (incomplete_groups a))
   else ret tt) ;;;
  logger INFO (MsgEachGroup num_dirs) ;;;
  ret (file_groups a).

End Methods.

(* ================================================================== *)
(** ** Vocabulary of the properties *)

(** [rec[k]] when [rec] is a dict that has the key. *)
Definition field (k : string) (rec : json) : option json :=
  match rec with
  | JDict r => PyDict.get string_dec k r
  | _ => None
  end.

(** The identifier value lines 206-210 resolve for a record. *)
Definition resolved_value (id_field : string) (rec : json) : option json :=
  match rec with
  | JDict r =>
      match resolve_id id_field r with
      | Ok v => Some v
      | Raise _ => None
      end
  | _ => None
  end.

(** The dictionary key under which [_merge_single_group] files a record,
    when it files it at all. *)
Definition record_key (id_field : string) (rec : json) : option key :=
  match resolved_value id_field rec with
  | Some v => py_key v
  | None => None
  end.

Definition filed_under (id_field : string) (x : key) (rec : json) : bool :=
  match record_key id_field rec with
  | Some y => if key_eq_dec y x then true else false
  | None => false
  end.

(** The identifier carried by a merged record. *)
Definition id_key (id_field : string) (t : record) : option key :=
  py_key (py_get id_field t).

(** A record as [json.load] builds it: no key twice in an object. *)
Definition wf_record (rec : json) : Prop :=
  match rec with
  | JDict r => NoDup (PyDict.keys r)
  | _ => True
  end.

(** The identifier value of the first record of [rs] filed under [x]. *)
Fixpoint first_id (id_field : string) (x : key) (rs : list json)
  : option json :=
  match rs with
  | [] => None
  | rec :: rest =>
      if filed_under id_field x rec then resolved_value id_field rec
      else first_id id_field x rest
  end.

(** The value of [k] in the last record of [rs] that is filed under [x]
    and has the key [k]. *)
Fixpoint last_value (id_field : string) (x : key) (k : string)
  (rs : list json) : option json :=
  match rs with
  | [] => None
  | rec :: rest =>
      match last_value id_field x k rest with
      | Some v => Some v
      | None => if filed_under id_field x rec then field k rec else None
      end
  end.

(** [merged[x][k]] in a [records_by_id]. *)
Definition lookup2 (x : key) (k : string) (by_id : records_by_id)
  : option json :=
  match PyDict.get key_eq_dec x by_id with
  | Some t => PyDict.get string_dec k t
  | None => None
  end.

(** Every merged record carries, in the identifier field, a value that
    hashes to the key it is filed under. *)
Definition keyed (id_field : string) (by_id : records_by_id) : Prop :=
  forall x t, In (x, t) by_id ->
    exists v, PyDict.get string_dec id_field t = Some v /\ py_key v = Some x.

(** The member files of a group load, in order, as the lists [contents]. *)
Fixpoint loads (env : environment) (file_group : list Path)
  (contents : list (list json)) (w w' : world) : Prop :=
  match file_group, contents with
  | [], [] => w = w'
  | p :: ps, l :: ls =>
      exists w1, _load_json_file env p w = (Ok (Some l), w1)
                 /\ loads env ps ls w1 w'
  | _, _ => False
  end.

(** What a parsed value makes [_load_json_file] return. *)
Definition loaded_value (data : json) : option (list json) :=
  match data with
  | JList l => Some l
  | _ => None
  end.

Definition okey_eq_dec : forall a b : option key, {a = b} + {a <> b}.
Proof. decide equality; apply key_eq_dec. Defined.

(** The distinct identifiers of one loaded file. *)
Definition distinct_ids (id_field : string) (l : list json)
  : list (option key) :=
  nodup okey_eq_dec (map (record_key id_field) l).

(** The identifiers of the merged records are exactly the identifiers of the
    member files, each once, and no file has more distinct ones. *)
Definition union_of_identifiers (id_field : string)
  (contents : list (list json)) (m : merged_group) : Prop :=
  NoDup (map (id_key id_field) (records m))
  /\ (forall x, In (Some x) (map (id_key id_field) (records m)) <->
        exists l rec, In l contents /\ In rec l
                      /\ record_key id_field rec = Some x)
  /\ (forall l, In l contents ->
        List.length (distinct_ids id_field l) <= List.length (records m)).

(** [t] is the one merged record of [m] for the identifier [x]. *)
Definition merged_record_for (id_field : string) (m : merged_group)
  (x : key) (t : record) : Prop :=
  In t (records m) /\ id_key id_field t = Some x
  /\ forall t', In t' (records m) -> id_key id_field t' = Some x -> t' = t.

(** The identifier field of [t] holds the value first seen for [x]. *)
Definition keeps_first_identifier (id_field : string)
  (contents : list (list json)) (x : key) (t : record) : Prop :=
  forall before rec after v,
    List.concat contents = before ++ rec :: after ->
    (forall r', In r' before -> record_key id_field r' <> Some x) ->
    record_key id_field rec = Some x ->
    resolved_value id_field rec = Some v ->
    PyDict.get string_dec id_field t = Some v.

(** For a field [k] other than the identifier field, [t] holds the value of
    the last member file [Fj] that defines [k] for [x]. *)
Definition last_writer_wins (id_field : string)
  (contents : list (list json)) (x : key) (t : record) : Prop :=
  forall pre Fj post rj k v,
    contents = pre ++ Fj :: post ->
    k <> id_field ->
    In rj Fj -> record_key id_field rj = Some x -> field k rj = Some v ->
    (forall r' v', In r' Fj -> record_key id_field r' = Some x ->
                   field k r' = Some v' -> v' = v) ->
    (forall F r', In F post -> In r' F ->
                  record_key id_field r' = Some x -> field k r' = None) ->
    PyDict.get string_dec k t = Some v.

(** A field that can serve as the identifier: present, with a value that
    Python takes as true. *)
Definition usable (k : string) (r : record) : Prop :=
  exists v, PyDict.get string_dec k r = Some v /\ truthy v = true.

(** A computation that writes no file. *)
Definition preserves_writes {A : Type} (m : M A) : Prop :=
  forall w, writes (snd (m w)) = writes w.

(** The name under which a merged group is saved: the tracked file name of
    its first record when that is a true value, else the stem of the first
    member file. *)
Definition output_name (str_other : json -> string)
  (file_group : list Path) (m : merged_group) : string :=
  let tracked :=
    py_get "ILA_original_filename" (hd [] (records m)) in
  if truthy tracked then py_format str_other tracked
  else match file_group with
       | f0 :: _ => stem f0
       | [] => EmptyString
       end.

Definition output_path (self : Tag_Result_Merger)
  (str_other : json -> string) (file_group : list Path) (m : merged_group)
  : Path :=
  path_join (output_dir self)
    (output_name str_other file_group m ++ ".json")%string.

(** The world once [merge_files] has logged its first line. *)
Definition started (groups : list (list Path)) (id_field : string)
  (w : world) : world :=
  snd (logger INFO (MsgMerging (List.length groups) id_field) w).

(** What a result of the accumulate mode and of the index-only mode is. *)
Definition result_of_mode (append_merge_results : bool) (g : group_result)
  : Prop :=
  if append_merge_results
  then exists m, g = MergedResult m
  else exists idx, g = Placeholder idx.

(** One saved file: a path and the records dumped into it, for some group
    of the run. *)
Definition saved_from (env : environment) (self : Tag_Result_Merger)
  (str_other : json -> string) (groups : list (list Path))
  (id_field : string) (file : Path * list record) : Prop :=
  exists fg idx m w0 w1,
    In fg groups
    /\ _merge_single_group env fg id_field idx w0 = (Ok (Some m), w1)
    /\ file = (output_path self str_other fg m, records m).

(** A result of a run that does not save: the merged group of one of the
    groups of the run, or its placeholder. *)
Definition result_in_mode (env : environment) (groups : list (list Path))
  (id_field : string) (append_merge_results : bool) (g : group_result)
  : Prop :=
  exists fg idx m w0 w1,
    nth_error groups idx = Some fg
    /\ _merge_single_group env fg id_field idx w0 = (Ok (Some m), w1)
    /\ g = if append_merge_results then MergedResult m else Placeholder idx.

(** Whether a file name has the base pattern [bp]. *)
Definition has_pattern (bp filename : string) : bool :=
  match base_pattern filename with
  | Some q => (q =? bp)%string
  | None => false
  end.

(** The last of the enumerated names that has the base pattern [bp]. *)
Fixpoint last_with_pattern (bp : string) (files : list string)
  : option string :=
  match files with
  | [] => None
  | f :: rest =>
      match last_with_pattern bp rest with
      | Some g => Some g
      | None => if has_pattern bp f then Some f else None
      end
  end.

(** [all_files_by_pattern[bp][j]], [None] when the pattern is not there. *)
Definition slot (m : pattern_map) (bp : string) (j : nat) : option Path :=
  match PyDict.get string_dec bp m with
  | Some file_list => nth j file_list None
  | None => None
  end.

(** The dictionary built by the loop of lines 80-104, without its log. *)
Fixpoint scan_all (env : environment) (num_dirs dir_idx : nat)
  (dirs : list string) (m : pattern_map) : pattern_map :=
  match dirs with
  | [] => m
  | tag_dir :: rest =>
      scan_all env num_dirs (S dir_idx) rest
        (fold_left (scan_file num_dirs dir_idx tag_dir)
           (glob_json env tag_dir) m)
  end.

(** Every slot list has one entry per directory, and no pattern is there
    twice. *)
Definition well_sized (num_dirs : nat) (m : pattern_map) : Prop :=
  NoDup (PyDict.keys m)
  /\ forall bp file_list, In (bp, file_list) m ->
       List.length file_list = num_dirs.

(** A computation that logs nothing above the level [INFO]. *)
Definition quiet {A : Type} (m : M A) : Prop :=
  forall w, exists l,
    log (snd (m w)) = l ++ log w
    /\ forall lv msg, In (lv, msg) l -> lv = INFO \/ lv = DEBUG.

(** The complete groups among the entries of the dictionary, in order. *)
Definition complete_of (items : pattern_map) : list (list Path) :=
  filter_some (map (fun it => all_some (snd it)) items).

(** [g] is a group for the pattern [bp]: one file per directory, each
    enumerated in its directory and each of that pattern. *)
Definition group_of_pattern (env : environment) (dirs : list string)
  (bp : string) (g : list Path) : Prop :=
  List.length g = List.length dirs
  /\ forall j d, nth_error dirs j = Some d ->
       exists f, nth_error g j = Some (path_join d f)
                 /\ In f (glob_json env d) /\ base_pattern f = Some bp.

(** The directory [d] has no file of the pattern [bp]. *)
Definition lacks (env : environment) (bp d : string) : Prop :=
  forall f, In f (glob_json env d) -> base_pattern f <> Some bp.

(** The member [j] of every group is the last enumerated file of its
    pattern in directory [j]. *)
Definition slot_holds_last (env : environment) (dirs : list string)
  (groups : list (list Path)) : Prop :=
  forall g j p, In g groups -> nth_error g j = Some p ->
    exists d bp,
      nth_error dirs j = Some d /\ parent p = d
      /\ last_with_pattern bp (glob_json env d) = Some (name p).

(** A file followed, in the enumeration of its directory, by another file
    of the same pattern is a member of no group. *)
Definition overwritten_never_merged (env : environment)
  (dirs : list string) (groups : list (list Path)) : Prop :=
  forall j d before f after f2,
    nth_error dirs j = Some d ->
    glob_json env d = before ++ f :: after ->
    In f2 after -> base_pattern f2 = base_pattern f -> ~ In f after ->
    forall g, In g groups -> nth_error g j <> Some (path_join d f).

(* ================================================================== *)
(** ** Three small runs

    The first one, two directories and one batch.

    Directory [A] holds ["2020_articles_1_tagX.json"] with
    [[{"id":"a1","x":1}]], directory [B] holds ["2020_articles_1_tagY.json"]
    with [[{"id":"a1","y":2},{"id":"a2","y":3}]]. *)

Module Scenario.
Local Open Scope string_scope.

Definition fileA : Path := mkPath "A" "2020_articles_1_tagX.json".
Definition fileB : Path := mkPath "B" "2020_articles_1_tagY.json".

Definition contentA : list json :=
  [JDict [("id", JStr "a1"); ("x", JInt 1)]].
Definition contentB : list json :=
  [JDict [("id", JStr "a1"); ("y", JInt 2)];
   JDict [("id", JStr "a2"); ("y", JInt 3)]].

Definition env : environment :=
  mkEnv (fun d => (d =? "A") || (d =? "B"))
        (fun d => if d =? "A" then [name fileA]
                  else if d =? "B" then [name fileB] else [])
        (fun p _ => if Path_eq_dec p fileA then Parsed (JList contentA)
                    else if Path_eq_dec p fileB then Parsed (JList contentB)
                    else ReadFails OSError)
        (fun _ => true).

Definition self : Tag_Result_Merger := mkMerger ["A"; "B"] "out".

Definition group : list Path := [fileA; fileB].

Definition merged : merged_group :=
  mkMerged 0 [name fileA; name fileB]
    [[("id", JStr "a1"); ("x", JInt 1); ("y", JInt 2)];
     [("id", JStr "a2"); ("y", JInt 3)]].

(** The world after the two files have been read once each. *)
Definition after_reads : world := mkWorld [fileB; fileA] [] 0 [].

End Scenario.

(** A second run: a file that needs three attempts, a file that never
    loads, a file whose top-level value is an object, a record without
    identifier, and an output path that cannot be written. *)
Module Faults.
Local Open Scope string_scope.

Definition flaky : Path := mkPath "A" "2021_articles_1_tagX.json".
Definition broken : Path := mkPath "A" "2022_articles_1_tagX.json".
Definition not_a_list : Path := mkPath "A" "2023_articles_1_tagX.json".
Definition anonymous : Path := mkPath "A" "2024_articles_1_tagX.json".
Definition unnamed : Path := mkPath "A" "2025_articles_1_tagX.json".
Definition readonly : Path := mkPath "A" "2026_articles_1_tagX.json".

Definition content_anonymous : list json := [JDict [("x", JInt 5)]].
Definition content_unnamed : list json :=
  [JDict [("id", JStr "u1"); ("ILA_original_filename", JStr "")]].
Definition content_readonly : list json := [JDict [("id", JStr "r1")]].

Definition env : environment :=
  mkEnv (fun _ => true)
        (fun _ => [])
        (fun p n =>
           if Path_eq_dec p Scenario.fileA
           then Parsed (JList Scenario.contentA)
           else if Path_eq_dec p Scenario.fileB
           then Parsed (JList Scenario.contentB)
           else if Path_eq_dec p flaky
           then (if (n <? 2)%nat then ReadFails OSError
                 else Parsed (JList Scenario.contentA))
           else if Path_eq_dec p not_a_list
           then Parsed (JDict [("id", JStr "a1")])
           else if Path_eq_dec p anonymous
           then Parsed (JList content_anonymous)
           else if Path_eq_dec p unnamed
           then Parsed (JList content_unnamed)
           else if Path_eq_dec p readonly
           then Parsed (JList content_readonly)
           else ReadFails OSError)
        (fun p => negb (name p =? "2026_articles_1_tagX.json")).

Definition str_other (v : json) : string := "".

End Faults.

(** A third run: directory [A] holds two files of the batch
    ["2020_articles_1_"], a file without pattern and a file of the batch
    ["2021_articles_1_"], which directory [B] lacks. *)
Module Shelf.
Local Open Scope string_scope.

Definition env : environment :=
  mkEnv (fun d => (d =? "A") || (d =? "B"))
        (fun d => if d =? "A"
                  then ["2020_articles_1_old.json";
                        "2020_articles_1_tagX.json";
                        "notes.json";
                        "2021_articles_1_tagX.json"]
                  else if d =? "B" then ["2020_articles_1_tagY.json"]
                  else [])
        (fun _ _ => ReadFails OSError)
        (fun _ => true).

Definition groups : list (list Path) :=
  [[mkPath "A" "2020_articles_1_tagX.json";
    mkPath "B" "2020_articles_1_tagY.json"]].

End Shelf.

(* ================================================================== *)
(** ** Vocabulary of the further properties *)

(** The exception the loop of lines 204-217 raises on a record, if any:
    [AttributeError] for a value without [.get], [ValueError] for a dict
    without identifier, [TypeError] for an identifier that cannot be hashed. *)
Definition fault_of (id_field : string) (rec : json) : option exn :=
  match rec with
  | JDict r =>
      match resolve_id id_field r with
      | Raise e => Some e
      | Ok v =>
          match py_key v with
          | Some _ => None
          | None => Some TypeError
          end
      end
  | _ => Some AttributeError
  end.

(** The keys of [ks] added to [acc] in order, each once. *)
Fixpoint add_new (acc ks : list key) : list key :=
  match ks with
  | [] => acc
  | k :: rest =>
      add_new (if in_dec key_eq_dec k acc then acc else acc ++ [k]) rest
  end.

(** The keys under which the records of [rs] are filed, in order. *)
Fixpoint keys_of_records (id_field : string) (rs : list json) : list key :=
  match rs with
  | [] => []
  | rec :: rest =>
      match record_key id_field rec with
      | Some x => x :: keys_of_records id_field rest
      | None => keys_of_records id_field rest
      end
  end.

(** [k in rec] for a record that is a dict. *)
Definition has_field (k : string) (rec : json) : Prop :=
  match rec with
  | JDict r => In k (PyDict.keys r)
  | _ => False
  end.

(** A merged record as the loop builds it: the identifier field first, with
    a true, hashable value filed under [x], and no key twice. *)
Definition headed (id_field : string) (x : key) (t : record) : Prop :=
  exists v rest,
    t = (id_field, v) :: rest
    /\ truthy v = true /\ py_key v = Some x /\ NoDup (PyDict.keys t).

(** A computation that attempts to read only the files of [allowed], at
    most [n] times in all, and sleeps at most [s] seconds. *)
Definition effort_within {A : Type} (allowed : list Path) (n s : nat)
  (m : M A) : Prop :=
  forall w, exists l,
    reads (snd (m w)) = l ++ reads w
    /\ (forall p, In p l -> In p allowed)
    /\ List.length l <= n
    /\ slept w <= slept (snd (m w)) <= slept w + s.

(** A computation that only logs. *)
Definition only_logs {A : Type} (m : M A) : Prop :=
  forall w, reads (snd (m w)) = reads w
            /\ writes (snd (m w)) = writes w
            /\ slept (snd (m w)) = slept w.

(** [c in s] *)
Fixpoint has_char (c : ascii) (s : string) : bool :=
  match s with
  | EmptyString => false
  | String a s' => Ascii.eqb a c || has_char c s'
  end.

(** A fourth run: two batches, complete in both directories. *)
Module Shelves.
Local Open Scope string_scope.

Definition env : environment :=
  mkEnv (fun d => (d =? "A") || (d =? "B"))
        (fun d => if d =? "A"
                  then ["2020_articles_1_tagX.json";
                        "2021_articles_1_tagX.json"]
                  else if d =? "B"
                  then ["2021_articles_1_tagY.json";
                        "2020_articles_1_tagY.json"]
                  else [])
        (fun _ _ => ReadFails OSError)
        (fun _ => true).

Definition first_group : list Path :=
  [mkPath "A" "2020_articles_1_tagX.json";
   mkPath "B" "2020_articles_1_tagY.json"].

Definition second_group : list Path :=
  [mkPath "A" "2021_articles_1_tagX.json";
   mkPath "B" "2021_articles_1_tagY.json"].

End Shelves.

(* ================================================================== *)
(** ** Dictionary facts *)

Section DictFacts.
Context {K V : Type}.
Variable eq_dec : forall a b : K, {a = b} + {a <> b}.
Local Abbreviation get := (PyDict.get eq_dec).
Local Abbreviation set := (PyDict.set eq_dec).
Local Abbreviation keys := (@PyDict.keys K V).

Lemma get_set_same (k : K) (v : V) d : get k (set k v d) = Some v.
Proof.
  induction d as [|[k' v'] d IH]; simpl.
  - destruct (eq_dec k k); congruence.
  - destruct (eq_dec k k') as [E|E]; simpl;
      destruct (eq_dec k k'); congruence.
Qed.

Lemma get_set_other (k k' : K) (v : V) d :
  k' <> k -> get k' (set k v d) = get k' d.
Proof.
  intros N. induction d as [|[k0 v0] d IH]; simpl.
  - destruct (eq_dec k' k); congruence.
  - destruct (eq_dec k k0) as [E|E]; simpl.
    + subst. destruct (eq_dec k' k0); congruence.
    + destruct (eq_dec k' k0); congruence.
Qed.

Lemma get_Some_In (k : K) (v : V) d : get k d = Some v -> In (k, v) d.
Proof.
  induction d as [|[k' v'] d IH]; simpl; [discriminate|].
  destruct (eq_dec k k'); intros H.
  - inversion H; subst; auto.
  - auto.
Qed.

Lemma get_None_keys (k : K) d : get k d = None <-> ~ In k (keys d).
Proof.
  induction d as [|[k' v'] d IH]; simpl.
  - tauto.
  - destruct (eq_dec k k') as [E|E].
    + split; [discriminate | intros H; exfalso; apply H; auto].
    + rewrite IH. split; intros H; [intros [C|C]; congruence | tauto].
Qed.

Lemma get_Some_keys (k : K) d : (exists v, get k d = Some v) <-> In k (keys d).
Proof.
  destruct (get k d) as [v|] eqn:E.
  - split; [intros _ | eauto].
    apply get_Some_In in E. apply (in_map fst) in E. exact E.
  - apply get_None_keys in E. split; [intros [v H]; discriminate | tauto].
Qed.

Lemma mem_true_keys (k : K) d : PyDict.mem eq_dec k d = true <-> In k (keys d).
Proof.
  unfold PyDict.mem. rewrite <- get_Some_keys.
  destruct (get k d); split; intros H; eauto; try discriminate.
  destruct H; discriminate.
Qed.

Lemma keys_set_present (k : K) (v : V) d :
  In k (keys d) -> keys (set k v d) = keys d.
Proof.
  induction d as [|[k' v'] d IH]; simpl; [tauto|].
  intros H. destruct (eq_dec k k') as [E|E]; simpl; [reflexivity|].
  f_equal. apply IH. destruct H; congruence.
Qed.

Lemma keys_set_absent (k : K) (v : V) d :
  ~ In k (keys d) -> keys (set k v d) = keys d ++ [k].
Proof.
  induction d as [|[k' v'] d IH]; simpl; [reflexivity|].
  intros H. destruct (eq_dec k k') as [E|E]; simpl.
  - exfalso; apply H; auto.
  - f_equal. apply IH. tauto.
Qed.

Lemma In_get_NoDup (k : K) (v : V) d :
  NoDup (keys d) -> In (k, v) d -> get k d = Some v.
Proof.
  induction d as [|[k' v'] d IH]; simpl; [tauto|].
  intros ND [H|H].
  - inversion H; subst. destruct (eq_dec k k); congruence.
  - inversion ND as [|? ? Hn ND']; subst.
    destruct (eq_dec k k') as [E|E]; [|auto].
    subst. exfalso. apply Hn. apply (in_map fst) in H. exact H.
Qed.

Lemma In_keys_set (k k' : K) (v : V) d :
  In k' (keys (set k v d)) <-> k' = k \/ In k' (keys d).
Proof.
  destruct (in_dec eq_dec k (keys d)) as [I|I].
  - rewrite keys_set_present by assumption. intuition congruence.
  - rewrite keys_set_absent by assumption. rewrite in_app_iff. simpl.
    intuition congruence.
Qed.

Lemma NoDup_keys_set (k : K) (v : V) d :
  NoDup (keys d) -> NoDup (keys (set k v d)).
Proof.
  intros ND. destruct (in_dec eq_dec k (keys d)) as [I|I].
  - rewrite keys_set_present by assumption. exact ND.
  - rewrite keys_set_absent by assumption.
    apply NoDup_app; [exact ND | repeat constructor; simpl; tauto |].
    intros x Hx [E|[]]. subst. tauto.
Qed.

End DictFacts.

(* ================================================================== *)
(** ** The loader and its retries *)

Section LoaderFacts.
Variable env : environment.

Lemma load_json_body_fails p w e :
  read_outcome env p (count_occ Path_eq_dec (reads w) p) = ReadFails e ->
  load_json_body env p w =
    (Raise e, mkWorld (p :: reads w) (writes w) (slept w)
                ((WARNING, MsgLoadError p e) :: log w)).
Proof.
  intros H. unfold load_json_body, try_except, bind, open_and_parse.
  rewrite H. reflexivity.
Qed.

Lemma load_json_body_list p w l :
  read_outcome env p (count_occ Path_eq_dec (reads w) p) = Parsed (JList l) ->
  load_json_body env p w =
    (Ok (Some l), mkWorld (p :: reads w) (writes w) (slept w) (log w)).
Proof.
  intros H. unfold load_json_body, try_except, bind, open_and_parse.
  rewrite H. reflexivity.
Qed.

Lemma load_json_body_not_list p w data :
  read_outcome env p (count_occ Path_eq_dec (reads w) p) = Parsed data ->
  (forall l, data <> JList l) ->
  load_json_body env p w =
    (Ok None, mkWorld (p :: reads w) (writes w) (slept w)
                ((WARNING, MsgNotAList (name p)) :: log w)).
Proof.
  intros H N. unfold load_json_body, try_except, bind, open_and_parse.
  rewrite H. destruct data; try reflexivity. exfalso. eapply N; reflexivity.
Qed.

Lemma load_json_body_parsed p w data :
  read_outcome env p (count_occ Path_eq_dec (reads w) p) = Parsed data ->
  exists lg,
    load_json_body env p w =
      (Ok (loaded_value data),
       mkWorld (p :: reads w) (writes w) (slept w) (lg ++ log w)).
Proof.
  intros H.
  assert (D : (exists l, data = JList l) \/ (forall l, data <> JList l)).
  { destruct data; try (right; intros; discriminate). left; eauto. }
  destruct D as [[l ->]|N].
  - exists []. simpl. apply load_json_body_list. exact H.
  - exists [(WARNING, MsgNotAList (name p))].
    rewrite (load_json_body_not_list p w data H N).
    destruct data; try reflexivity. exfalso. eapply N; reflexivity.
Qed.

Lemma count_occ_cons_same (p : Path) l :
  count_occ Path_eq_dec (p :: l) p = S (count_occ Path_eq_dec l p).
Proof. simpl. destruct (Path_eq_dec p p); congruence. Qed.

Lemma repeat_shift (p : Path) l : forall n,
  repeat p n ++ p :: l = repeat p (S n) ++ l.
Proof. induction n as [|n IH]; simpl; [reflexivity|]. rewrite IH. reflexivity. Qed.

(** The call that succeeds at its [k]-th retry. *)
Lemma retry_loop_succeeds p data : forall k r w,
  k <= r ->
  (forall j, j < k -> exists e,
     read_outcome env p (count_occ Path_eq_dec (reads w) p + j) = ReadFails e) ->
  read_outcome env p (count_occ Path_eq_dec (reads w) p + k) = Parsed data ->
  exists w',
    retry_loop wait_fixed r (load_json_body env p) w = (Ok (loaded_value data), w')
    /\ reads w' = repeat p (S k) ++ reads w
    /\ writes w' = writes w
    /\ slept w' = wait_fixed * k + slept w.
Proof.
  induction k as [|k IH]; intros r w Hk Hf Hp.
  - rewrite Nat.add_0_r in Hp.
    destruct (load_json_body_parsed p w data Hp) as [lg E].
    eexists. destruct r; simpl; rewrite E; simpl;
      (split; [reflexivity|]); simpl; repeat split; lia.
  - destruct r as [|r]; [lia|].
    destruct (Hf 0 ltac:(lia)) as [e He]. rewrite Nat.add_0_r in He.
    simpl. rewrite (load_json_body_fails p w e He).
    unfold bind, sleep. simpl.
    match goal with |- context [retry_loop _ r _ ?w1] => set (w1' := w1) end.
    destruct (IH r w1') as [w' [E [R [Wr Hs]]]].
    + lia.
    + intros j Hj. subst w1'. simpl reads. rewrite count_occ_cons_same.
      replace (S (count_occ Path_eq_dec (reads w) p) + j)
        with (count_occ Path_eq_dec (reads w) p + S j) by lia.
      apply Hf. lia.
    + subst w1'. simpl reads. rewrite count_occ_cons_same.
      replace (S (count_occ Path_eq_dec (reads w) p) + k)
        with (count_occ Path_eq_dec (reads w) p + S k) by lia.
      exact Hp.
    + exists w'. rewrite E. split; [reflexivity|].
      subst w1'. simpl reads in R; simpl writes in Wr; simpl slept in Hs. rewrite R, Wr, Hs.
      repeat split.
      * apply repeat_shift.
      * unfold wait_fixed. lia.
Qed.

(** The call that fails at every attempt. *)
Lemma retry_loop_exhausts p : forall r w,
  (forall j, j <= r -> exists e,
     read_outcome env p (count_occ Path_eq_dec (reads w) p + j) = ReadFails e) ->
  exists w',
    retry_loop wait_fixed r (load_json_body env p) w = (Raise RetryError, w')
    /\ reads w' = repeat p (S r) ++ reads w
    /\ writes w' = writes w
    /\ slept w' = wait_fixed * r + slept w.
Proof.
  induction r as [|r IH]; intros w Hf.
  - destruct (Hf 0 ltac:(lia)) as [e He]. rewrite Nat.add_0_r in He.
    simpl. rewrite (load_json_body_fails p w e He).
    eexists. split; [reflexivity|]. simpl. repeat split; lia.
  - destruct (Hf 0 ltac:(lia)) as [e He]. rewrite Nat.add_0_r in He.
    simpl. rewrite (load_json_body_fails p w e He).
    unfold bind, sleep. simpl.
    match goal with |- context [retry_loop _ r _ ?w1] => set (w1' := w1) end.
    destruct (IH w1') as [w' [E [R [Wr Hs]]]].
    + intros j Hj. subst w1'. simpl reads. rewrite count_occ_cons_same.
      replace (S (count_occ Path_eq_dec (reads w) p) + j)
        with (count_occ Path_eq_dec (reads w) p + S j) by lia.
      apply Hf. lia.
    + exists w'. rewrite E. split; [reflexivity|].
      subst w1'. simpl reads in R; simpl writes in Wr; simpl slept in Hs. rewrite R, Wr, Hs.
      repeat split.
      * apply repeat_shift.
      * unfold wait_fixed. lia.
Qed.

End LoaderFacts.
(* ================================================================== *)
(** ** Merging the records of a group *)

Section MergeFacts.
Variable id_field : string.
Local Abbreviation sget := (PyDict.get string_dec).
Local Abbreviation kget := (PyDict.get key_eq_dec).
Local Abbreviation kset := (PyDict.set key_eq_dec).

Lemma add_record_data_id target source :
  sget id_field (_add_record_data target source id_field)
  = sget id_field target.
Proof.
  unfold _add_record_data. revert target.
  induction source as [|[k v] s IH]; intros target; simpl; [reflexivity|].
  rewrite IH. destruct (string_dec k id_field) as [E|E]; [reflexivity|].
  apply get_set_other. congruence.
Qed.

Lemma add_record_data_other k target source :
  k <> id_field -> NoDup (PyDict.keys source) ->
  sget k (_add_record_data target source id_field)
  = match sget k source with
    | Some v => Some v
    | None => sget k target
    end.
Proof.
  intros Hk. unfold _add_record_data. revert target.
  induction source as [|[k0 v0] s IH]; intros target ND; simpl;
    [reflexivity|].
  inversion ND as [|? ? Hn ND']; subst.
  rewrite (IH _ ND'). simpl in Hn.
  destruct (string_dec k k0) as [E|E].
  - subst k0. destruct (string_dec k id_field); [contradiction|].
    assert (G : sget k s = None) by (apply get_None_keys; exact Hn).
    rewrite G. apply get_set_same.
  - destruct (sget k s); [reflexivity|].
    destruct (string_dec k0 id_field); [reflexivity|].
    apply get_set_other. exact E.
Qed.

(** One record, filed: the shape of the new dictionary. *)
Lemma merge_record_filed by_id r v x :
  resolve_id id_field r = Ok v -> py_key v = Some x ->
  merge_record id_field by_id (JDict r)
  = Ok (kset x
          (_add_record_data
             (match kget x by_id with
              | Some t => t
              | None => [(id_field, v)]
              end) r id_field)
          (if PyDict.mem key_eq_dec x by_id then by_id
           else kset x [(id_field, v)] by_id)).
Proof.
  intros Hr Hk. unfold merge_record. rewrite Hr, Hk.
  unfold PyDict.mem. destruct (kget x by_id) as [t|] eqn:G.
  - rewrite G. reflexivity.
  - rewrite get_set_same. reflexivity.
Qed.

Lemma merge_record_Ok_inv by_id rec by_id' :
  merge_record id_field by_id rec = Ok by_id' ->
  exists r v x, rec = JDict r /\ resolve_id id_field r = Ok v
                /\ py_key v = Some x.
Proof.
  unfold merge_record. destruct rec; try discriminate.
  destruct (resolve_id id_field d) as [v|e] eqn:Hr; [|discriminate].
  destruct (py_key v) as [x|] eqn:Hk; [|discriminate].
  intros _. exists d, v, x. auto.
Qed.

Lemma record_key_Some rec x :
  record_key id_field rec = Some x <->
  exists r v, rec = JDict r /\ resolve_id id_field r = Ok v
              /\ py_key v = Some x.
Proof.
  unfold record_key, resolved_value. split.
  - destruct rec; try discriminate.
    destruct (resolve_id id_field d) as [j|e] eqn:Hr; [|discriminate].
    intros H. exists d, j. repeat split; auto.
  - intros [r [v [-> [Hr Hk]]]]. rewrite Hr. exact Hk.
Qed.

(** A record that has a key is filed, whatever the dictionary. *)
Lemma merge_record_total by_id rec x :
  record_key id_field rec = Some x ->
  exists by_id', merge_record id_field by_id rec = Ok by_id'.
Proof.
  intros H. apply record_key_Some in H. destruct H as [r [v [-> [Hr Hk]]]].
  eexists. apply merge_record_filed; eassumption.
Qed.

Lemma merge_record_keys by_id rec by_id' :
  merge_record id_field by_id rec = Ok by_id' ->
  exists x, record_key id_field rec = Some x /\
    (forall y, In y (PyDict.keys by_id') <-> y = x \/ In y (PyDict.keys by_id))
    /\ (NoDup (PyDict.keys by_id) -> NoDup (PyDict.keys by_id')).
Proof.
  intros H. destruct (merge_record_Ok_inv _ _ _ H) as [r [v [x [-> [Hr Hk]]]]].
  rewrite (merge_record_filed by_id r v x Hr Hk) in H. inversion H; subst.
  exists x. split; [apply record_key_Some; exists r, v; auto|]. split.
  - intros y. rewrite In_keys_set.
    destruct (PyDict.mem key_eq_dec x by_id) eqn:Em; [tauto|].
    rewrite In_keys_set. tauto.
  - intros ND. apply NoDup_keys_set.
    destruct (PyDict.mem key_eq_dec x by_id); [exact ND|].
    apply NoDup_keys_set. exact ND.
Qed.

Lemma merge_record_lookup_other by_id rec by_id' y :
  merge_record id_field by_id rec = Ok by_id' ->
  record_key id_field rec <> Some y ->
  kget y by_id' = kget y by_id.
Proof.
  intros H N. destruct (merge_record_Ok_inv _ _ _ H) as [r [v [x [-> [Hr Hk]]]]].
  rewrite (merge_record_filed by_id r v x Hr Hk) in H. inversion H; subst.
  assert (y <> x).
  { intros ->. apply N. apply record_key_Some. exists r, v; auto. }
  rewrite get_set_other by assumption.
  destruct (PyDict.mem key_eq_dec x by_id); [reflexivity|].
  apply get_set_other. assumption.
Qed.

Lemma merge_record_lookup_same by_id r v x by_id' :
  resolve_id id_field r = Ok v -> py_key v = Some x ->
  merge_record id_field by_id (JDict r) = Ok by_id' ->
  kget x by_id'
  = Some (_add_record_data
            (match kget x by_id with
             | Some t => t
             | None => [(id_field, v)]
             end) r id_field).
Proof.
  intros Hr Hk H. rewrite (merge_record_filed by_id r v x Hr Hk) in H.
  inversion H; subst. apply get_set_same.
Qed.

End MergeFacts.
Section MergeRecordsFacts.
Variable id_field : string.
Local Abbreviation sget := (PyDict.get string_dec).
Local Abbreviation kget := (PyDict.get key_eq_dec).
Local Abbreviation kset := (PyDict.set key_eq_dec).

Lemma merge_records_app rs1 : forall by_id rs2,
  merge_records id_field by_id (rs1 ++ rs2)
  = match merge_records id_field by_id rs1 with
    | Ok by_id1 => merge_records id_field by_id1 rs2
    | Raise e => Raise e
    end.
Proof.
  induction rs1 as [|rec rs1 IH]; intros by_id rs2; simpl; [reflexivity|].
  destruct (merge_record id_field by_id rec); [apply IH | reflexivity].
Qed.

Lemma merge_records_keys rs : forall by_id by_id',
  merge_records id_field by_id rs = Ok by_id' ->
  (forall y, In y (PyDict.keys by_id') <->
     In y (PyDict.keys by_id)
     \/ exists rec, In rec rs /\ record_key id_field rec = Some y)
  /\ (NoDup (PyDict.keys by_id) -> NoDup (PyDict.keys by_id')).
Proof.
  induction rs as [|rec rs IH]; intros by_id by_id' H; simpl in H.
  - inversion H; subst. split; [|auto].
    intros y. split; [auto|]. intros [I|[rec [[] _]]]. exact I.
  - destruct (merge_record id_field by_id rec) as [by1|e] eqn:E;
      [|discriminate].
    destruct (merge_record_keys id_field _ _ _ E) as [x [Hx [Hk Hn]]].
    destruct (IH _ _ H) as [Hk' Hn']. split; [|auto].
    intros y. rewrite Hk', Hk. split.
    + intros [[->|I]|[rec' [I R]]]; [right|left|right]; eauto.
      * exists rec. split; [left; reflexivity | exact Hx].
      * exists rec'. split; [right; exact I | exact R].
    + intros [I|[rec' [[->|I] R]]]; [left; right; exact I | |].
      * left; left. congruence.
      * right. exists rec'. auto.
Qed.

Lemma merge_records_total rs : forall by_id,
  (forall rec, In rec rs -> record_key id_field rec <> None) ->
  exists by_id', merge_records id_field by_id rs = Ok by_id'.
Proof.
  induction rs as [|rec rs IH]; intros by_id H; simpl; [eauto|].
  destruct (record_key id_field rec) as [x|] eqn:E.
  - destruct (merge_record_total id_field by_id rec x E) as [by1 E1].
    rewrite E1. apply IH. intros r I. apply H. right. exact I.
  - exfalso. apply (H rec); [left; reflexivity | exact E].
Qed.

Lemma merge_records_Ok_inv rs : forall by_id by_id',
  merge_records id_field by_id rs = Ok by_id' ->
  forall rec, In rec rs -> record_key id_field rec <> None.
Proof.
  induction rs as [|rec rs IH]; intros by_id by_id' H r I; [destruct I|].
  simpl in H.
  destruct (merge_record id_field by_id rec) as [by1|e] eqn:E;
    [|discriminate].
  destruct I as [->|I]; [|eapply IH; eassumption].
  destruct (merge_record_keys id_field _ _ _ E) as [x [Hx _]]. congruence.
Qed.

Lemma In_set_inv {K V : Type} (eq_dec : forall a b : K, {a = b} + {a <> b})
  (k y : K) (v t : V) d :
  In (y, t) (PyDict.set eq_dec k v d) -> (y = k /\ t = v) \/ In (y, t) d.
Proof.
  induction d as [|[k0 v0] d IH]; simpl.
  - intros [H|[]]. inversion H; auto.
  - destruct (eq_dec k k0) as [E|E]; simpl.
    + intros [H|H]; [inversion H; subst; auto | auto].
    + intros [H|H]; [auto | destruct (IH H); auto].
Qed.

Lemma merge_record_keyed by_id rec by_id' :
  keyed id_field by_id ->
  merge_record id_field by_id rec = Ok by_id' ->
  keyed id_field by_id'.
Proof.
  intros Hkd H.
  destruct (merge_record_Ok_inv _ _ _ _ H) as [r [v [x [-> [Hr Hk]]]]].
  rewrite (merge_record_filed id_field by_id r v x Hr Hk) in H.
  inversion H; subst. clear H.
  intros y t I. apply In_set_inv in I. destruct I as [[-> ->]|I].
  - rewrite add_record_data_id.
    destruct (kget x by_id) as [t0|] eqn:G.
    + apply get_Some_In in G. apply (Hkd _ _ G).
    + exists v. simpl. destruct (string_dec id_field id_field); [|congruence].
      auto.
  - destruct (PyDict.mem key_eq_dec x by_id); [apply (Hkd _ _ I)|].
    apply In_set_inv in I. destruct I as [[-> ->]|I]; [|apply (Hkd _ _ I)].
    exists v. simpl. destruct (string_dec id_field id_field); [|congruence].
    auto.
Qed.

Lemma merge_records_keyed rs : forall by_id by_id',
  keyed id_field by_id ->
  merge_records id_field by_id rs = Ok by_id' ->
  keyed id_field by_id'.
Proof.
  induction rs as [|rec rs IH]; intros by_id by_id' Hkd H; simpl in H.
  - inversion H; subst. exact Hkd.
  - destruct (merge_record id_field by_id rec) as [by1|e] eqn:E;
      [|discriminate].
    eapply IH; [|exact H]. eapply merge_record_keyed; eassumption.
Qed.

Lemma keyed_nil : keyed id_field [].
Proof. intros x t []. Qed.

Lemma filed_under_true x rec :
  filed_under id_field x rec = true <-> record_key id_field rec = Some x.
Proof.
  unfold filed_under. destruct (record_key id_field rec) as [y|].
  - destruct (key_eq_dec y x); split; congruence.
  - split; discriminate.
Qed.

(** One step of the loop, seen from a key and a field other than the
    identifier field. *)
Lemma merge_record_lookup2 by_id rec by_id' x k :
  k <> id_field -> wf_record rec ->
  merge_record id_field by_id rec = Ok by_id' ->
  lookup2 x k by_id'
  = if filed_under id_field x rec
    then match field k rec with
         | Some v => Some v
         | None => lookup2 x k by_id
         end
    else lookup2 x k by_id.
Proof.
  intros Hk Hwf H. unfold lookup2.
  destruct (filed_under id_field x rec) eqn:F.
  - apply filed_under_true in F.
    destruct (merge_record_Ok_inv _ _ _ _ H) as [r [v [x' [-> [Hr Hx]]]]].
    assert (x' = x).
    { apply record_key_Some in F. destruct F as [r' [v' [Er [Hr' Hx']]]].
      inversion Er; subst. congruence. }
    subst x'. rewrite (merge_record_lookup_same id_field _ _ _ _ _ Hr Hx H).
    simpl in Hwf. rewrite (add_record_data_other id_field k _ _ Hk Hwf).
    simpl. destruct (sget k r); [reflexivity|].
    destruct (kget x by_id); [reflexivity|].
    simpl. destruct (string_dec k id_field); [contradiction | reflexivity].
  - rewrite (merge_record_lookup_other id_field _ _ _ x H); [reflexivity|].
    intros C. apply filed_under_true in C. congruence.
Qed.

(** Last writer wins, for the dictionary of the loop. *)
Lemma merge_records_lookup2 x k rs : forall by_id by_id',
  k <> id_field -> Forall wf_record rs ->
  merge_records id_field by_id rs = Ok by_id' ->
  lookup2 x k by_id'
  = match last_value id_field x k rs with
    | Some v => Some v
    | None => lookup2 x k by_id
    end.
Proof.
  induction rs as [|rec rs IH]; intros by_id by_id' Hk Hwf H; simpl in H.
  - inversion H; subst. reflexivity.
  - destruct (merge_record id_field by_id rec) as [by1|e] eqn:E;
      [|discriminate].
    inversion Hwf as [|? ? Hw Hws]; subst.
    rewrite (IH _ _ Hk Hws H). simpl.
    destruct (last_value id_field x k rs); [reflexivity|].
    rewrite (merge_record_lookup2 _ _ _ x k Hk Hw E).
    destruct (filed_under id_field x rec); [|reflexivity].
    destruct (field k rec); reflexivity.
Qed.

Lemma keyed_lookup_id by_id x t :
  keyed id_field by_id -> kget x by_id = Some t ->
  exists v, sget id_field t = Some v /\ py_key v = Some x.
Proof. intros Hkd G. apply get_Some_In in G. apply (Hkd _ _ G). Qed.

(** First seen stays, for the identifier field. *)
Lemma merge_records_lookup_id x rs : forall by_id by_id',
  keyed id_field by_id ->
  merge_records id_field by_id rs = Ok by_id' ->
  lookup2 x id_field by_id'
  = match lookup2 x id_field by_id with
    | Some v => Some v
    | None => first_id id_field x rs
    end.
Proof.
  induction rs as [|rec rs IH]; intros by_id by_id' Hkd H; simpl in H.
  - inversion H; subst. simpl. destruct (lookup2 x id_field by_id'); reflexivity.
  - destruct (merge_record id_field by_id rec) as [by1|e] eqn:E;
      [|discriminate].
    rewrite (IH _ _ (merge_record_keyed _ _ _ Hkd E) H). simpl.
    destruct (filed_under id_field x rec) eqn:F.
    + apply filed_under_true in F.
      destruct (merge_record_Ok_inv _ _ _ _ E) as [r [v [x' [-> [Hr Hx]]]]].
      assert (x' = x).
      { apply record_key_Some in F. destruct F as [r' [v' [Er [Hr' Hx']]]].
        inversion Er; subst. congruence. }
      subst x'. unfold lookup2 at 1.
      rewrite (merge_record_lookup_same id_field _ _ _ _ _ Hr Hx E).
      rewrite add_record_data_id. unfold lookup2, resolved_value.
      rewrite Hr. destruct (kget x by_id) as [t|] eqn:G.
      * destruct (keyed_lookup_id _ _ _ Hkd G) as [v0 [G0 _]].
        rewrite G0. reflexivity.
      * simpl. destruct (string_dec id_field id_field); [|congruence].
        reflexivity.
    + unfold lookup2.
      rewrite (merge_record_lookup_other id_field _ _ _ x E); [reflexivity|].
      intros C. apply filed_under_true in C. congruence.
Qed.

End MergeRecordsFacts.
Section LastFirstFacts.
Variable id_field : string.

Lemma last_value_app x k a : forall b,
  last_value id_field x k (a ++ b)
  = match last_value id_field x k b with
    | Some v => Some v
    | None => last_value id_field x k a
    end.
Proof.
  induction a as [|rec a IH]; intros b; simpl.
  - destruct (last_value id_field x k b); reflexivity.
  - rewrite IH. destruct (last_value id_field x k b); reflexivity.
Qed.

Lemma last_value_None x k l :
  (forall r, In r l -> record_key id_field r = Some x -> field k r = None) ->
  last_value id_field x k l = None.
Proof.
  induction l as [|rec l IH]; intros H; simpl; [reflexivity|].
  rewrite IH by (intros r I; apply H; right; exact I).
  destruct (filed_under id_field x rec) eqn:F; [|reflexivity].
  apply H; [left; reflexivity | apply filed_under_true; exact F].
Qed.

Lemma last_value_Some_inv x k l v :
  last_value id_field x k l = Some v ->
  exists r, In r l /\ record_key id_field r = Some x /\ field k r = Some v.
Proof.
  induction l as [|rec l IH]; simpl; [discriminate|].
  destruct (last_value id_field x k l) as [v'|].
  - intros H. inversion H; subst.
    destruct (IH eq_refl) as [r [I [R Fd]]]. exists r. auto.
  - destruct (filed_under id_field x rec) eqn:F; [|discriminate].
    intros H. exists rec. split; [left; reflexivity|].
    split; [apply filed_under_true; exact F | exact H].
Qed.

Lemma last_value_defined x k l r v :
  In r l -> record_key id_field r = Some x -> field k r = Some v ->
  exists v', last_value id_field x k l = Some v'.
Proof.
  induction l as [|rec l IH]; simpl; [tauto|].
  intros [->|I] R Fd.
  - destruct (last_value id_field x k l); [eauto|].
    apply filed_under_true in R. rewrite R. eauto.
  - destruct (IH I R Fd) as [v' E]. rewrite E. eauto.
Qed.

Lemma first_id_skip x before : forall rest,
  (forall r', In r' before -> record_key id_field r' <> Some x) ->
  first_id id_field x (before ++ rest) = first_id id_field x rest.
Proof.
  induction before as [|rec before IH]; intros rest H; simpl; [reflexivity|].
  destruct (filed_under id_field x rec) eqn:F.
  - apply filed_under_true in F. exfalso. apply (H rec); [left; reflexivity|].
    exact F.
  - apply IH. intros r' I. apply H. right. exact I.
Qed.

Lemma keyed_id_keys by_id :
  keyed id_field by_id ->
  map (id_key id_field) (PyDict.values by_id) = map Some (PyDict.keys by_id).
Proof.
  induction by_id as [|[x t] d IH]; intros Hkd; simpl; [reflexivity|].
  destruct (Hkd x t (or_introl eq_refl)) as [v [G Hk]].
  unfold id_key at 1, py_get. rewrite G, Hk. f_equal.
  apply IH. intros y t' I. apply Hkd. right. exact I.
Qed.

Lemma In_values_inv (by_id : records_by_id) t :
  In t (PyDict.values by_id) -> exists x, In (x, t) by_id.
Proof.
  unfold PyDict.values. rewrite in_map_iff. intros [[x t'] [E I]].
  simpl in E. subst. eauto.
Qed.

End LastFirstFacts.

(* ================================================================== *)
(** ** [_merge_single_group] on the files it loads *)

Section GroupFacts.
Variable env : environment.
Variable id_field : string.

Lemma merge_group_loop_loads : forall fg contents by_id w w' by_id',
  loads env fg contents w w' ->
  merge_records id_field by_id (List.concat contents) = Ok by_id' ->
  merge_group_loop env id_field fg by_id w = (Ok by_id', w').
Proof.
  induction fg as [|p fg IH]; intros [|l ls] by_id w w' by_id' L H;
    simpl in L; try contradiction.
  - subst. simpl in H. inversion H; subst. reflexivity.
  - destruct L as [w1 [E L]]. simpl in H. rewrite merge_records_app in H.
    destruct (merge_records id_field by_id l) as [by1|e] eqn:E1;
      [|discriminate].
    simpl. unfold bind at 1. rewrite E. unfold bind, lift. rewrite E1.
    eapply IH; eassumption.
Qed.

Lemma merge_group_loop_Ok_inv : forall fg by_id w w' by_id',
  merge_group_loop env id_field fg by_id w = (Ok by_id', w') ->
  exists contents,
    loads env fg contents w w'
    /\ merge_records id_field by_id (List.concat contents) = Ok by_id'.
Proof.
  induction fg as [|p fg IH]; intros by_id w w' by_id' H; simpl in H.
  - inversion H; subst. exists []. split; reflexivity.
  - unfold bind at 1 in H.
    destruct (_load_json_file env p w) as [[[l|]|e] w1] eqn:E;
      try discriminate.
    unfold bind, lift in H.
    destruct (merge_records id_field by_id l) as [by1|e] eqn:E1;
      [|discriminate].
    destruct (IH _ _ _ _ H) as [ls [L M]].
    exists (l :: ls). split.
    + simpl. exists w1. auto.
    + simpl. rewrite merge_records_app, E1. exact M.
Qed.

Lemma loads_functional : forall fg c1 c2 w w1 w2,
  loads env fg c1 w w1 -> loads env fg c2 w w2 -> c1 = c2 /\ w1 = w2.
Proof.
  induction fg as [|p fg IH]; intros [|l1 c1] [|l2 c2] w w1 w2 L1 L2;
    simpl in *; try contradiction.
  - split; congruence.
  - destruct L1 as [wa [Ea La]]. destruct L2 as [wb [Eb Lb]].
    rewrite Ea in Eb. inversion Eb; subst.
    destruct (IH _ _ _ _ _ La Lb). split; congruence.
Qed.

Lemma merge_single_group_loads fg contents idx w w' by_id :
  loads env fg contents w w' ->
  merge_records id_field [] (List.concat contents) = Ok by_id ->
  _merge_single_group env fg id_field idx w
  = (Ok (match by_id with
         | [] => None
         | _ => Some (mkMerged idx (map name fg) (PyDict.values by_id))
         end), w').
Proof.
  intros L H. unfold _merge_single_group, bind.
  rewrite (merge_group_loop_loads _ _ _ _ _ _ L H).
  destruct by_id; reflexivity.
Qed.

Lemma merge_single_group_Some_inv fg contents idx w w' w'' m :
  loads env fg contents w w' ->
  _merge_single_group env fg id_field idx w = (Ok (Some m), w'') ->
  exists by_id,
    merge_records id_field [] (List.concat contents) = Ok by_id
    /\ records m = PyDict.values by_id /\ w'' = w'.
Proof.
  intros L H. unfold _merge_single_group, bind in H.
  destruct (merge_group_loop env id_field fg [] w) as [[by_id|e] w1] eqn:E;
    [|discriminate].
  destruct (merge_group_loop_Ok_inv _ _ _ _ _ E) as [c [L' M]].
  destruct (loads_functional _ _ _ _ _ _ L L') as [-> ->].
  exists by_id. destruct by_id; inversion H; subst; auto.
Qed.

End GroupFacts.
(* ================================================================== *)
(** ** Which steps write *)

Section Frame.
Variable env : environment.

Lemma pw_ret {A : Type} (a : A) : preserves_writes (ret a).
Proof. intros w. reflexivity. Qed.

Lemma pw_raise {A : Type} (e : exn) : preserves_writes (@raise A e).
Proof. intros w. reflexivity. Qed.

Lemma pw_lift {A : Type} (r : result A) : preserves_writes (lift r).
Proof. intros w. reflexivity. Qed.

Lemma pw_logger lv msg : preserves_writes (logger lv msg).
Proof. intros w. reflexivity. Qed.

Lemma pw_sleep n : preserves_writes (sleep n).
Proof. intros w. reflexivity. Qed.

Lemma pw_bind {A B : Type} (m : M A) (k : A -> M B) :
  preserves_writes m -> (forall a, preserves_writes (k a)) ->
  preserves_writes (bind m k).
Proof.
  intros Hm Hk w. unfold bind. specialize (Hm w).
  destruct (m w) as [[a|e] w1]; simpl in *.
  - rewrite (Hk a w1). exact Hm.
  - exact Hm.
Qed.

Lemma pw_try_except {A : Type} (m : M A) (h : exn -> M A) :
  preserves_writes m -> (forall e, preserves_writes (h e)) ->
  preserves_writes (try_except m h).
Proof.
  intros Hm Hh w. unfold try_except. specialize (Hm w).
  destruct (m w) as [[a|e] w1]; simpl in *.
  - exact Hm.
  - rewrite (Hh e w1). exact Hm.
Qed.

Lemma pw_open_and_parse p : preserves_writes (open_and_parse env p).
Proof.
  intros w. unfold open_and_parse.
  destruct (read_outcome env p _); reflexivity.
Qed.

Lemma pw_load_json_body p : preserves_writes (load_json_body env p).
Proof.
  unfold load_json_body. apply pw_try_except.
  - apply pw_bind; [apply pw_open_and_parse|].
    intros data. destruct data;
      try (apply pw_bind; [apply pw_logger | intros; apply pw_ret]).
    apply pw_ret.
  - intros e. apply pw_bind; [apply pw_logger | intros; apply pw_raise].
Qed.

Lemma pw_retry_loop {A : Type} delay (f : M A) :
  preserves_writes f -> forall r, preserves_writes (retry_loop delay r f).
Proof.
  intros Hf. induction r as [|r IH]; intros w; simpl;
    specialize (Hf w); destruct (f w) as [[a|e] w1]; simpl in *;
    try exact Hf.
  pose proof (pw_bind (sleep delay) (fun _ => retry_loop delay r f)
                (pw_sleep delay) (fun _ => IH) w1) as Hb.
  rewrite Hb. exact Hf.
Qed.

Lemma pw_load_json_file p : preserves_writes (_load_json_file env p).
Proof. apply pw_retry_loop. apply pw_load_json_body. Qed.

Lemma pw_merge_group_loop id_field fg :
  forall by_id, preserves_writes (merge_group_loop env id_field fg by_id).
Proof.
  induction fg as [|p fg IH]; intros by_id; simpl; [apply pw_ret|].
  apply pw_bind; [apply pw_load_json_file|].
  intros [l|]; [|apply pw_raise].
  apply pw_bind; [apply pw_lift | intros; apply IH].
Qed.

Lemma pw_merge_single_group fg id_field idx :
  preserves_writes (_merge_single_group env fg id_field idx).
Proof.
  unfold _merge_single_group. apply pw_bind; [apply pw_merge_group_loop|].
  intros [|x d]; apply pw_ret.
Qed.

Lemma merge_single_group_nil id_field idx w :
  _merge_single_group env [] id_field idx w = (Ok None, w).
Proof. reflexivity. Qed.

End Frame.

(* ================================================================== *)
(** ** [process_group] and the run over the groups *)

Section RunFacts.
Variable env : environment.
Variable str_other : json -> string.
Variable self : Tag_Result_Merger.
Variable id_field : string.

Lemma process_group_raises save append idx fg w e w' :
  _merge_single_group env fg id_field idx w = (Raise e, w') ->
  process_group env str_other self id_field save append idx fg w
  = (Raise e, w').
Proof. intros H. unfold process_group, bind. rewrite H. reflexivity. Qed.

Lemma process_group_none save append idx fg w w' :
  _merge_single_group env fg id_field idx w = (Ok None, w') ->
  process_group env str_other self id_field save append idx fg w
  = (Ok None, w').
Proof. intros H. unfold process_group, bind. rewrite H. reflexivity. Qed.

Lemma process_group_not_saving append idx fg w m w' :
  _merge_single_group env fg id_field idx w = (Ok (Some m), w') ->
  process_group env str_other self id_field false append idx fg w
  = (Ok (Some (if append then MergedResult m else Placeholder idx)), w').
Proof.
  intros H. unfold process_group, bind. rewrite H.
  destruct append; reflexivity.
Qed.

(** Saving a merged group: one file, or none and an error record. *)
Lemma process_group_saving append idx fg w m w' :
  _merge_single_group env fg id_field idx w = (Ok (Some m), w') ->
  process_group env str_other self id_field true append idx fg w
  = if write_ok env (output_path self str_other fg m)
    then (Ok (Some (SavedPath (output_path self str_other fg m))),
          mkWorld (reads w')
            ((output_path self str_other fg m, records m) :: writes w')
            (slept w') (log w'))
    else (Ok None,
          mkWorld (reads w') (writes w') (slept w')
            ((ERROR, MsgSaveError idx OSError) :: log w')).
Proof.
  intros H. unfold process_group. unfold bind at 1. rewrite H.
  assert (Hfg : fg <> []).
  { intros ->. rewrite merge_single_group_nil in H. discriminate. }
  destruct fg as [|f0 fg']; [congruence|].
  unfold output_path, output_name, try_except, bind, ret, write_json.
  replace (match records m with r :: _ => r | [] => [] end)
    with (hd [] (records m)) by (destruct (records m); reflexivity).
  destruct (truthy (py_get "ILA_original_filename" (hd [] (records m))));
    match goal with
    | |- context [write_ok env ?p] => destruct (write_ok env p)
    end; reflexivity.
Qed.

Lemma run_groups_app save append pre : forall idx post w,
  run_groups env str_other self id_field save append idx (pre ++ post) w
  = match run_groups env str_other self id_field save append idx pre w with
    | (Ok rs, w1) =>
        match run_groups env str_other self id_field save append
                (idx + List.length pre) post w1 with
        | (Ok rs', w2) => (Ok (rs ++ rs'), w2)
        | (Raise e, w2) => (Raise e, w2)
        end
    | (Raise e, w1) => (Raise e, w1)
    end.
Proof.
  induction pre as [|fg pre IH]; intros idx post w; simpl.
  - rewrite Nat.add_0_r. unfold ret.
    destruct (run_groups _ _ _ _ _ _ idx post w) as [[rs|e] w2]; reflexivity.
  - unfold bind, ret.
    destruct (process_group _ _ _ _ _ _ idx fg w) as [[r|e] w1];
      [|reflexivity].
    rewrite IH.
    destruct (run_groups _ _ _ _ _ _ (S idx) pre w1) as [[rs|e] w2];
      [|reflexivity].
    replace (idx + S (List.length pre)) with (S idx + List.length pre) by lia.
    destruct (run_groups _ _ _ _ _ _ (S idx + List.length pre) post w2)
      as [[rs'|e] w3]; reflexivity.
Qed.

Lemma filter_some_app {A : Type} (a b : list (option A)) :
  filter_some (a ++ b) = filter_some a ++ filter_some b.
Proof.
  induction a as [|[x|] a IH]; simpl; [reflexivity | f_equal; exact IH | exact IH].
Qed.

Lemma merge_files_unfold groups save append w :
  merge_files env str_other self groups id_field save append w
  = match run_groups env str_other self id_field save append 0 groups
            (started groups id_field w) with
    | (Ok rs, w1) =>
        ((if save
          then logger INFO (MsgSaved (List.length (filter_some rs))
                              (List.length groups) (output_dir self))
          else ret tt) ;;;
         if append then
           total_records <- lift (sum_records (filter_some rs)) ;;
           logger INFO (MsgMerged (List.length (filter_some rs))
                          total_records) ;;;
           ret (filter_some rs)
         else
           logger INFO (MsgProcessed (List.length (filter_some rs))) ;;;
           ret (filter_some rs))%monad w1
    | (Raise e, w1) => (Raise e, w1)
    end.
Proof.
  unfold merge_files, started. unfold bind at 1. simpl.
  unfold bind at 1.
  destruct (run_groups _ _ _ _ _ _ 0 groups _) as [[rs|e] w1]; reflexivity.
Qed.

End RunFacts.
(* ================================================================== *)
(** ** Scanning the directories *)

Lemma nth_list_set {A : Type} (x d : A) : forall l i j,
  nth j (list_set i x l) d
  = if (j =? i) && (i <? List.length l) then x else nth j l d.
Proof.
  induction l as [|h t IH]; intros i j; simpl.
  - replace (i <? 0) with false by (symmetry; apply Nat.ltb_ge; lia).
    rewrite Bool.andb_false_r. destruct i; reflexivity.
  - destruct i as [|i]; destruct j as [|j]; simpl; try reflexivity.
    rewrite IH. reflexivity.
Qed.

Lemma length_list_set {A : Type} (x : A) : forall l i,
  List.length (list_set i x l) = List.length l.
Proof.
  induction l as [|h t IH]; intros i; destruct i; simpl;
    try reflexivity.
  rewrite IH. reflexivity.
Qed.

Lemma nth_repeat_None {A : Type} n j :
  nth j (repeat (@None A) n) None = None.
Proof.
  revert j. induction n as [|n IH]; intros [|j]; simpl; auto.
Qed.

Lemma has_pattern_true bp f :
  has_pattern bp f = true <-> base_pattern f = Some bp.
Proof.
  unfold has_pattern. destruct (base_pattern f) as [q|].
  - rewrite String.eqb_eq. split; congruence.
  - split; discriminate.
Qed.

(** A base pattern is never the empty string: it ends with an underscore. *)
Lemma base_pattern_nonempty f bp :
  base_pattern f = Some bp -> (bp =? "")%string = false.
Proof.
  unfold base_pattern.
  destruct (split_on "_"%char f) as [|p0 [|p1 rest]]; try discriminate.
  destruct (isdigit p0) eqn:D; simpl; [|discriminate].
  destruct (p1 =? "articles")%string; [|discriminate].
  destruct p0 as [|a p0]; [discriminate|].
  destruct rest as [|p2 rest]; [discriminate|].
  destruct (isdigit p2); intros H; inversion H; reflexivity.
Qed.

Section ScanFacts.
Variable num_dirs : nat.
Local Abbreviation sget := (PyDict.get string_dec).
Local Abbreviation sset := (PyDict.set string_dec).

Lemma well_sized_set bp sl (m : pattern_map) :
  well_sized num_dirs m -> List.length sl = num_dirs ->
  well_sized num_dirs (sset bp sl m).
Proof.
  intros [ND Hl] Hsl. split; [apply NoDup_keys_set; exact ND|].
  intros q fl I. apply In_set_inv in I. destruct I as [[-> ->]|I]; eauto.
Qed.

Lemma well_sized_get bp sl (m : pattern_map) :
  well_sized num_dirs m -> sget bp m = Some sl -> List.length sl = num_dirs.
Proof. intros [_ Hl] G. apply get_Some_In in G. eauto. Qed.

Lemma scan_file_well_sized i d m f :
  well_sized num_dirs m -> well_sized num_dirs (scan_file num_dirs i d m f).
Proof.
  intros W. unfold scan_file.
  destruct (base_pattern f) as [bp|] eqn:B; [|exact W].
  rewrite (base_pattern_nonempty f bp B).
  unfold PyDict.mem. destruct (sget bp m) as [sl|] eqn:G.
  - rewrite G. apply well_sized_set; [exact W|].
    rewrite length_list_set. eapply well_sized_get; eassumption.
  - rewrite get_set_same. apply well_sized_set.
    + apply well_sized_set; [exact W | apply repeat_length].
    + rewrite length_list_set. apply repeat_length.
Qed.

Lemma scan_file_slot i d m f bp j :
  well_sized num_dirs m -> i < num_dirs ->
  slot (scan_file num_dirs i d m f) bp j
  = if has_pattern bp f && (j =? i) then Some (path_join d f)
    else slot m bp j.
Proof.
  intros W Hi. unfold scan_file, has_pattern.
  destruct (base_pattern f) as [q|] eqn:B; [|reflexivity].
  rewrite (base_pattern_nonempty f q B).
  destruct (String.eqb_spec q bp) as [->|Hq]; simpl.
  - unfold PyDict.mem, slot. destruct (sget bp m) as [sl|] eqn:G.
    + rewrite G, get_set_same, nth_list_set.
      rewrite (well_sized_get _ _ _ W G).
      apply Nat.ltb_lt in Hi. rewrite Hi, Bool.andb_true_r. reflexivity.
    + rewrite !get_set_same, nth_list_set, repeat_length.
      apply Nat.ltb_lt in Hi. rewrite Hi, Bool.andb_true_r.
      rewrite nth_repeat_None. destruct (j =? i); reflexivity.
  - unfold PyDict.mem, slot. destruct (sget q m) as [sl|] eqn:G.
    + rewrite G. rewrite get_set_other by congruence. reflexivity.
    + rewrite get_set_same. rewrite !get_set_other by congruence.
      reflexivity.
Qed.

Lemma scan_dir_well_sized i d files : forall m,
  well_sized num_dirs m ->
  well_sized num_dirs (fold_left (scan_file num_dirs i d) files m).
Proof.
  induction files as [|f files IH]; intros m W; simpl; [exact W|].
  apply IH. apply scan_file_well_sized. exact W.
Qed.

(** One directory: its slot takes the last file of each pattern. *)
Lemma scan_dir_slot i d bp j files : forall m,
  well_sized num_dirs m -> i < num_dirs ->
  slot (fold_left (scan_file num_dirs i d) files m) bp j
  = if j =? i then
      match last_with_pattern bp files with
      | Some f => Some (path_join d f)
      | None => slot m bp j
      end
    else slot m bp j.
Proof.
  induction files as [|f files IH]; intros m W Hi; simpl.
  - destruct (j =? i); reflexivity.
  - rewrite (IH _ (scan_file_well_sized i d m f W) Hi).
    rewrite (scan_file_slot i d m f bp j W Hi).
    destruct (j =? i); [|rewrite Bool.andb_false_r; reflexivity].
    destruct (last_with_pattern bp files); [reflexivity|].
    rewrite Bool.andb_true_r. destruct (has_pattern bp f); reflexivity.
Qed.

Variable env : environment.

Lemma scan_all_well_sized dirs : forall i m,
  well_sized num_dirs m -> well_sized num_dirs (scan_all env num_dirs i dirs m).
Proof.
  induction dirs as [|d dirs IH]; intros i m W; simpl; [exact W|].
  apply IH. apply scan_dir_well_sized. exact W.
Qed.

(** All the directories: every slot is decided by its own directory. *)
Lemma scan_all_slot bp j dirs : forall i m,
  well_sized num_dirs m -> i + List.length dirs <= num_dirs ->
  slot (scan_all env num_dirs i dirs m) bp j
  = match nth_error dirs (j - i) with
    | Some d =>
        if i <=? j then
          match last_with_pattern bp (glob_json env d) with
          | Some f => Some (path_join d f)
          | None => slot m bp j
          end
        else slot m bp j
    | None => slot m bp j
    end.
Proof.
  induction dirs as [|d dirs IH]; intros i m W Hi; simpl.
  - destruct (j - i); reflexivity.
  - simpl in Hi.
    rewrite (IH (S i) _ (scan_dir_well_sized i d _ m W)) by lia.
    rewrite !(scan_dir_slot i d bp j _ m W) by lia.
    destruct (Nat.eqb_spec j i) as [->|Hne].
    + rewrite Nat.sub_diag. replace (i - S i) with 0 by lia.
      assert (F : (S i <=? i) = false) by (apply Nat.leb_gt; lia).
      rewrite F, Nat.leb_refl. simpl nth_error.
      destruct dirs as [|d' dirs']; reflexivity.
    + destruct (Nat.leb_spec i j) as [Hle|Hgt].
      * assert (T : (S i <=? j) = true) by (apply Nat.leb_le; lia).
        rewrite T. replace (j - i) with (S (j - S i)) by lia.
        reflexivity.
      * assert (F : (S i <=? j) = false) by (apply Nat.leb_gt; lia).
        rewrite F. replace (j - S i) with 0 by lia.
        replace (j - i) with 0 by lia. simpl nth_error.
        destruct dirs; reflexivity.
Qed.

End ScanFacts.

Lemma well_sized_nil n : well_sized n [].
Proof. split; [constructor | intros bp sl []]. Qed.

Lemma last_with_pattern_Some bp files f :
  last_with_pattern bp files = Some f ->
  In f files /\ base_pattern f = Some bp.
Proof.
  induction files as [|g files IH]; simpl; [discriminate|].
  destruct (last_with_pattern bp files) as [h|].
  - intros E. inversion E; subst. destruct (IH eq_refl). auto.
  - destruct (has_pattern bp g) eqn:P; [|discriminate].
    intros E. inversion E; subst. apply has_pattern_true in P. auto.
Qed.

Lemma last_with_pattern_app bp a : forall b,
  last_with_pattern bp (a ++ b)
  = match last_with_pattern bp b with
    | Some g => Some g
    | None => last_with_pattern bp a
    end.
Proof.
  induction a as [|f a IH]; intros b; simpl.
  - destruct (last_with_pattern bp b); reflexivity.
  - rewrite IH. destruct (last_with_pattern bp b); reflexivity.
Qed.

Lemma last_with_pattern_defined bp files f :
  In f files -> base_pattern f = Some bp ->
  exists g, last_with_pattern bp files = Some g.
Proof.
  induction files as [|h files IH]; simpl; [tauto|].
  intros [->|I] P.
  - destruct (last_with_pattern bp files); [eauto|].
    apply has_pattern_true in P. rewrite P. eauto.
  - destruct (IH I P) as [g E]. rewrite E. eauto.
Qed.

Lemma all_some_nth {A : Type} (l : list (option A)) : forall g,
  all_some l = Some g ->
  List.length g = List.length l
  /\ forall j, nth_error l j = option_map Some (nth_error g j).
Proof.
  induction l as [|[x|] l IH]; intros g H; simpl in H.
  - inversion H; subst. split; [reflexivity|]. intros [|j]; reflexivity.
  - destruct (all_some l) as [g'|]; [|discriminate]. inversion H; subst.
    destruct (IH g' eq_refl) as [Hl Hn]. split; [simpl; congruence|].
    intros [|j]; simpl; [reflexivity | apply Hn].
  - discriminate.
Qed.

Lemma all_some_None_iff {A : Type} (l : list (option A)) :
  all_some l = None <-> In None l.
Proof.
  induction l as [|[x|] l IH]; simpl.
  - split; [discriminate | tauto].
  - destruct (all_some l).
    + split; [discriminate|]. intros [C|C]; [discriminate|].
      apply IH in C. discriminate.
    + split; [intros _; right; apply IH; reflexivity | reflexivity].
  - split; auto.
Qed.
(* ================================================================== *)
(** ** [discover_merge_files] as a whole *)

Lemma quiet_ret {A : Type} (a : A) : quiet (ret a).
Proof. intros w. exists []. split; [reflexivity | intros lv msg []]. Qed.

Lemma quiet_raise {A : Type} (e : exn) : quiet (@raise A e).
Proof. intros w. exists []. split; [reflexivity | intros lv msg []]. Qed.

Lemma quiet_logger lv msg :
  lv = INFO \/ lv = DEBUG -> quiet (logger lv msg).
Proof.
  intros H w. exists [(lv, msg)]. split; [reflexivity|].
  intros lv' msg' [E|[]]. inversion E; subst. exact H.
Qed.

Lemma quiet_bind {A B : Type} (m : M A) (k : A -> M B) :
  quiet m -> (forall a, quiet (k a)) -> quiet (bind m k).
Proof.
  intros Hm Hk w. unfold bind. destruct (Hm w) as [l [E Hl]].
  destruct (m w) as [[a|e] w1]; simpl in *.
  - destruct (Hk a w1) as [l' [E' Hl']]. exists (l' ++ l).
    rewrite E', E, app_assoc. split; [reflexivity|].
    intros lv msg I. apply in_app_or in I. destruct I; eauto.
  - exists l. auto.
Qed.

Lemma In_complete_of items g :
  In g (complete_of items) <->
  exists bp sl, In (bp, sl) items /\ all_some sl = Some g.
Proof.
  unfold complete_of. induction items as [|[bp sl] items IH]; simpl.
  - split; [tauto | intros [bp [sl [[] _]]]].
  - destruct (all_some sl) as [g'|] eqn:E; simpl; rewrite IH; split.
    + intros [<-|[bp' [sl' [I A]]]]; [exists bp, sl; auto|].
      exists bp', sl'. auto.
    + intros [bp' [sl' [[H|I] A]]].
      * inversion H; subst. left. congruence.
      * right. exists bp', sl'. auto.
    + intros [bp' [sl' [I A]]]. exists bp', sl'. auto.
    + intros [bp' [sl' [[H|I] A]]].
      * inversion H; subst. congruence.
      * exists bp', sl'. auto.
Qed.

Section DiscoverFacts.
Variable env : environment.

Lemma quiet_check_dirs dirs : forall i, quiet (check_dirs env i dirs).
Proof.
  induction dirs as [|d dirs IH]; intros i; simpl; [apply quiet_ret|].
  destruct (dir_exists env d); [|apply quiet_raise].
  apply quiet_bind; [apply quiet_logger; auto | intros; apply IH].
Qed.

Lemma check_dirs_result dirs : forall i w,
  fst (check_dirs env i dirs w) = Ok tt
  \/ fst (check_dirs env i dirs w) = Raise FileNotFoundError.
Proof.
  induction dirs as [|d dirs IH]; intros i w; simpl; [left; reflexivity|].
  destruct (dir_exists env d); [|right; reflexivity].
  unfold bind, logger. apply IH.
Qed.

Lemma check_dirs_Ok dirs : forall i w,
  (forall d, In d dirs -> dir_exists env d = true) ->
  fst (check_dirs env i dirs w) = Ok tt.
Proof.
  induction dirs as [|d dirs IH]; intros i w H; simpl; [reflexivity|].
  rewrite (H d (or_introl eq_refl)). unfold bind, logger.
  apply IH. intros d' I. apply H. right. exact I.
Qed.

Lemma scan_dirs_run num_dirs dirs : forall i m w,
  fst (scan_dirs env num_dirs i dirs m w)
  = Ok (scan_all env num_dirs i dirs m).
Proof.
  induction dirs as [|d dirs IH]; intros i m w; simpl; [reflexivity|].
  unfold bind, logger. apply IH.
Qed.

Lemma quiet_scan_dirs num_dirs dirs : forall i m,
  quiet (scan_dirs env num_dirs i dirs m).
Proof.
  induction dirs as [|d dirs IH]; intros i m; simpl; [apply quiet_ret|].
  apply quiet_bind; [apply quiet_logger; auto | intros _].
  apply quiet_bind; [apply quiet_logger; auto | intros _; apply IH].
Qed.

Lemma quiet_assemble items : forall acc, quiet (assemble items acc).
Proof.
  induction items as [|[bp sl] items IH]; intros acc; simpl;
    [apply quiet_ret|].
  destruct (all_some sl);
    (apply quiet_bind; [apply quiet_logger; auto | intros _; apply IH]).
Qed.

(** The loop of lines 112-120: what it returns and what it logs for an
    incomplete pattern. *)
Lemma assemble_run items : forall acc w,
  exists a w',
    assemble items acc w = (Ok a, w')
    /\ file_groups a = file_groups acc ++ complete_of items
    /\ complete_groups a
       = complete_groups acc + List.length (complete_of items)
    /\ complete_groups a + incomplete_groups a
       = complete_groups acc + incomplete_groups acc + List.length items
    /\ (forall entry, In entry (log w) -> In entry (log w'))
    /\ incomplete_groups acc <= incomplete_groups a
    /\ (forall bp sl, In (bp, sl) items -> all_some sl = None ->
          In (DEBUG, MsgMissingDirs bp (missing_from 0 sl)) (log w')
          /\ incomplete_groups acc < incomplete_groups a).
Proof.
  induction items as [|[bp sl] items IH]; intros acc w.
  - exists acc, w. simpl. unfold complete_of. simpl.
    rewrite app_nil_r. repeat split; try lia; auto.
  - simpl. destruct (all_some sl) as [g|] eqn:E; unfold bind, logger; simpl.
    + match goal with |- context [assemble items ?acc1 ?w1] =>
        destruct (IH acc1 w1) as [a [w' [R [Hf [Hc [Ht [Hlog [Hi Hm]]]]]]]]
      end.
      exists a, w'. simpl in *. unfold complete_of in *. simpl. rewrite E.
      simpl. rewrite R, Hf, Hc, <- app_assoc.
      split; [reflexivity|]. split; [reflexivity|]. split; [lia|].
      split; [lia|]. split; [intros entry I; apply Hlog; right; exact I|].
      split; [exact Hi|].
      intros bp' sl' [H|I] A; [inversion H; subst; congruence|].
      apply Hm; assumption.
    + match goal with |- context [assemble items ?acc1 ?w1] =>
        destruct (IH acc1 w1) as [a [w' [R [Hf [Hc [Ht [Hlog [Hi Hm]]]]]]]]
      end.
      exists a, w'. simpl in *. unfold complete_of in *. simpl. rewrite E.
      rewrite R, Hf, Hc.
      split; [reflexivity|]. split; [reflexivity|]. split; [lia|].
      split; [lia|]. split; [intros entry I; apply Hlog; right; exact I|].
      split; [lia|].
      intros bp' sl' [H|I] A.
      * inversion H; subst. split; [apply Hlog; left; reflexivity | lia].
      * destruct (Hm bp' sl' I A). split; [assumption | lia].
Qed.

Variable self : Tag_Result_Merger.

Lemma quiet_discover : quiet (discover_merge_files env self).
Proof.
  unfold discover_merge_files.
  apply quiet_bind; [apply quiet_logger; auto | intros _].
  apply quiet_bind; [apply quiet_check_dirs | intros _].
  apply quiet_bind; [apply quiet_scan_dirs | intros m].
  apply quiet_bind; [apply quiet_logger; auto | intros _].
  apply quiet_bind; [apply quiet_assemble | intros a].
  apply quiet_bind; [apply quiet_logger; auto | intros _].
  apply quiet_bind;
    [destruct (0 <? incomplete_groups a);
       [apply quiet_logger; auto | apply quiet_ret] | intros _].
  apply quiet_bind; [apply quiet_logger; auto | intros _; apply quiet_ret].
Qed.

(** A scan that returns has assembled the dictionary of [scan_all]. *)
Lemma discover_Ok_inv w groups w' :
  discover_merge_files env self w = (Ok groups, w') ->
  let m := scan_all env (List.length (tagged_results_dirs self)) 0
             (tagged_results_dirs self) [] in
  exists a w1 w2,
    assemble m (mkAssembly [] 0 0) w1 = (Ok a, w2)
    /\ groups = complete_of m
    /\ complete_groups a = List.length groups
    /\ complete_groups a + incomplete_groups a = List.length m
    /\ (forall entry, In entry (log w2) -> In entry (log w'))
    /\ (0 < incomplete_groups a ->
        In (INFO, MsgSkipped (incomplete_groups a)) (log w'))
    /\ (forall bp sl, In (bp, sl) m -> all_some sl = None ->
          In (DEBUG, MsgMissingDirs bp (missing_from 0 sl)) (log w2)
          /\ 0 < incomplete_groups a).
Proof.
  intros H m. unfold discover_merge_files in H.
  unfold bind at 1 in H. simpl in H.
  unfold bind at 1 in H.
  match type of H with context [check_dirs env 0 ?ds ?w0] =>
    destruct (check_dirs env 0 ds w0) as [[[]|e] wc] eqn:C
  end; [|discriminate].
  unfold bind at 1 in H.
  match type of H with context [scan_dirs env ?n 0 ?ds [] ?w0] =>
    pose proof (scan_dirs_run n ds 0 [] w0) as S';
    destruct (scan_dirs env n 0 ds [] w0) as [[pm|e] ws] eqn:Sc
  end; simpl in S'; [|discriminate].
  inversion S'; subst pm. fold m in H.
  unfold bind at 1 in H. simpl in H.
  unfold bind at 1 in H.
  match type of H with context [assemble m ?acc ?w0] =>
    destruct (assemble_run m acc w0)
      as [a [w2 [R [Hf [Hc [Ht [Hlog [Hi Hm]]]]]]]];
    exists a, w0, w2
  end.
  rewrite R in H. simpl in Hf, Hc, Ht.
  unfold bind, logger, ret in H.
  destruct (0 <? incomplete_groups a) eqn:Z; simpl in H;
    inversion H; subst; clear H; simpl.
  - split; [exact R|]. split; [exact Hf|].
    split; [rewrite Hc, Hf; reflexivity|]. split; [exact Ht|].
    split; [auto|]. split; [auto|]. exact Hm.
  - split; [exact R|]. split; [exact Hf|].
    split; [rewrite Hc, Hf; reflexivity|]. split; [exact Ht|].
    split; [auto|]. split; [|exact Hm].
    intros P. apply Nat.ltb_lt in P. congruence.
Qed.

(** The scan returns as soon as every configured directory exists. *)
Lemma discover_returns w :
  (forall d, In d (tagged_results_dirs self) -> dir_exists env d = true) ->
  exists groups w', discover_merge_files env self w = (Ok groups, w').
Proof.
  intros H. unfold discover_merge_files.
  unfold bind at 1. simpl. unfold bind at 1.
  match goal with |- context [check_dirs env 0 ?ds ?w0] =>
    pose proof (check_dirs_Ok ds 0 w0 H) as C;
    destruct (check_dirs env 0 ds w0) as [[[]|e] wc]
  end; simpl in C; [|discriminate].
  unfold bind at 1.
  match goal with |- context [scan_dirs env ?n 0 ?ds [] ?w0] =>
    pose proof (scan_dirs_run n ds 0 [] w0) as S';
    destruct (scan_dirs env n 0 ds [] w0) as [[pm|e] ws]
  end; simpl in S'; [|discriminate].
  unfold bind at 1. simpl. unfold bind at 1.
  match goal with |- context [assemble pm ?acc ?w0] =>
    destruct (assemble_run pm acc w0) as [a [w2 [R _]]]
  end.
  rewrite R. unfold bind, logger, ret.
  destruct (0 <? incomplete_groups a); simpl; eauto.
Qed.

End DiscoverFacts.
(* ================================================================== *)
(** ** Properties of the record merger *)

Lemma NoDup_map_Some {A : Type} (l : list A) :
  NoDup l -> NoDup (map Some l).
Proof.
  induction 1 as [|a l Hn ND IH]; simpl; constructor; [|exact IH].
  rewrite in_map_iff. intros [b [E I]]. inversion E; subst. contradiction.
Qed.

Lemma scenario_loads :
  loads Scenario.env Scenario.group [Scenario.contentA; Scenario.contentB]
    world0 Scenario.after_reads.
Proof.
  simpl. eexists. split; [reflexivity|].
  eexists. split; reflexivity.
Qed.

Lemma scenario_wf :
  Forall wf_record (List.concat [Scenario.contentA; Scenario.contentB]).
Proof.
  repeat constructor; simpl; intuition discriminate.
Qed.

Lemma scenario_merge :
  _merge_single_group Scenario.env Scenario.group "id" 0 world0
  = (Ok (Some Scenario.merged), Scenario.after_reads).
Proof. reflexivity. Qed.

(** Three member files that all give the field ["k"] to the identifier
    ["a1"]: the third one decides. *)
Example three_writers :
  merge_records "id" []
    (List.concat
       [[JDict [("id"%string, JStr "a1"); ("k"%string, JInt 1)]];
        [JDict [("id"%string, JStr "a1"); ("k"%string, JInt 2)]];
        [JDict [("id"%string, JStr "a1"); ("k"%string, JInt 3)]]])
  = Ok [(KStr "a1", [("id"%string, JStr "a1"); ("k"%string, JInt 3)])].
Proof. reflexivity. Qed.

(** C5.  When the member files of a group load as lists of records that all
    carry a resolvable identifier, [_merge_single_group] returns; it returns
    no group exactly when the files hold no record, and otherwise the
    identifiers of the merged records are, each once, those of the member
    files taken together, so that no single file has more distinct
    identifiers than the group has merged records. *)
Theorem merged_identifiers_are_the_union
  (env : environment) (fg : list Path) (id_field : string) (idx : nat)
  (contents : list (list json)) (w w' : world) :
  loads env fg contents w w' ->
  (forall l rec, In l contents -> In rec l ->
                 record_key id_field rec <> None) ->
  exists result,
    _merge_single_group env fg id_field idx w = (Ok result, w')
    /\ (result = None <-> List.concat contents = [])
    /\ forall m, result = Some m -> union_of_identifiers id_field contents m.
Proof.
  intros L Hres.
  assert (Hall : forall rec, In rec (List.concat contents) ->
                             record_key id_field rec <> None).
  { intros rec I. apply in_concat in I. destruct I as [l [Il Ir]]. eauto. }
  destruct (merge_records_total id_field (List.concat contents) [] Hall)
    as [by_id M].
  destruct (merge_records_keys id_field _ _ _ M) as [Hk Hn].
  specialize (Hn (NoDup_nil _)).
  pose proof (merge_records_keyed id_field _ _ _ (keyed_nil id_field) M)
    as Hkd.
  eexists. split; [apply (merge_single_group_loads env id_field _ _ idx _ _ _ L M)|].
  split.
  - split.
    + intros E. destruct by_id as [|[x t] d]; [|discriminate].
      destruct (List.concat contents) as [|rec rs] eqn:C; [reflexivity|].
      exfalso. destruct (record_key id_field rec) as [y|] eqn:R.
      * assert (I : In y (@PyDict.keys key record [])).
        { apply Hk. right. exists rec. split; [left; reflexivity | exact R]. }
        destruct I.
      * apply (Hall rec); [left; reflexivity | exact R].
    + intros C. rewrite C in M. simpl in M. inversion M; subst. reflexivity.
  - intros m Em.
    assert (Rm : records m = PyDict.values by_id).
    { destruct by_id; inversion Em; subst; reflexivity. }
    unfold union_of_identifiers. rewrite Rm.
    rewrite (keyed_id_keys id_field by_id Hkd).
    assert (Hin : forall x, In (Some x) (map Some (PyDict.keys by_id)) <->
              exists l rec, In l contents /\ In rec l
                            /\ record_key id_field rec = Some x).
    { intros x. rewrite in_map_iff. split.
      - intros [y [E I]]. inversion E; subst. apply Hk in I.
        destruct I as [[]|[rec [I R]]].
        apply in_concat in I. destruct I as [l [Il Ir]]. eauto.
      - intros [l [rec [Il [Ir R]]]]. exists x. split; [reflexivity|].
        apply Hk. right. exists rec. split; [|exact R].
        apply in_concat. eauto. }
    split; [apply NoDup_map_Some; exact Hn|]. split; [exact Hin|].
    intros l Il. unfold distinct_ids.
    replace (List.length (PyDict.values by_id))
      with (List.length (map Some (PyDict.keys by_id)))
      by (unfold PyDict.values, PyDict.keys; rewrite !length_map; reflexivity).
    apply NoDup_incl_length; [apply NoDup_nodup|].
    intros o Io. apply nodup_In in Io. apply in_map_iff in Io.
    destruct Io as [rec [E Ir]]. subst o.
    destruct (record_key id_field rec) as [x|] eqn:R.
    + apply Hin. eauto.
    + exfalso. apply (Hres l rec Il Ir R).
Qed.

Lemma merged_identifiers_are_the_union_witness :
  exists result,
    _merge_single_group Scenario.env Scenario.group "id" 0 world0
    = (Ok result, Scenario.after_reads)
    /\ (result = None <->
        List.concat [Scenario.contentA; Scenario.contentB] = [])
    /\ forall m, result = Some m ->
         union_of_identifiers "id" [Scenario.contentA; Scenario.contentB] m.
Proof.
  apply (merged_identifiers_are_the_union Scenario.env Scenario.group "id" 0
           [Scenario.contentA; Scenario.contentB] world0 Scenario.after_reads).
  - exact scenario_loads.
  - intros l rec Il Ir.
    simpl in Il. destruct Il as [<-|[<-|[]]]; simpl in Ir;
      repeat (destruct Ir as [<-|Ir]; [vm_compute; discriminate|]);
      destruct Ir.
Defined.

(** C4.  In the group merged from the member files, taken in order, the
    merged record of an identifier [x] is unique; its identifier field holds
    the value first seen for [x], whatever comes later; and a field [k] other
    than the identifier field holds the value of the last member file that
    defines [k] for [x] (so of [Fj] rather than of an earlier [Fi]). *)
Theorem last_writer_wins_and_first_identifier_stays
  (env : environment) (fg : list Path) (id_field : string) (idx : nat)
  (contents : list (list json)) (w w' : world) (m : merged_group) :
  loads env fg contents w w' ->
  Forall wf_record (List.concat contents) ->
  _merge_single_group env fg id_field idx w = (Ok (Some m), w') ->
  forall x rec,
    In rec (List.concat contents) -> record_key id_field rec = Some x ->
    exists t,
      merged_record_for id_field m x t
      /\ keeps_first_identifier id_field contents x t
      /\ last_writer_wins id_field contents x t.
Proof.
  intros L Hwf H x rec Irec Rrec.
  destruct (merge_single_group_Some_inv env id_field _ _ _ _ _ _ _ L H)
    as [by_id [M [Rm _]]].
  destruct (merge_records_keys id_field _ _ _ M) as [Hk Hn].
  specialize (Hn (NoDup_nil _)).
  pose proof (merge_records_keyed id_field _ _ _ (keyed_nil id_field) M)
    as Hkd.
  assert (Ix : In x (PyDict.keys by_id)).
  { apply Hk. right. eauto. }
  apply (get_Some_keys key_eq_dec) in Ix. destruct Ix as [t G].
  exists t. split; [|split].
  - unfold merged_record_for. rewrite Rm.
    pose proof (get_Some_In key_eq_dec _ _ _ G) as It.
    split; [apply (in_map snd) in It; exact It|].
    destruct (Hkd _ _ It) as [v [Gv Kv]].
    split; [unfold id_key, py_get; rewrite Gv; exact Kv|].
    intros t' It' Kt'. apply In_values_inv in It'. destruct It' as [x' It'].
    destruct (Hkd _ _ It') as [v' [Gv' Kv']].
    unfold id_key, py_get in Kt'. rewrite Gv' in Kt'.
    assert (x' = x) by congruence. subst x'.
    apply (In_get_NoDup key_eq_dec _ _ _ Hn) in It'. congruence.
  - intros before r after v C Hb Rr Vr.
    pose proof (merge_records_lookup_id id_field x _ _ _
                  (keyed_nil id_field) M) as Hl.
    unfold lookup2 at 1 in Hl. rewrite G in Hl. simpl in Hl.
    rewrite Hl, C, (first_id_skip id_field x before _ Hb). simpl.
    apply filed_under_true in Rr. rewrite Rr. exact Vr.
  - intros pre Fj post rj k v C Hk' Irj Rrj Frj Hone Hpost.
    pose proof (merge_records_lookup2 id_field x k _ _ _ Hk' Hwf M) as Hl.
    unfold lookup2 at 1 in Hl. rewrite G in Hl. rewrite Hl.
    rewrite C, concat_app. simpl.
    rewrite !last_value_app.
    rewrite (last_value_None id_field x k (List.concat post)).
    + destruct (last_value_defined id_field x k Fj rj v Irj Rrj Frj)
        as [v' E].
      rewrite E. f_equal.
      apply last_value_Some_inv in E. destruct E as [r' [I' [R' F']]].
      eapply Hone; eassumption.
    + intros r' I' R'. apply in_concat in I'. destruct I' as [F [IF Ir']].
      eapply Hpost; eassumption.
Qed.

Lemma last_writer_wins_and_first_identifier_stays_witness :
  exists t,
    merged_record_for "id" Scenario.merged (KStr "a1") t
    /\ keeps_first_identifier "id"
         [Scenario.contentA; Scenario.contentB] (KStr "a1") t
    /\ last_writer_wins "id"
         [Scenario.contentA; Scenario.contentB] (KStr "a1") t.
Proof.
  apply (last_writer_wins_and_first_identifier_stays Scenario.env
           Scenario.group "id" 0 [Scenario.contentA; Scenario.contentB]
           world0 Scenario.after_reads Scenario.merged
           scenario_loads scenario_wf scenario_merge (KStr "a1")
           (JDict [("id"%string, JStr "a1"); ("x"%string, JInt 1)])).
  - simpl. left. reflexivity.
  - reflexivity.
Defined.
(* ================================================================== *)
(** ** Identifier resolution *)

Lemma py_get_usable k r :
  truthy (py_get k r) = true <-> usable k r.
Proof.
  unfold py_get, usable. destruct (PyDict.get string_dec k r) as [v|].
  - split; [eauto | intros [v' [E T]]; congruence].
  - simpl. split; [discriminate | intros [v' [E _]]; discriminate].
Qed.

Lemma resolve_id_cases id_field r :
  resolve_id id_field r
  = if truthy (py_get id_field r) then Ok (py_get id_field r)
    else if truthy (py_get "an" r) then Ok (py_get "an" r)
    else Raise ValueError.
Proof.
  unfold resolve_id. destruct (truthy (py_get id_field r)) eqn:E.
  - rewrite E. reflexivity.
  - reflexivity.
Qed.

(** C3, as the code has it.  The identifier of a record is its value at
    [id_field] whenever that field is present with a value Python takes as
    true; the field ['an'] decides only when [id_field] is absent or holds a
    false value (None, false, 0, an empty string, list or object); and the
    group-aborting [ValueError] is raised if and only if neither field is
    usable in that sense. *)
Theorem identifier_resolution (id_field : string) (r : record) :
  (forall v, PyDict.get string_dec id_field r = Some v -> truthy v = true ->
             resolve_id id_field r = Ok v)
  /\ (forall v, ~ usable id_field r ->
                PyDict.get string_dec "an"%string r = Some v -> truthy v = true ->
                resolve_id id_field r = Ok v)
  /\ (forall v, resolve_id id_field r = Ok v ->
                PyDict.get string_dec id_field r <> Some v ->
                ~ usable id_field r)
  /\ (forall by_id,
        merge_record id_field by_id (JDict r) = Raise ValueError <->
        ~ usable id_field r /\ ~ usable "an" r).
Proof.
  rewrite resolve_id_cases. repeat split.
  - intros v G T. unfold py_get. rewrite G, T. reflexivity.
  - intros v N G T. rewrite <- py_get_usable in N.
    destruct (truthy (py_get id_field r)); [exfalso; auto|].
    unfold py_get at 1 2. rewrite G, T. reflexivity.
  - intros v H N U. apply py_get_usable in U. rewrite U in H.
    inversion H; subst. unfold py_get in N, U.
    destruct (PyDict.get string_dec id_field r); [congruence|].
    simpl in U. discriminate.
  - unfold merge_record in H. rewrite resolve_id_cases in H.
    rewrite <- py_get_usable.
    destruct (truthy (py_get id_field r)); [|discriminate].
    destruct (py_key (py_get id_field r)); [|discriminate].
    destruct (PyDict.mem key_eq_dec k by_id);
      destruct (PyDict.get key_eq_dec k _); discriminate.
  - unfold merge_record in H. rewrite resolve_id_cases in H.
    rewrite <- py_get_usable.
    destruct (truthy (py_get id_field r)).
    + destruct (py_key (py_get id_field r)); [|discriminate].
      destruct (PyDict.mem key_eq_dec k by_id);
        destruct (PyDict.get key_eq_dec k _); discriminate.
    + destruct (truthy (py_get "an" r)); [|discriminate].
      destruct (py_key (py_get "an" r)); [|discriminate].
      destruct (PyDict.mem key_eq_dec k by_id);
        destruct (PyDict.get key_eq_dec k _); discriminate.
  - intros [N1 N2]. rewrite <- py_get_usable in N1, N2.
    unfold merge_record. rewrite resolve_id_cases.
    destruct (truthy (py_get id_field r)); [exfalso; auto|].
    destruct (truthy (py_get "an" r)); [exfalso; auto|]. reflexivity.
Qed.

Lemma identifier_resolution_witness :
  resolve_id "id" [("id"%string, JStr ""); ("an"%string, JStr "x9")]
  = Ok (JStr "x9").
Proof.
  apply (identifier_resolution "id"
           [("id"%string, JStr ""); ("an"%string, JStr "x9")]).
  - intros [v [G T]]. vm_compute in G. inversion G; subst. discriminate.
  - reflexivity.
  - reflexivity.
Defined.

(** C3 as it is stated fails: a record can have the identifier field and
    still take its identifier from ['an'], and a record that has the
    identifier field can still raise the missing-identifier error. *)
Lemma identifier_presence_counterexample :
  ~ (forall id_field r v,
       PyDict.get string_dec id_field r = Some v ->
       resolve_id id_field r = Ok v)
  /\ ~ (forall id_field r by_id,
          merge_record id_field by_id (JDict r) = Raise ValueError <->
          PyDict.get string_dec id_field r = None
          /\ PyDict.get string_dec "an"%string r = None).
Proof.
  split.
  - intros C.
    specialize (C "id"%string
                  [("id"%string, JStr ""); ("an"%string, JStr "x9")]
                  (JStr "") eq_refl).
    vm_compute in C. discriminate.
  - intros C.
    destruct (C "id"%string [("id"%string, JInt 0)] []) as [C1 _].
    destruct (C1 eq_refl) as [C2 _]. vm_compute in C2. discriminate.
Qed.

(* ================================================================== *)
(** ** Loading with retries *)

Lemma merge_group_loop_cons env id_field p rest by_id w r w' :
  _load_json_file env p w = (r, w') ->
  merge_group_loop env id_field (p :: rest) by_id w
  = match r with
    | Ok (Some l) =>
        match merge_records id_field by_id l with
        | Ok by_id' => merge_group_loop env id_field rest by_id' w'
        | Raise e => (Raise e, w')
        end
    | Ok None => (Raise TypeError, w')
    | Raise e => (Raise e, w')
    end.
Proof.
  intros E. simpl. unfold bind at 1. rewrite E.
  destruct r as [[l|]|e]; reflexivity.
Qed.

(** C7.  [_load_json_file] makes at most three attempts on a file and sleeps
    five seconds between two attempts.  When an attempt within the bound
    parses a list, that list is returned and its records are merged into the
    group; when the three attempts fail, [RetryError] is raised to the caller,
    the loop of [_merge_single_group], which raises it in turn. *)
Theorem load_retry_is_bounded (env : environment) (p : Path) (w : world) :
  (forall k l,
     k < stop_after_attempt ->
     (forall j, j < k -> exists e,
        read_outcome env p (count_occ Path_eq_dec (reads w) p + j)
        = ReadFails e) ->
     read_outcome env p (count_occ Path_eq_dec (reads w) p + k)
     = Parsed (JList l) ->
     exists w',
       _load_json_file env p w = (Ok (Some l), w')
       /\ reads w' = repeat p (S k) ++ reads w
       /\ slept w' = wait_fixed * k + slept w
       /\ forall id_field rest by_id,
            merge_group_loop env id_field (p :: rest) by_id w
            = match merge_records id_field by_id l with
              | Ok by_id' => merge_group_loop env id_field rest by_id' w'
              | Raise e => (Raise e, w')
              end)
  /\ ((forall j, j < stop_after_attempt -> exists e,
         read_outcome env p (count_occ Path_eq_dec (reads w) p + j)
         = ReadFails e) ->
      exists w',
        _load_json_file env p w = (Raise RetryError, w')
        /\ reads w' = repeat p stop_after_attempt ++ reads w
        /\ slept w' = wait_fixed * (stop_after_attempt - 1) + slept w
        /\ forall id_field rest by_id,
             merge_group_loop env id_field (p :: rest) by_id w
             = (Raise RetryError, w')).
Proof.
  split.
  - intros k l Hk Hf Hp.
    destruct (retry_loop_succeeds env p (JList l) k (stop_after_attempt - 1) w)
      as [w' [E [R [_ S']]]]; [unfold stop_after_attempt in *; lia | exact Hf
                              | exact Hp |].
    exists w'. repeat split; try assumption.
    intros id_field rest by_id.
    apply (merge_group_loop_cons env id_field p rest by_id w _ w' E).
  - intros Hf.
    destruct (retry_loop_exhausts env p (stop_after_attempt - 1) w)
      as [w' [E [R [_ S']]]].
    { intros j Hj. apply Hf. unfold stop_after_attempt in *. lia. }
    exists w'. repeat split; try assumption.
    intros id_field rest by_id.
    apply (merge_group_loop_cons env id_field p rest by_id w _ w' E).
Qed.

Lemma load_retry_is_bounded_witness :
  exists w',
    _load_json_file Faults.env Faults.flaky world0
    = (Ok (Some Scenario.contentA), w')
    /\ reads w' = repeat Faults.flaky 3 ++ reads world0
    /\ slept w' = wait_fixed * 2 + slept world0
    /\ forall id_field rest by_id,
         merge_group_loop Faults.env id_field (Faults.flaky :: rest) by_id
           world0
         = match merge_records id_field by_id Scenario.contentA with
           | Ok by_id' => merge_group_loop Faults.env id_field rest by_id' w'
           | Raise e => (Raise e, w')
           end.
Proof.
  apply (proj1 (load_retry_is_bounded Faults.env Faults.flaky world0)
           2 Scenario.contentA).
  - unfold stop_after_attempt. lia.
  - intros j Hj. exists OSError.
    destruct j as [|[|j]]; [reflexivity | reflexivity | lia].
  - reflexivity.
Defined.

(* ================================================================== *)
(** ** A file whose top-level value is not a list *)

(** C2, on the code.  For a file that parses to a value that is not a list,
    [_load_json_file] logs the warning and returns [None], not an empty
    list; the loop of [_merge_single_group] then iterates [None], so the
    merge of the whole group raises [TypeError] and the remaining member
    files are not merged. *)
Theorem non_list_file_aborts_group
  (env : environment) (p : Path) (w : world) (data : json) :
  read_outcome env p (count_occ Path_eq_dec (reads w) p) = Parsed data ->
  (forall l, data <> JList l) ->
  exists w',
    _load_json_file env p w = (Ok None, w')
    /\ log w' = (WARNING, MsgNotAList (name p)) :: log w
    /\ forall id_field rest idx,
         _merge_single_group env (p :: rest) id_field idx w
         = (Raise TypeError, w').
Proof.
  intros H N. eexists. split; [|split].
  - unfold _load_json_file, retry. simpl.
    rewrite (load_json_body_not_list env p w data H N). reflexivity.
  - reflexivity.
  - intros id_field rest idx. unfold _merge_single_group, bind.
    erewrite merge_group_loop_cons.
    2:{ unfold _load_json_file, retry. simpl.
        rewrite (load_json_body_not_list env p w data H N). reflexivity. }
    reflexivity.
Qed.

Lemma non_list_file_aborts_group_witness :
  exists w',
    _load_json_file Faults.env Faults.not_a_list world0 = (Ok None, w')
    /\ log w' = (WARNING, MsgNotAList (name Faults.not_a_list)) :: log world0
    /\ forall id_field rest idx,
         _merge_single_group Faults.env (Faults.not_a_list :: rest)
           id_field idx world0
         = (Raise TypeError, w').
Proof.
  apply (non_list_file_aborts_group Faults.env Faults.not_a_list world0
           (JDict [("id"%string, JStr "a1")])).
  - reflexivity.
  - intros l. discriminate.
Defined.
(* ================================================================== *)
(** ** Properties of [merge_files] *)

Section RunTheorems.
Variable env : environment.
Variable str_other : json -> string.
Variable self : Tag_Result_Merger.
Variable id_field : string.

Lemma pw_process_group_not_saving append idx fg :
  preserves_writes
    (process_group env str_other self id_field false append idx fg).
Proof.
  unfold process_group. apply pw_bind; [apply pw_merge_single_group|].
  intros [m|]; [|apply pw_ret]. destruct append; apply pw_ret.
Qed.

Lemma pw_run_groups_not_saving append groups : forall idx,
  preserves_writes
    (run_groups env str_other self id_field false append idx groups).
Proof.
  induction groups as [|fg groups IH]; intros idx; simpl; [apply pw_ret|].
  apply pw_bind; [apply pw_process_group_not_saving|]. intros r.
  apply pw_bind; [apply IH | intros; apply pw_ret].
Qed.

Lemma pw_merge_files_not_saving append groups :
  preserves_writes
    (merge_files env str_other self groups id_field false append).
Proof.
  unfold merge_files. apply pw_bind; [apply pw_logger|]. intros _.
  apply pw_bind; [apply pw_run_groups_not_saving|]. intros rs.
  apply pw_bind; [apply pw_ret|]. intros _. destruct append.
  - apply pw_bind; [apply pw_lift|]. intros n.
    apply pw_bind; [apply pw_logger | intros; apply pw_ret].
  - apply pw_bind; [apply pw_logger | intros; apply pw_ret].
Qed.

Lemma run_groups_not_saving_results append groups : forall idx w rs w',
  run_groups env str_other self id_field false append idx groups w
  = (Ok rs, w') ->
  forall g, In g (filter_some rs) ->
    exists fg i m w0 w1,
      nth_error groups i = Some fg
      /\ _merge_single_group env fg id_field (idx + i) w0 = (Ok (Some m), w1)
      /\ g = if append then MergedResult m else Placeholder (idx + i).
Proof.
  induction groups as [|fg groups IH]; intros idx w rs w' H g Ig;
    simpl in H.
  - inversion H; subst. destruct Ig.
  - unfold bind at 1 in H.
    destruct (process_group _ _ _ _ _ _ idx fg w) as [[r|e] w1] eqn:P;
      [|discriminate].
    unfold bind, ret in H.
    destruct (run_groups _ _ _ _ _ _ (S idx) groups w1) as [[rs'|e] w2] eqn:R;
      [|discriminate].
    inversion H; subst. clear H.
    assert (Hrest : In g (filter_some rs') ->
              exists fg0 i m w0 w3,
                nth_error (fg :: groups) i = Some fg0
                /\ _merge_single_group env fg0 id_field (idx + i) w0
                   = (Ok (Some m), w3)
                /\ g = if append then MergedResult m
                       else Placeholder (idx + i)).
    { intros I. destruct (IH _ _ _ _ R g I) as [fg0 [i [m [w0 [w3 [N [Mg E]]]]]]].
      exists fg0, (S i), m, w0, w3.
      replace (idx + S i) with (S idx + i) by lia. auto. }
    destruct r as [r|]; simpl in Ig; [|auto].
    destruct Ig as [<-|Ig]; [|auto].
    destruct (_merge_single_group env fg id_field idx w) as [[[m|]|e] wa] eqn:Mg.
    + rewrite (process_group_not_saving env str_other self id_field
                 append idx fg w m wa Mg) in P.
      inversion P; subst.
      exists fg, 0, m, w, w1. rewrite Nat.add_0_r. auto.
    + rewrite (process_group_none env str_other self id_field
                 false append idx fg w wa Mg) in P. discriminate.
    + rewrite (process_group_raises env str_other self id_field
                 false append idx fg w e wa Mg) in P. discriminate.
Qed.

Lemma run_groups_saving_writes append groups : forall idx w rs w',
  run_groups env str_other self id_field true append idx groups w
  = (Ok rs, w') ->
  exists written,
    writes w' = rev written ++ writes w
    /\ filter_some rs = map (fun f => SavedPath (fst f)) written
    /\ Forall (saved_from env self str_other groups id_field) written.
Proof.
  induction groups as [|fg groups IH]; intros idx w rs w' H; simpl in H.
  - inversion H; subst. exists []. repeat split. constructor.
  - unfold bind at 1 in H.
    destruct (process_group _ _ _ _ _ _ idx fg w) as [[r|e] w1] eqn:P;
      [|discriminate].
    unfold bind, ret in H.
    destruct (run_groups _ _ _ _ _ _ (S idx) groups w1) as [[rs'|e] w2] eqn:R;
      [|discriminate].
    inversion H; subst. clear H.
    destruct (IH _ _ _ _ R) as [written [Hw [Hr Hs]]].
    assert (Hs' : Forall (saved_from env self str_other (fg :: groups)
                            id_field) written).
    { eapply Forall_impl; [|exact Hs].
      intros f [fg0 [i [m [w0 [w3 [I [Mg E]]]]]]].
      exists fg0, i, m, w0, w3. split; [right; exact I | auto]. }
    pose proof (pw_merge_single_group env fg id_field idx w) as Hpw.
    destruct (_merge_single_group env fg id_field idx w) as [[[m|]|e] wa] eqn:Mg;
      simpl in Hpw.
    + rewrite (process_group_saving env str_other self id_field
                 append idx fg w m wa Mg) in P.
      destruct (write_ok env (output_path self str_other fg m)) eqn:Wo;
        inversion P; subst; clear P.
      * exists ((output_path self str_other fg m, records m) :: written).
        simpl in *. rewrite Hw, Hr, Hpw, <- app_assoc. repeat split.
        constructor; [|exact Hs'].
        exists fg, idx, m, w, wa. split; [left; reflexivity | auto].
      * exists written. simpl in *. rewrite Hw, Hr, Hpw. auto.
    + rewrite (process_group_none env str_other self id_field
                 true append idx fg w wa Mg) in P.
      inversion P; subst. exists written. simpl. rewrite Hw, Hr, Hpw. auto.
    + rewrite (process_group_raises env str_other self id_field
                 true append idx fg w e wa Mg) in P. discriminate.
Qed.

End RunTheorems.

(** C10.  When [save_disaggregrated_files] is false, [merge_files] writes
    no file, whether it returns or raises: the files written are the same
    after the call as before.  What it returns is then, for each group that
    merged to something, the merged group itself in the accumulate mode and
    the placeholder of its index in the index-only mode. *)
Theorem no_write_when_not_saving
  (env : environment) (str_other : json -> string)
  (self : Tag_Result_Merger) (groups : list (list Path))
  (id_field : string) (append_merge_results : bool) (w : world) :
  writes (snd (merge_files env str_other self groups id_field false
                 append_merge_results w)) = writes w
  /\ forall results,
       fst (merge_files env str_other self groups id_field false
              append_merge_results w) = Ok results ->
       Forall (result_in_mode env groups id_field append_merge_results)
         results.
Proof.
  split; [apply pw_merge_files_not_saving|].
  intros results H. rewrite merge_files_unfold in H.
  destruct (run_groups _ _ _ _ _ _ 0 groups _) as [[rs|e] w1] eqn:R;
    [|discriminate].
  assert (results = filter_some rs).
  { unfold bind, ret, lift, logger in H. simpl in H.
    destruct append_merge_results; simpl in H.
    - destruct (sum_records (filter_some rs)); simpl in H; congruence.
    - congruence. }
  subst results. apply Forall_forall. intros g Ig.
  destruct (run_groups_not_saving_results env str_other self id_field
              _ _ _ _ _ _ R g Ig) as [fg [i [m [w0 [w3 [N [Mg E]]]]]]].
  exists fg, i, m, w0, w3. auto.
Qed.

Lemma no_write_when_not_saving_witness :
  Forall (result_in_mode Scenario.env [Scenario.group] "id" true)
    [MergedResult Scenario.merged].
Proof.
  apply (proj2 (no_write_when_not_saving Scenario.env Faults.str_other
                  Scenario.self [Scenario.group] "id" true world0)).
  reflexivity.
Defined.
(** C8, as the code has it.  In the saving mode a group that merges to
    something is written to one file of the output directory, named after
    the tracked file name of its first merged record when that holds a true
    value and after the stem of its first member file otherwise; and a call
    of [merge_files] that returns (with [append_merge_results] false) returns
    the paths of the files it has written, in order, one per group saved. *)
Theorem saving_writes_one_named_file_per_group
  (env : environment) (str_other : json -> string)
  (self : Tag_Result_Merger) (groups : list (list Path))
  (id_field : string) (w : world) :
  (forall fg idx w0 m w1 append,
     _merge_single_group env fg id_field idx w0 = (Ok (Some m), w1) ->
     write_ok env (output_path self str_other fg m) = true ->
     process_group env str_other self id_field true append idx fg w0
     = (Ok (Some (SavedPath (output_path self str_other fg m))),
        mkWorld (reads w1)
          ((output_path self str_other fg m, records m) :: writes w1)
          (slept w1) (log w1)))
  /\ (forall results w',
        merge_files env str_other self groups id_field true false w
        = (Ok results, w') ->
        exists written,
          writes w' = rev written ++ writes w
          /\ results = map (fun f => SavedPath (fst f)) written
          /\ Forall (saved_from env self str_other groups id_field) written).
Proof.
  split.
  - intros fg idx w0 m w1 append Mg Wo.
    rewrite (process_group_saving env str_other self id_field
               append idx fg w0 m w1 Mg), Wo. reflexivity.
  - intros results w' H. rewrite merge_files_unfold in H.
    destruct (run_groups _ _ _ _ _ _ 0 groups _) as [[rs|e] w1] eqn:R;
      [|discriminate].
    destruct (run_groups_saving_writes env str_other self id_field
                _ _ _ _ _ _ R) as [written [Hw [Hr Hs]]].
    unfold bind, ret, logger in H. simpl in H. inversion H; subst.
    exists written. simpl. rewrite Hw. auto.
Qed.

Lemma saving_writes_one_named_file_per_group_witness :
  exists written,
    writes (snd (merge_files Scenario.env Faults.str_other Scenario.self
                   [Scenario.group] "id" true false world0))
    = rev written ++ writes world0
    /\ [SavedPath (mkPath "out" "2020_articles_1_tagX.json")]
       = map (fun f => SavedPath (fst f)) written
    /\ Forall (saved_from Scenario.env Scenario.self Faults.str_other
                 [Scenario.group] "id") written.
Proof.
  apply (proj2 (saving_writes_one_named_file_per_group Scenario.env
                  Faults.str_other Scenario.self [Scenario.group] "id"
                  world0)).
  reflexivity.
Defined.

(** Saving and accumulating together: line 190 takes [group['records']] of
    the returned path strings. *)
Example saving_and_accumulating_raises :
  fst (merge_files Scenario.env Faults.str_other Scenario.self
         [Scenario.group] "id" true true world0)
  = Raise TypeError.
Proof. reflexivity. Qed.

(** C8 as it is stated fails: the first merged record has the attribute
    [ILA_original_filename] (an empty string), and the file is still named
    after the first member file. *)
Lemma saved_name_counterexample :
  exists m w1,
    _merge_single_group Faults.env [Faults.unnamed] "id" 0
      (started [[Faults.unnamed]] "id" world0) = (Ok (Some m), w1)
    /\ PyDict.get string_dec "ILA_original_filename"%string
         (hd [] (records m)) = Some (JStr "")
    /\ fst (merge_files Faults.env Faults.str_other Scenario.self
              [[Faults.unnamed]] "id" true false world0)
       = Ok [SavedPath (mkPath "out" "2025_articles_1_tagX.json")]
    /\ stem Faults.unnamed = "2025_articles_1_tagX"%string
    /\ (py_format Faults.str_other (JStr "") ++ ".json")%string
       <> "2025_articles_1_tagX.json"%string.
Proof.
  eexists. eexists. split; [reflexivity|]. repeat split. discriminate.
Qed.

(** C1, as the code has it.  [merge_files] does not catch what
    [_merge_single_group] raises: when the merge of a group raises (the
    missing-identifier [ValueError], the [RetryError] of an exhausted load, or
    anything else), the call raises the same exception and returns no
    result, whatever the other groups hold.  What is caught, logged and left
    out of the results is a failure to save a merged group: the groups before
    and after it are processed and their results returned. *)
Theorem merge_fault_aborts_the_run
  (env : environment) (str_other : json -> string)
  (self : Tag_Result_Merger) (id_field : string)
  (pre : list (list Path)) (fg : list Path) (post : list (list Path))
  (w : world) :
  (forall save append rs w1 e w2,
     run_groups env str_other self id_field save append 0 pre
       (started (pre ++ fg :: post) id_field w) = (Ok rs, w1) ->
     _merge_single_group env fg id_field (List.length pre) w1
     = (Raise e, w2) ->
     merge_files env str_other self (pre ++ fg :: post) id_field save append w
     = (Raise e, w2))
  /\ (forall rs w1 m w2 rs' w3,
        run_groups env str_other self id_field true false 0 pre
          (started (pre ++ fg :: post) id_field w) = (Ok rs, w1) ->
        _merge_single_group env fg id_field (List.length pre) w1
        = (Ok (Some m), w2) ->
        write_ok env (output_path self str_other fg m) = false ->
        run_groups env str_other self id_field true false
          (S (List.length pre)) post
          (mkWorld (reads w2) (writes w2) (slept w2)
             ((ERROR, MsgSaveError (List.length pre) OSError) :: log w2))
        = (Ok rs', w3) ->
        process_group env str_other self id_field true false
          (List.length pre) fg w1
        = (Ok None,
           mkWorld (reads w2) (writes w2) (slept w2)
             ((ERROR, MsgSaveError (List.length pre) OSError) :: log w2))
        /\ fst (merge_files env str_other self (pre ++ fg :: post) id_field
                  true false w)
           = Ok (filter_some rs ++ filter_some rs')).
Proof.
  split.
  - intros save append rs w1 e w2 R Mg.
    rewrite merge_files_unfold, run_groups_app, R. simpl.
    unfold bind at 1.
    rewrite (process_group_raises env str_other self id_field save append
               _ fg w1 e w2 Mg). reflexivity.
  - intros rs w1 m w2 rs' w3 R Mg Wo R'.
    pose proof (process_group_saving env str_other self id_field false
                  _ fg w1 m w2 Mg) as P.
    rewrite Wo in P. split; [exact P|].
    rewrite merge_files_unfold, run_groups_app, R. simpl.
    unfold bind at 1. rewrite P. unfold bind at 1. rewrite R'.
    unfold bind, ret, logger. simpl.
    rewrite filter_some_app. reflexivity.
Qed.

Lemma merge_fault_aborts_the_run_witness :
  merge_files Faults.env Faults.str_other Scenario.self
    ([Scenario.group] ++ [Faults.anonymous] :: [[Scenario.fileB]])
    "id" true false world0
  = (Raise ValueError,
     mkWorld [Faults.anonymous; Scenario.fileB; Scenario.fileA]
       [(mkPath "out" "2020_articles_1_tagX.json", records Scenario.merged)]
       0 [(INFO, MsgMerging 3 "id")]).
Proof.
  eapply (proj1 (merge_fault_aborts_the_run Faults.env Faults.str_other
                   Scenario.self "id" [Scenario.group] [Faults.anonymous]
                   [[Scenario.fileB]] world0)).
  - reflexivity.
  - reflexivity.
Defined.

(** C1 as it is stated fails: a group whose merge raises the
    missing-identifier error, or exhausts the retries of a load, makes the
    whole call raise; the group next to it, which merges on its own, appears
    in no result. *)
Lemma fault_isolation_counterexample :
  fst (_merge_single_group Faults.env [Faults.anonymous] "id" 0
         (started [[Faults.anonymous]; Scenario.group] "id" world0))
  = Raise ValueError
  /\ fst (merge_files Faults.env Faults.str_other Scenario.self
            [[Faults.anonymous]; Scenario.group] "id" false true world0)
     = Raise ValueError
  /\ fst (_merge_single_group Faults.env [Faults.broken] "id" 0
            (started [[Faults.broken]; Scenario.group] "id" world0))
     = Raise RetryError
  /\ fst (merge_files Faults.env Faults.str_other Scenario.self
            [[Faults.broken]; Scenario.group] "id" false true world0)
     = Raise RetryError
  /\ fst (merge_files Faults.env Faults.str_other Scenario.self
            [Scenario.group] "id" false true world0)
     = Ok [MergedResult Scenario.merged]
  /\ ~ (exists results w',
          merge_files Faults.env Faults.str_other Scenario.self
            [[Faults.anonymous]; Scenario.group] "id" false true world0
          = (Ok results, w')).
Proof.
  repeat split. intros [results [w' H]]. vm_compute in H. discriminate.
Qed.
(* ================================================================== *)
(** ** Properties of [discover_merge_files] *)

Lemma missing_from_In {A : Type} (l : list (option A)) : forall i j,
  nth_error l j = Some None -> In (S (i + j)) (missing_from i l).
Proof.
  induction l as [|[x|] l IH]; intros i [|j] H; simpl in *;
    try discriminate.
  - replace (S (i + S j)) with (S (S i + j)) by lia. apply IH. exact H.
  - left. f_equal. lia.
  - right. replace (S (i + S j)) with (S (S i + j)) by lia. apply IH. exact H.
Qed.

Lemma slot_of_entry n (m : pattern_map) bp sl j :
  well_sized n m -> In (bp, sl) m -> slot m bp j = nth j sl None.
Proof.
  intros [ND _] I. unfold slot.
  rewrite (In_get_NoDup string_dec bp sl m ND I). reflexivity.
Qed.

Lemma slot_Some_entry (m : pattern_map) bp j p :
  slot m bp j = Some p -> exists sl, In (bp, sl) m.
Proof.
  unfold slot. destruct (PyDict.get string_dec bp m) as [sl|] eqn:G;
    [|discriminate].
  intros _. exists sl. apply (get_Some_In string_dec). exact G.
Qed.

Lemma scanned_slot env dirs bp j :
  slot (scan_all env (List.length dirs) 0 dirs []) bp j
  = match nth_error dirs j with
    | Some d =>
        match last_with_pattern bp (glob_json env d) with
        | Some f => Some (path_join d f)
        | None => None
        end
    | None => None
    end.
Proof.
  rewrite (scan_all_slot (List.length dirs) env bp j dirs 0 []
             (well_sized_nil _)) by (simpl; lia).
  rewrite Nat.sub_0_r. simpl.
  destruct (nth_error dirs j); [|reflexivity].
  destruct (last_with_pattern bp (glob_json env s)); reflexivity.
Qed.

(** The members of a complete entry, seen from the directories. *)
Lemma complete_entry_members env dirs bp sl g j p :
  In (bp, sl) (scan_all env (List.length dirs) 0 dirs []) ->
  all_some sl = Some g -> nth_error g j = Some p ->
  exists d f,
    nth_error dirs j = Some d /\ p = path_join d f
    /\ last_with_pattern bp (glob_json env d) = Some f.
Proof.
  intros I A Hp.
  pose proof (scan_all_well_sized (List.length dirs) env dirs 0 []
                (well_sized_nil _)) as W.
  destruct (all_some_nth sl g A) as [Hl Hn].
  specialize (Hn j). rewrite Hp in Hn. simpl in Hn.
  pose proof (slot_of_entry _ _ bp sl j W I) as S'.
  rewrite (nth_error_nth sl j None Hn) in S'.
  rewrite scanned_slot in S'.
  destruct (nth_error dirs j) as [d|]; [|discriminate].
  destruct (last_with_pattern bp (glob_json env d)) as [f|] eqn:L;
    [|discriminate].
  exists d, f. inversion S'; subst. auto.
Qed.

(** C6.  A group returned by [discover_merge_files] has exactly one file
    from each of the configured directories, all of one base pattern; so for
    a pattern that some directory lacks no group is returned at all, and
    when the pattern occurs in another directory the scan logs it as missing
    in that directory and counts it among the skipped patterns. *)
Theorem completeness_gate
  (env : environment) (self : Tag_Result_Merger) (w : world)
  (groups : list (list Path)) (w' : world) :
  discover_merge_files env self w = (Ok groups, w') ->
  (forall g, In g groups ->
     exists bp, group_of_pattern env (tagged_results_dirs self) bp g)
  /\ (forall bp j d,
        nth_error (tagged_results_dirs self) j = Some d -> lacks env bp d ->
        (forall g p, In g groups -> In p g ->
                     base_pattern (name p) <> Some bp)
        /\ (forall j' d' f',
              nth_error (tagged_results_dirs self) j' = Some d' ->
              In f' (glob_json env d') -> base_pattern f' = Some bp ->
              exists missing n,
                In (S j) missing
                /\ In (DEBUG, MsgMissingDirs bp missing) (log w')
                /\ 0 < n /\ In (INFO, MsgSkipped n) (log w'))).
Proof.
  intros H. pose proof (discover_Ok_inv env self w groups w' H) as D.
  cbv zeta in D.
  set (dirs := tagged_results_dirs self) in *.
  set (m := scan_all env (List.length dirs) 0 dirs []) in *.
  destruct D as [a [w1 [w2 [R [Hg [Hc [Ht [Hlog [Hskip Hmiss]]]]]]]]].
  pose proof (scan_all_well_sized (List.length dirs) env dirs 0 []
                (well_sized_nil _)) as W. fold m in W.
  assert (Hgroup : forall g, In g groups ->
            exists bp, group_of_pattern env dirs bp g).
  { intros g Ig. rewrite Hg in Ig. apply In_complete_of in Ig.
    destruct Ig as [bp [sl [I A]]]. exists bp.
    destruct (all_some_nth sl g A) as [Hl _].
    assert (Hlen : List.length g = List.length dirs).
    { rewrite Hl. destruct W as [_ Wl]. eapply Wl; eassumption. }
    split; [exact Hlen|].
    intros j d Hd.
    assert (Hj : j < List.length g).
    { rewrite Hlen. apply nth_error_Some. congruence. }
    destruct (nth_error g j) as [p|] eqn:Hp;
      [|apply nth_error_None in Hp; lia].
    destruct (complete_entry_members env dirs bp sl g j p I A Hp)
      as [d0 [f [Hd0 [-> L]]]].
    assert (d0 = d) by congruence. subst d0.
    apply last_with_pattern_Some in L. exists f. tauto. }
  split; [exact Hgroup|].
  intros bp j d Hd Hlack. split.
  - intros g p Ig Ip P.
    destruct (Hgroup g Ig) as [bp' [_ Hm]].
    apply In_nth_error in Ip. destruct Ip as [j0 Hj0].
    destruct (Hm j d Hd) as [f [_ [If Pf]]].
    assert (Hj0' : j0 < List.length dirs).
    { destruct (Hgroup g Ig) as [bp2 [Hl2 _]]. rewrite <- Hl2.
      apply nth_error_Some. congruence. }
    destruct (nth_error dirs j0) as [d0|] eqn:Hd0;
      [|apply nth_error_None in Hd0; lia].
    destruct (Hm j0 d0 Hd0) as [f0 [Hf0 [_ Pf0]]].
    rewrite Hj0 in Hf0. inversion Hf0; subst p. simpl in P.
    assert (bp' = bp) by congruence. subst bp'.
    apply (Hlack f If Pf).
  - intros j' d' f' Hd' If' Pf'.
    destruct (last_with_pattern_defined bp _ f' If' Pf') as [g' L'].
    pose proof (scanned_slot env dirs bp j') as S1.
    rewrite Hd', L' in S1. fold m in S1.
    destruct (slot_Some_entry m bp j' _ S1) as [sl I].
    pose proof (scanned_slot env dirs bp j) as S2. rewrite Hd in S2.
    fold m in S2.
    assert (L : last_with_pattern bp (glob_json env d) = None).
    { destruct (last_with_pattern bp (glob_json env d)) as [f|] eqn:L;
        [|reflexivity].
      apply last_with_pattern_Some in L. destruct L as [If Pf].
      exfalso. apply (Hlack f If Pf). }
    rewrite L in S2. rewrite (slot_of_entry _ _ bp sl j W I) in S2.
    assert (Hj : j < List.length sl).
    { destruct W as [_ Wl]. rewrite (Wl bp sl I).
      apply nth_error_Some. congruence. }
    assert (Hn : nth_error sl j = Some None).
    { rewrite (nth_error_nth' sl None Hj). congruence. }
    assert (A : all_some sl = None).
    { apply all_some_None_iff. apply nth_error_In in Hn. exact Hn. }
    destruct (Hmiss bp sl I A) as [Hd1 Hpos].
    exists (missing_from 0 sl), (incomplete_groups a).
    split; [apply (missing_from_In sl 0 j Hn)|].
    split; [apply Hlog; exact Hd1|]. split; [exact Hpos | auto].
Qed.

Lemma completeness_gate_witness :
  exists bp,
    group_of_pattern Shelf.env ["A"%string; "B"%string] bp
      [mkPath "A" "2020_articles_1_tagX.json";
       mkPath "B" "2020_articles_1_tagY.json"].
Proof.
  apply (proj1 (completeness_gate Shelf.env Scenario.self world0
                  Shelf.groups
                  (snd (discover_merge_files Shelf.env Scenario.self world0))
                  eq_refl)).
  left. reflexivity.
Defined.

(** C9.  Each slot holds at most one path, and a scan that returns has
    logged nothing above the level [INFO]; the member of a group that comes
    from a directory is the last enumerated file of its pattern there, so a
    file followed in the enumeration by another file of the same pattern is
    replaced by it and is a member of no group. *)
Theorem same_location_collision_overwrites
  (env : environment) (self : Tag_Result_Merger) (w : world)
  (groups : list (list Path)) (w' : world) :
  discover_merge_files env self w = (Ok groups, w') ->
  (exists l, log w' = l ++ log w
             /\ forall lv msg, In (lv, msg) l -> lv = INFO \/ lv = DEBUG)
  /\ slot_holds_last env (tagged_results_dirs self) groups
  /\ overwritten_never_merged env (tagged_results_dirs self) groups.
Proof.
  intros H. pose proof (discover_Ok_inv env self w groups w' H) as D.
  cbv zeta in D.
  set (dirs := tagged_results_dirs self) in *.
  destruct D as [a [w1 [w2 [R [Hg _]]]]].
  assert (Hlast : slot_holds_last env dirs groups).
  { intros g j p Ig Hp. rewrite Hg in Ig. apply In_complete_of in Ig.
    destruct Ig as [bp [sl [I A]]].
    destruct (complete_entry_members env dirs bp sl g j p I A Hp)
      as [d [f [Hd [-> L]]]].
    exists d, bp. auto. }
  split; [|split; [exact Hlast|]].
  - pose proof (quiet_discover env self w) as Q. rewrite H in Q. exact Q.
  - intros j d before f after f2 Hd Hglob If2 Pf2 Nf g Ig Hp.
    destruct (Hlast g j _ Ig Hp) as [d0 [bp [Hd0 [_ L]]]].
    assert (d0 = d) by congruence. subst d0. simpl in L.
    pose proof (last_with_pattern_Some bp _ f L) as [_ Pf].
    rewrite Hglob in L.
    change (before ++ f :: after) with (before ++ [f] ++ after) in L.
    rewrite !last_with_pattern_app in L.
    destruct (last_with_pattern_defined bp after f2 If2) as [g2 L2];
      [congruence|].
    rewrite L2 in L. inversion L; subst g2.
    apply last_with_pattern_Some in L2. tauto.
Qed.

Lemma same_location_collision_overwrites_witness :
  exists d bp,
    nth_error ["A"%string; "B"%string] 0 = Some d
    /\ parent (mkPath "A" "2020_articles_1_tagX.json") = d
    /\ last_with_pattern bp (glob_json Shelf.env d)
       = Some (name (mkPath "A" "2020_articles_1_tagX.json")).
Proof.
  apply (proj1 (proj2 (same_location_collision_overwrites Shelf.env
                         Scenario.self world0 Shelf.groups
                         (snd (discover_merge_files Shelf.env Scenario.self
                                 world0))
                         eq_refl))
           [mkPath "A" "2020_articles_1_tagX.json";
            mkPath "B" "2020_articles_1_tagY.json"] 0).
  - left. reflexivity.
  - reflexivity.
Defined.
(* ================================================================== *)
(** ** Further properties of the record merger *)

Section FurtherMergeFacts.
Variable id_field : string.
Local Abbreviation sget := (PyDict.get string_dec).
Local Abbreviation sset := (PyDict.set string_dec).
Local Abbreviation kget := (PyDict.get key_eq_dec).
Local Abbreviation kset := (PyDict.set key_eq_dec).

Lemma fault_of_None rec :
  fault_of id_field rec = None <-> record_key id_field rec <> None.
Proof.
  unfold fault_of, record_key, resolved_value. destruct rec;
    try (split; [discriminate | intros H; exfalso; apply H; reflexivity]).
  destruct (resolve_id id_field d) as [v|e].
  - destruct (py_key v); split; congruence.
  - split; [discriminate | intros H; exfalso; apply H; reflexivity].
Qed.

Lemma merge_record_fault by_id rec e :
  fault_of id_field rec = Some e ->
  merge_record id_field by_id rec = Raise e.
Proof.
  unfold fault_of, merge_record. destruct rec; try congruence.
  destruct (resolve_id id_field d) as [v|e']; [|congruence].
  destruct (py_key v); congruence.
Qed.

Lemma resolve_id_truthy r v :
  resolve_id id_field r = Ok v -> truthy v = true.
Proof.
  rewrite resolve_id_cases.
  destruct (truthy (py_get id_field r)) eqn:T1.
  - intros H. inversion H; subst. exact T1.
  - destruct (truthy (py_get "an" r)) eqn:T2; [|discriminate].
    intros H. inversion H; subst. exact T2.
Qed.

Lemma add_record_data_cons v rest source :
  _add_record_data ((id_field, v) :: rest) source id_field
  = (id_field, v) :: _add_record_data rest source id_field.
Proof.
  unfold _add_record_data. revert rest.
  induction source as [|[k u] s IH]; intros rest; simpl; [reflexivity|].
  destruct (string_dec k id_field) as [E|E]; [apply IH|].
  destruct (string_dec k id_field); [contradiction|]. apply IH.
Qed.

Lemma add_record_data_keys target source : forall k,
  In k (PyDict.keys (_add_record_data target source id_field)) <->
  In k (PyDict.keys target) \/ (In k (PyDict.keys source) /\ k <> id_field).
Proof.
  unfold _add_record_data. revert target.
  induction source as [|[k0 u] s IH]; intros target k; simpl.
  - tauto.
  - rewrite IH. destruct (string_dec k0 id_field) as [E|E].
    + subst k0. split; [tauto|]. intros [H|[[H|H] N]]; auto. congruence.
    + rewrite In_keys_set. split.
      * intros [[->|H]|[H N]]; auto.
      * intros [H|[[<-|H] N]]; auto.
Qed.

Lemma add_record_data_NoDup target source :
  NoDup (PyDict.keys target) ->
  NoDup (PyDict.keys (_add_record_data target source id_field)).
Proof.
  unfold _add_record_data. revert target.
  induction source as [|[k0 u] s IH]; intros target ND; simpl; [exact ND|].
  apply IH. destruct (string_dec k0 id_field); [exact ND|].
  apply NoDup_keys_set. exact ND.
Qed.

Lemma headed_add x t source :
  headed id_field x t -> headed id_field x (_add_record_data t source id_field).
Proof.
  intros [v [rest [-> [T [K ND]]]]].
  exists v, (_add_record_data rest source id_field).
  rewrite add_record_data_cons. repeat split; auto.
  rewrite <- add_record_data_cons. apply add_record_data_NoDup. exact ND.
Qed.

Lemma merge_record_headed by_id rec by_id' :
  (forall x t, In (x, t) by_id -> headed id_field x t) ->
  merge_record id_field by_id rec = Ok by_id' ->
  forall x t, In (x, t) by_id' -> headed id_field x t.
Proof.
  intros Hh H.
  destruct (merge_record_Ok_inv _ _ _ _ H) as [r [v [x0 [-> [Hr Hk]]]]].
  rewrite (merge_record_filed id_field by_id r v x0 Hr Hk) in H.
  inversion H; subst. clear H.
  assert (Hnew : headed id_field x0 [(id_field, v)]).
  { exists v, []. repeat split; auto.
    - eapply resolve_id_truthy; eassumption.
    - simpl. constructor; [simpl; tauto | constructor]. }
  intros y t I. apply In_set_inv in I. destruct I as [[-> ->]|I].
  - apply headed_add. destruct (kget x0 by_id) as [t0|] eqn:G; [|exact Hnew].
    apply get_Some_In in G. apply (Hh _ _ G).
  - destruct (PyDict.mem key_eq_dec x0 by_id); [apply (Hh _ _ I)|].
    apply In_set_inv in I. destruct I as [[-> ->]|I];
      [exact Hnew | apply (Hh _ _ I)].
Qed.

Lemma merge_records_headed rs : forall by_id by_id',
  (forall x t, In (x, t) by_id -> headed id_field x t) ->
  merge_records id_field by_id rs = Ok by_id' ->
  forall x t, In (x, t) by_id' -> headed id_field x t.
Proof.
  induction rs as [|rec rs IH]; intros by_id by_id' Hh H; simpl in H.
  - inversion H; subst. exact Hh.
  - destruct (merge_record id_field by_id rec) as [by1|e] eqn:E;
      [|discriminate].
    eapply IH; [|exact H]. eapply merge_record_headed; eassumption.
Qed.

(** The first record that cannot be filed decides how the loop ends. *)
Lemma merge_records_first_fault pre : forall by_id rec post e,
  (forall r, In r pre -> record_key id_field r <> None) ->
  fault_of id_field rec = Some e ->
  merge_records id_field by_id (pre ++ rec :: post) = Raise e.
Proof.
  intros by_id rec post e Hpre Hf. rewrite merge_records_app.
  destruct (merge_records_total id_field pre by_id Hpre) as [by1 E].
  rewrite E. simpl. rewrite (merge_record_fault by1 rec e Hf). reflexivity.
Qed.

Lemma merge_records_Raise_inv rs : forall by_id e,
  merge_records id_field by_id rs = Raise e ->
  exists pre rec post,
    rs = pre ++ rec :: post
    /\ (forall r, In r pre -> record_key id_field r <> None)
    /\ fault_of id_field rec = Some e.
Proof.
  induction rs as [|rec rs IH]; intros by_id e H; simpl in H;
    [discriminate|].
  destruct (fault_of id_field rec) as [e'|] eqn:F.
  - rewrite (merge_record_fault by_id rec e' F) in H. inversion H; subst.
    exists [], rec, rs. repeat split; auto.
  - pose proof (proj1 (fault_of_None rec) F) as K.
    destruct (record_key id_field rec) as [x|] eqn:R; [|congruence].
    destruct (merge_record_total id_field by_id rec x R) as [by1 E].
    rewrite E in H. destruct (IH _ _ H) as [pre [r0 [post [-> [Hp Hf]]]]].
    exists (rec :: pre), r0, post. repeat split; auto.
    intros r [<-|I]; [congruence | auto].
Qed.

(** The keys of the dictionary: those it had, then the new ones in the
    order of their first record. *)
Lemma merge_record_key_order by_id rec by_id' x :
  merge_record id_field by_id rec = Ok by_id' ->
  record_key id_field rec = Some x ->
  PyDict.keys by_id'
  = if in_dec key_eq_dec x (PyDict.keys by_id) then PyDict.keys by_id
    else PyDict.keys by_id ++ [x].
Proof.
  intros H R. apply record_key_Some in R.
  destruct R as [r [v [-> [Hr Hk]]]].
  rewrite (merge_record_filed id_field by_id r v x Hr Hk) in H.
  inversion H; subst. clear H.
  destruct (in_dec key_eq_dec x (PyDict.keys by_id)) as [I|I].
  - pose proof (proj2 (mem_true_keys key_eq_dec x by_id) I) as Em.
    rewrite Em. apply keys_set_present. exact I.
  - destruct (PyDict.mem key_eq_dec x by_id) eqn:Em.
    + apply mem_true_keys in Em. contradiction.
    + rewrite keys_set_present.
      * apply keys_set_absent. exact I.
      * apply In_keys_set. left. reflexivity.
Qed.

Lemma merge_records_key_order rs : forall by_id by_id',
  merge_records id_field by_id rs = Ok by_id' ->
  PyDict.keys by_id'
  = add_new (PyDict.keys by_id) (keys_of_records id_field rs).
Proof.
  induction rs as [|rec rs IH]; intros by_id by_id' H; simpl in H.
  - inversion H; subst. reflexivity.
  - destruct (merge_record id_field by_id rec) as [by1|e] eqn:E;
      [|discriminate].
    destruct (merge_record_keys id_field _ _ _ E) as [x [R _]].
    simpl. rewrite R. simpl.
    rewrite <- (merge_record_key_order _ _ _ _ E R). apply IH. exact H.
Qed.

End FurtherMergeFacts.
Section FurtherGroupFacts.
Variable env : environment.
Variable id_field : string.
Local Abbreviation kget := (PyDict.get key_eq_dec).

(** The result of the loop over the files, when the files load. *)
Lemma merge_group_loop_fst : forall fg contents by_id w w',
  loads env fg contents w w' ->
  fst (merge_group_loop env id_field fg by_id w)
  = merge_records id_field by_id (List.concat contents).
Proof.
  induction fg as [|p fg IH]; intros [|l ls] by_id w w' L;
    simpl in L; try contradiction.
  - reflexivity.
  - destruct L as [w1 [E L]].
    rewrite (merge_group_loop_cons env id_field p fg by_id w _ w1 E).
    simpl List.concat. rewrite merge_records_app.
    destruct (merge_records id_field by_id l) as [by1|e]; [|reflexivity].
    eapply IH. exact L.
Qed.

Lemma merge_single_group_fst fg contents idx w w' :
  loads env fg contents w w' ->
  fst (_merge_single_group env fg id_field idx w)
  = match merge_records id_field [] (List.concat contents) with
    | Ok [] => Ok None
    | Ok by_id =>
        Ok (Some (mkMerged idx (map name fg) (PyDict.values by_id)))
    | Raise e => Raise e
    end.
Proof.
  intros L. pose proof (merge_group_loop_fst fg contents [] w w' L) as H.
  unfold _merge_single_group, bind.
  destruct (merge_group_loop env id_field fg [] w) as [[by_id|e] w1];
    simpl in H; rewrite <- H; [|reflexivity].
  destruct by_id; reflexivity.
Qed.

Lemma merge_single_group_Some_records fg idx w w' m :
  _merge_single_group env fg id_field idx w = (Ok (Some m), w') ->
  exists contents by_id,
    loads env fg contents w w'
    /\ merge_records id_field [] (List.concat contents) = Ok by_id
    /\ by_id <> []
    /\ m = mkMerged idx (map name fg) (PyDict.values by_id).
Proof.
  intros H. unfold _merge_single_group, bind in H.
  destruct (merge_group_loop env id_field fg [] w) as [[by_id|e] w1] eqn:E;
    [|discriminate].
  destruct (merge_group_loop_Ok_inv _ _ _ _ _ _ _ E) as [c [L M]].
  exists c, by_id. destruct by_id as [|b by_id]; inversion H; subst.
  repeat split; auto. discriminate.
Qed.

End FurtherGroupFacts.

Lemma add_new_prefix ks : forall acc, exists l, add_new acc ks = acc ++ l.
Proof.
  induction ks as [|k ks IH]; intros acc; simpl.
  - exists []. rewrite app_nil_r. reflexivity.
  - destruct (in_dec key_eq_dec k acc); [apply IH|].
    destruct (IH (acc ++ [k])) as [l E]. exists (k :: l).
    rewrite E, <- app_assoc. reflexivity.
Qed.

Lemma merged_record_lookup id_field (by_id : records_by_id) x t :
  keyed id_field by_id -> NoDup (PyDict.keys by_id) ->
  In t (PyDict.values by_id) -> id_key id_field t = Some x ->
  PyDict.get key_eq_dec x by_id = Some t.
Proof.
  intros Hkd ND It Kt. apply In_values_inv in It. destruct It as [x' It].
  destruct (Hkd _ _ It) as [v [Gv Kv]].
  unfold id_key, py_get in Kt. rewrite Gv in Kt.
  assert (x' = x) by congruence. subst x'.
  apply (In_get_NoDup key_eq_dec _ _ _ ND It).
Qed.

(** X1.  When the member files of a group load, the first record that
    cannot be filed decides the outcome of [_merge_single_group]: the merge
    raises the exception of that record ([AttributeError] for a value that is
    not a dict, [ValueError] for a dict without identifier, [TypeError] for an
    identifier that cannot be hashed), whatever the records before and after
    it hold; and the merge returns exactly when every record can be filed. *)
Theorem first_unfiled_record_aborts_the_group
  (env : environment) (fg : list Path) (id_field : string) (idx : nat)
  (contents : list (list json)) (w w' : world) :
  loads env fg contents w w' ->
  (forall pre rec post e,
     List.concat contents = pre ++ rec :: post ->
     (forall r, In r pre -> fault_of id_field r = None) ->
     fault_of id_field rec = Some e ->
     fst (_merge_single_group env fg id_field idx w) = Raise e)
  /\ ((exists result,
         fst (_merge_single_group env fg id_field idx w) = Ok result) <->
      forall rec, In rec (List.concat contents) ->
                  fault_of id_field rec = None).
Proof.
  intros L. rewrite (merge_single_group_fst env id_field fg contents idx w w' L).
  split.
  - intros pre rec post e C Hpre Hf. rewrite C.
    rewrite (merge_records_first_fault id_field pre [] rec post e);
      [reflexivity | | exact Hf].
    intros r I. apply fault_of_None. auto.
  - split.
    + intros [result H] rec I.
      destruct (merge_records id_field [] (List.concat contents))
        as [by_id|e] eqn:M; [|discriminate].
      apply fault_of_None.
      eapply merge_records_Ok_inv; eassumption.
    + intros H.
      destruct (merge_records_total id_field (List.concat contents) [])
        as [by_id M].
      { intros rec I. apply fault_of_None. auto. }
      rewrite M. destruct by_id; eauto.
Qed.

Lemma first_unfiled_record_aborts_the_group_witness :
  fst (_merge_single_group Faults.env [Scenario.fileA; Faults.anonymous]
         "id" 0 world0)
  = Raise ValueError.
Proof.
  apply (proj1 (first_unfiled_record_aborts_the_group Faults.env
                  [Scenario.fileA; Faults.anonymous] "id" 0
                  [Scenario.contentA; Faults.content_anonymous] world0
                  (mkWorld [Faults.anonymous; Scenario.fileA] [] 0 [])
                  ltac:(simpl; eexists; split; [reflexivity|];
                        eexists; split; reflexivity))
           Scenario.contentA (JDict [("x"%string, JInt 5)]) []).
  - reflexivity.
  - intros r [<-|[]]. reflexivity.
  - reflexivity.
Defined.

(** X2.  A group that [_merge_single_group] returns has at least one
    record, and every merged record starts with the identifier field, holds
    there a value that Python takes as true and can hash, and has no key
    twice: also when the sources gave the identifier under ['an'] only. *)
Theorem merged_records_start_with_identifier
  (env : environment) (fg : list Path) (id_field : string) (idx : nat)
  (w w' : world) (m : merged_group) :
  _merge_single_group env fg id_field idx w = (Ok (Some m), w') ->
  records m <> []
  /\ forall t, In t (records m) -> exists x, headed id_field x t.
Proof.
  intros H.
  destruct (merge_single_group_Some_records env id_field fg idx w w' m H)
    as [contents [by_id [L [M [Ne ->]]]]].
  simpl. split.
  - destruct by_id; [congruence | discriminate].
  - intros t It. apply In_values_inv in It. destruct It as [x It].
    exists x.
    apply (merge_records_headed id_field _ [] by_id
             ltac:(intros ? ? []) M x t It).
Qed.

Lemma merged_records_start_with_identifier_witness :
  records Scenario.merged <> []
  /\ forall t, In t (records Scenario.merged) -> exists x, headed "id" x t.
Proof.
  apply (merged_records_start_with_identifier Scenario.env Scenario.group
           "id" 0 world0 Scenario.after_reads Scenario.merged).
  reflexivity.
Defined.
Section FieldFacts.
Variable id_field : string.
Local Abbreviation kget := (PyDict.get key_eq_dec).

Lemma merge_record_get_grows by_id rec by_id' x t :
  merge_record id_field by_id rec = Ok by_id' ->
  kget x by_id = Some t -> exists t', kget x by_id' = Some t'.
Proof.
  intros H G. destruct (merge_record_keys id_field _ _ _ H) as [y [_ [Hk _]]].
  apply (get_Some_keys key_eq_dec). apply Hk. right.
  apply (get_Some_keys key_eq_dec). eauto.
Qed.

(** One step of the loop, seen from the field names of a merged record. *)
Lemma merge_record_fields by_id rec by_id' x t' k :
  merge_record id_field by_id rec = Ok by_id' ->
  kget x by_id' = Some t' ->
  (In k (PyDict.keys t') <->
   match kget x by_id with
   | Some t => In k (PyDict.keys t)
   | None => k = id_field
   end
   \/ (record_key id_field rec = Some x /\ has_field k rec /\ k <> id_field)).
Proof.
  intros H G.
  destruct (record_key id_field rec) as [y|] eqn:R.
  2:{ destruct (merge_record_keys id_field _ _ _ H) as [y [R' _]].
      congruence. }
  destruct (key_eq_dec y x) as [->|Ne].
  - pose proof R as R0. apply record_key_Some in R.
    destruct R as [r [v [-> [Hr Hk]]]].
    rewrite (merge_record_lookup_same id_field _ _ _ _ _ Hr Hk H) in G.
    inversion G; subst t'. rewrite add_record_data_keys. simpl.
    destruct (kget x by_id) as [t|]; simpl; intuition congruence.
  - rewrite (merge_record_lookup_other id_field _ _ _ x H) in G
      by congruence.
    rewrite G. split; [auto|]. intros [I|[C _]]; [exact I | congruence].
Qed.

Lemma merge_records_fields rs : forall by_id by_id' x t' k,
  merge_records id_field by_id rs = Ok by_id' ->
  kget x by_id' = Some t' ->
  (In k (PyDict.keys t') <->
   match kget x by_id with
   | Some t => In k (PyDict.keys t)
   | None => k = id_field
   end
   \/ exists rec, In rec rs /\ record_key id_field rec = Some x
                  /\ has_field k rec /\ k <> id_field).
Proof.
  induction rs as [|rec rs IH]; intros by_id by_id' x t' k H G; simpl in H.
  - inversion H; subst. rewrite G. split; [auto|].
    intros [I|[rec [[] _]]]. exact I.
  - destruct (merge_record id_field by_id rec) as [by1|e] eqn:E;
      [|discriminate].
    rewrite (IH _ _ x t' k H G).
    destruct (kget x by1) as [t1|] eqn:G1.
    + rewrite (merge_record_fields _ _ _ x t1 k E G1). split.
      * intros [[I|[R [F N]]]|[r [I [R [F N]]]]]; auto.
        -- right. exists rec. simpl. auto.
        -- right. exists r. simpl. auto.
      * intros [I|[r [[<-|I] [R [F N]]]]]; auto.
        right. exists r. auto.
    + assert (G0 : kget x by_id = None).
      { destruct (kget x by_id) as [t0|] eqn:G0; [|reflexivity].
        destruct (merge_record_get_grows _ _ _ _ _ E G0) as [t1 C].
        congruence. }
      rewrite G0. split.
      * intros [I|[r [I [R [F N]]]]]; auto. right. exists r. simpl. auto.
      * intros [I|[r [[<-|I] [R [F N]]]]]; auto.
        -- exfalso.
           destruct (merge_record_keys id_field _ _ _ E) as [y [R' [Hk _]]].
           assert (y = x) by congruence. subst y.
           assert (I : In x (PyDict.keys by1)) by (apply Hk; auto).
           apply (get_Some_keys key_eq_dec) in I. destruct I as [t1 C].
           congruence.
        -- right. exists r. auto.
Qed.

End FieldFacts.

(** X3.  The merged record of an identifier has the identifier field and,
    besides it, exactly the fields that some source record filed under that
    identifier has: no field is lost and none is invented. *)
Theorem merged_fields_are_the_union
  (env : environment) (fg : list Path) (id_field : string) (idx : nat)
  (contents : list (list json)) (w w' : world) (m : merged_group) :
  loads env fg contents w w' ->
  _merge_single_group env fg id_field idx w = (Ok (Some m), w') ->
  forall x t, merged_record_for id_field m x t ->
    forall k,
      In k (PyDict.keys t) <->
      k = id_field
      \/ exists rec, In rec (List.concat contents)
                     /\ record_key id_field rec = Some x
                     /\ has_field k rec.
Proof.
  intros L H x t [It [Kt _]] k.
  destruct (merge_single_group_Some_inv env id_field _ _ _ _ _ _ _ L H)
    as [by_id [M [Rm _]]].
  destruct (merge_records_keys id_field _ _ _ M) as [_ Hn].
  specialize (Hn (NoDup_nil _)).
  pose proof (merge_records_keyed id_field _ _ _ (keyed_nil id_field) M)
    as Hkd.
  rewrite Rm in It.
  pose proof (merged_record_lookup id_field by_id x t Hkd Hn It Kt) as G.
  rewrite (merge_records_fields id_field _ _ _ x t k M G). simpl.
  split.
  - intros [E|[rec [I [R [F N]]]]]; [left; exact E|].
    right. exists rec. auto.
  - intros [E|[rec [I [R F]]]]; [left; exact E|].
    destruct (string_dec k id_field) as [E|N]; [left; exact E|].
    right. exists rec. auto.
Qed.

Lemma merged_fields_are_the_union_witness :
  In "x"%string
     (PyDict.keys [("id"%string, JStr "a2"); ("y"%string, JInt 3)]) <->
  "x"%string = "id"%string
  \/ exists rec,
       In rec (List.concat [Scenario.contentA; Scenario.contentB])
       /\ record_key "id" rec = Some (KStr "a2")
       /\ has_field "x" rec.
Proof.
  apply (merged_fields_are_the_union Scenario.env Scenario.group "id" 0
           [Scenario.contentA; Scenario.contentB] world0
           Scenario.after_reads Scenario.merged scenario_loads
           scenario_merge (KStr "a2")).
  split; [simpl; right; left; reflexivity|]. split; [reflexivity|].
  intros t' [<-|[<-|[]]] K; [vm_compute in K; discriminate | reflexivity].
Defined.

(** X4.  The merged records are listed in the order in which their
    identifiers first appear, reading the member files in order and each
    file from its first record on; in particular the first merged record is
    the one of the very first record read. *)
Theorem merged_records_follow_first_appearance
  (env : environment) (fg : list Path) (id_field : string) (idx : nat)
  (contents : list (list json)) (w w' : world) (m : merged_group) :
  loads env fg contents w w' ->
  _merge_single_group env fg id_field idx w = (Ok (Some m), w') ->
  map (id_key id_field) (records m)
  = map Some (add_new [] (keys_of_records id_field (List.concat contents)))
  /\ forall rec rest,
       List.concat contents = rec :: rest ->
       exists t ts, records m = t :: ts
                    /\ id_key id_field t = record_key id_field rec.
Proof.
  intros L H.
  destruct (merge_single_group_Some_inv env id_field _ _ _ _ _ _ _ L H)
    as [by_id [M [Rm _]]].
  pose proof (merge_records_keyed id_field _ _ _ (keyed_nil id_field) M)
    as Hkd.
  pose proof (merge_records_key_order id_field _ _ _ M) as Ho.
  simpl in Ho.
  assert (E : map (id_key id_field) (records m)
              = map Some (add_new [] (keys_of_records id_field
                                        (List.concat contents)))).
  { rewrite Rm, (keyed_id_keys id_field by_id Hkd), Ho. reflexivity. }
  split; [exact E|].
  intros rec rest C. rewrite C in E, M. simpl in E, M.
  destruct (merge_record id_field [] rec) as [by1|e] eqn:E1; [|discriminate].
  destruct (merge_record_keys id_field _ _ _ E1) as [x [R _]].
  rewrite R in E. simpl in E.
  destruct (add_new_prefix (keys_of_records id_field rest) [x]) as [l El].
  rewrite El in E. simpl in E.
  destruct (records m) as [|t ts]; [discriminate|].
  simpl in E. inversion E. exists t, ts. rewrite R. auto.
Qed.

Lemma merged_records_follow_first_appearance_witness :
  map (id_key "id") (records Scenario.merged)
  = map Some
      (add_new []
         (keys_of_records "id"
            (List.concat [Scenario.contentA; Scenario.contentB])))
  /\ forall rec rest,
       List.concat [Scenario.contentA; Scenario.contentB] = rec :: rest ->
       exists t ts, records Scenario.merged = t :: ts
                    /\ id_key "id" t = record_key "id" rec.
Proof.
  apply (merged_records_follow_first_appearance Scenario.env Scenario.group
           "id" 0 [Scenario.contentA; Scenario.contentB] world0
           Scenario.after_reads Scenario.merged scenario_loads
           scenario_merge).
Defined.
(* ================================================================== *)
(** ** Merging the same records again *)

Lemma dict_ext {K V : Type} (eq_dec : forall a b : K, {a = b} + {a <> b}) :
  forall d1 d2 : list (K * V),
  PyDict.keys d1 = PyDict.keys d2 -> NoDup (PyDict.keys d1) ->
  (forall k, PyDict.get eq_dec k d1 = PyDict.get eq_dec k d2) ->
  d1 = d2.
Proof.
  induction d1 as [|[k v1] d1 IH]; intros [|[k2 v2] d2] Hk ND Hg;
    simpl in Hk; try discriminate; [reflexivity|].
  inversion Hk; subst k2. inversion ND as [|? ? Hn ND']; subst.
  pose proof (Hg k) as Hgk. simpl in Hgk.
  destruct (eq_dec k k); [|congruence]. inversion Hgk; subst v2.
  f_equal. apply IH; auto.
  intros k'. destruct (eq_dec k' k) as [->|Ne].
  - transitivity (@None V); [|symmetry].
    + apply get_None_keys. exact Hn.
    + apply get_None_keys. rewrite <- H1. exact Hn.
  - specialize (Hg k'). simpl in Hg.
    destruct (eq_dec k' k); [contradiction | exact Hg].
Qed.

Lemma add_new_absorb ks : forall acc,
  (forall k, In k ks -> In k acc) -> add_new acc ks = acc.
Proof.
  induction ks as [|k ks IH]; intros acc H; simpl; [reflexivity|].
  destruct (in_dec key_eq_dec k acc) as [I|N].
  - apply IH. intros k' I'. apply H. right. exact I'.
  - exfalso. apply N. apply H. left. reflexivity.
Qed.

Lemma In_keys_of_records id_field rs x :
  In x (keys_of_records id_field rs) <->
  exists rec, In rec rs /\ record_key id_field rec = Some x.
Proof.
  induction rs as [|rec rs IH]; simpl.
  - split; [tauto | intros [rec [[] _]]].
  - destruct (record_key id_field rec) as [y|] eqn:R; simpl; rewrite IH.
    + split.
      * intros [->|[r [I Rr]]]; [exists rec; auto | exists r; auto].
      * intros [r [[<-|I] Rr]]; [left; congruence | right; eauto].
    + split.
      * intros [r [I Rr]]. exists r. auto.
      * intros [r [[<-|I] Rr]]; [congruence | eauto].
Qed.

Section AgainFacts.
Variable id_field : string.
Local Abbreviation sget := (PyDict.get string_dec).
Local Abbreviation kget := (PyDict.get key_eq_dec).

Lemma add_record_data_keys_same source : forall target,
  (forall k, In k (PyDict.keys source) -> k <> id_field ->
             In k (PyDict.keys target)) ->
  PyDict.keys (_add_record_data target source id_field) = PyDict.keys target.
Proof.
  unfold _add_record_data.
  induction source as [|[k0 u] s IH]; intros target H; simpl;
    [reflexivity|].
  destruct (string_dec k0 id_field) as [E|E].
  - apply IH. intros k I N. apply H; [right; exact I | exact N].
  - rewrite IH.
    + apply keys_set_present. apply H; [left; reflexivity | exact E].
    + intros k I N. apply In_keys_set. right.
      apply H; [right; exact I | exact N].
Qed.

Lemma first_id_None x rs :
  (forall rec, In rec rs -> record_key id_field rec <> Some x) ->
  first_id id_field x rs = None.
Proof.
  induction rs as [|rec rs IH]; intros H; simpl; [reflexivity|].
  destruct (filed_under id_field x rec) eqn:F.
  - apply filed_under_true in F. exfalso.
    apply (H rec (or_introl eq_refl) F).
  - apply IH. intros r I. apply H. right. exact I.
Qed.

(** The second pass keeps the field names of every merged record. *)
Lemma merge_records_same_fields (done : records_by_id) rs :
  forall cur cur' : records_by_id,
  (forall rec x k, In rec rs -> record_key id_field rec = Some x ->
     has_field k rec -> k <> id_field ->
     exists t : record, kget x done = Some t /\ In k (PyDict.keys t)) ->
  (forall x (t : record), kget x done = Some t ->
     exists tc : record,
       kget x cur = Some tc /\ PyDict.keys tc = PyDict.keys t) ->
  (forall rec x, In rec rs -> record_key id_field rec = Some x ->
     exists t, kget x done = Some t) ->
  merge_records id_field cur rs = Ok cur' ->
  forall x (t : record), kget x done = Some t ->
    exists tc : record,
      kget x cur' = Some tc /\ PyDict.keys tc = PyDict.keys t.
Proof.
  induction rs as [|rec rs IH]; intros cur cur' Hf Hq Hx H; simpl in H.
  - inversion H; subst. exact Hq.
  - destruct (merge_record id_field cur rec) as [cur1|e] eqn:E;
      [|discriminate].
    apply (IH cur1 cur'); [| | |exact H].
    + intros r x k I. apply Hf. right. exact I.
    + intros x t G.
      destruct (merge_record_Ok_inv _ _ _ _ E) as [r [v [x0 [-> [Hr Hk]]]]].
      assert (R0 : record_key id_field (JDict r) = Some x0).
      { apply record_key_Some. exists r, v. auto. }
      destruct (key_eq_dec x x0) as [->|Ne].
      * destruct (Hq x0 t G) as [tc [Gc Kc]].
        rewrite (merge_record_lookup_same id_field _ _ _ _ _ Hr Hk E), Gc.
        eexists. split; [reflexivity|].
        rewrite add_record_data_keys_same; [exact Kc|].
        intros k I N. rewrite Kc.
        destruct (Hf (JDict r) x0 k (or_introl eq_refl) R0 I N)
          as [t0 [G0 I0]].
        congruence.
      * rewrite (merge_record_lookup_other id_field _ _ _ x E)
          by congruence.
        apply Hq. exact G.
    + intros r x I. apply Hx. right. exact I.
Qed.

End AgainFacts.

(** X5.  Merging is idempotent on its sources: when the records of the
    member files are merged and then merged once more into the result (the
    same files listed a second time, say), the merged records are the same
    list, with the same fields in the same order and the same values. *)
Theorem merging_again_changes_nothing
  (id_field : string) (rs : list json) (by_id : records_by_id) :
  Forall wf_record rs ->
  merge_records id_field [] rs = Ok by_id ->
  merge_records id_field by_id rs = Ok by_id
  /\ merge_records id_field [] (rs ++ rs) = Ok by_id.
Proof.
  intros Hwf M.
  assert (Again : merge_records id_field by_id rs = Ok by_id).
  { destruct (merge_records_keys id_field _ _ _ M) as [Hk Hn].
    specialize (Hn (NoDup_nil _)).
    pose proof (merge_records_keyed id_field _ _ _ (keyed_nil id_field) M)
      as Hkd.
    pose proof (merge_records_headed id_field _ [] by_id
                  ltac:(intros ? ? []) M) as Hh.
    destruct (merge_records_total id_field rs by_id
                (merge_records_Ok_inv id_field _ _ _ M)) as [by2 M2].
    rewrite M2. f_equal.
    destruct (merge_records_keys id_field _ _ _ M2) as [Hk2 Hn2].
    pose proof (merge_records_keyed id_field _ _ _ Hkd M2) as Hkd2.
    assert (Keys : PyDict.keys by2 = PyDict.keys by_id).
    { rewrite (merge_records_key_order id_field _ _ _ M2).
      apply add_new_absorb. intros k I. apply In_keys_of_records in I.
      apply Hk. right. exact I. }
    assert (Same : forall x (t : record),
              PyDict.get key_eq_dec x by_id = Some t ->
              exists tc : record,
                PyDict.get key_eq_dec x by2 = Some tc
                /\ PyDict.keys tc = PyDict.keys t).
    { apply (merge_records_same_fields id_field by_id rs by_id by2); auto.
      - intros rec x k I R F N.
        assert (Ix : In x (PyDict.keys by_id)) by (apply Hk; eauto).
        apply (get_Some_keys key_eq_dec) in Ix. destruct Ix as [t G].
        exists t. split; [exact G|].
        apply (merge_records_fields id_field _ _ _ x t k M G).
        right. exists rec. auto.
      - intros x t G. eauto.
      - intros rec x I R.
        apply (get_Some_keys key_eq_dec). apply Hk. eauto. }
    apply (dict_ext key_eq_dec); [exact Keys | rewrite Keys; exact Hn |].
    intros x. destruct (PyDict.get key_eq_dec x by_id) as [t|] eqn:G.
    - destruct (Same x t G) as [tc [Gc Kc]]. rewrite Gc. f_equal.
      apply get_Some_In in G.
      destruct (Hh x t G) as [v [rest [Et [_ [_ NDt]]]]].
      apply (dict_ext string_dec); [exact Kc | rewrite Kc; exact NDt |].
      intros k. destruct (string_dec k id_field) as [->|Nk].
      + pose proof (merge_records_lookup_id id_field x _ _ _ Hkd M2) as Hl.
        unfold lookup2 in Hl. rewrite Gc in Hl.
        rewrite (In_get_NoDup key_eq_dec _ _ _ Hn G) in Hl.
        rewrite Hl. destruct (Hkd x t G) as [v0 [G0 _]]. rewrite G0.
        reflexivity.
      + pose proof (merge_records_lookup2 id_field x k _ _ _ Nk Hwf M2)
          as H2.
        pose proof (merge_records_lookup2 id_field x k _ _ _ Nk Hwf M)
          as H1.
        unfold lookup2 in H1, H2. rewrite Gc in H2.
        rewrite (In_get_NoDup key_eq_dec _ _ _ Hn G) in H1, H2.
        simpl in H1. rewrite H2, H1.
        destruct (last_value id_field x k rs); reflexivity.
    - apply (get_None_keys key_eq_dec). rewrite Keys.
      apply (proj1 (get_None_keys key_eq_dec x by_id)). exact G. }
  split; [exact Again|].
  rewrite merge_records_app, M. exact Again.
Qed.

Lemma merging_again_changes_nothing_witness :
  merge_records "id"
    [(KStr "a1", [("id"%string, JStr "a1"); ("x"%string, JInt 1);
                  ("y"%string, JInt 2)]);
     (KStr "a2", [("id"%string, JStr "a2"); ("y"%string, JInt 3)])]
    (List.concat [Scenario.contentA; Scenario.contentB])
  = Ok [(KStr "a1", [("id"%string, JStr "a1"); ("x"%string, JInt 1);
                     ("y"%string, JInt 2)]);
        (KStr "a2", [("id"%string, JStr "a2"); ("y"%string, JInt 3)])].
Proof.
  apply (proj1 (merging_again_changes_nothing "id"
                  (List.concat [Scenario.contentA; Scenario.contentB])
                  _ scenario_wf eq_refl)).
Defined.
(* ================================================================== *)
(** ** How much a run reads and waits *)

Ltac ew_arith :=
  unfold stop_after_attempt, wait_fixed in *; simpl List.length; lia.

Section EffortFacts.
Variable env : environment.

(** Whatever the file system answers, the decorated loader stops after
    [S r] attempts at most. *)
Lemma retry_loop_attempts p : forall r w,
  exists k,
    1 <= k <= S r
    /\ reads (snd (retry_loop wait_fixed r (load_json_body env p) w))
       = repeat p k ++ reads w
    /\ slept (snd (retry_loop wait_fixed r (load_json_body env p) w))
       = wait_fixed * (k - 1) + slept w
    /\ writes (snd (retry_loop wait_fixed r (load_json_body env p) w))
       = writes w
    /\ ((exists v, fst (retry_loop wait_fixed r (load_json_body env p) w)
                   = Ok v)
        \/ (fst (retry_loop wait_fixed r (load_json_body env p) w)
            = Raise RetryError /\ k = S r)).
Proof.
  induction r as [|r IH]; intros w.
  - destruct (read_outcome env p (count_occ Path_eq_dec (reads w) p))
      as [e|data] eqn:O.
    + exists 1. simpl. rewrite (load_json_body_fails env p w e O). simpl.
      repeat split; auto; lia.
    + destruct (load_json_body_parsed env p w data O) as [lg E].
      exists 1. simpl. rewrite E. simpl. repeat split; eauto; lia.
  - destruct (read_outcome env p (count_occ Path_eq_dec (reads w) p))
      as [e|data] eqn:O.
    + simpl. rewrite (load_json_body_fails env p w e O).
      unfold bind, sleep. simpl.
      match goal with |- context [retry_loop _ r _ ?w1] =>
        destruct (IH w1) as [k [Hk [R [S' [W F]]]]]
      end.
      exists (S k). simpl reads in R. simpl slept in S'. simpl writes in W.
      rewrite R, S', W. split; [lia|]. split; [apply repeat_shift|].
      split; [unfold wait_fixed; lia|]. split; [reflexivity|].
      destruct F as [F|[F ->]]; [left; exact F | right; auto].
    + destruct (load_json_body_parsed env p w data O) as [lg E].
      exists 1. simpl. rewrite E. simpl. repeat split; eauto; lia.
Qed.

Lemma ew_weaken {A : Type} (m : M A) allowed allowed' n n' s s' :
  effort_within allowed n s m ->
  (forall p, In p allowed -> In p allowed') -> n <= n' -> s <= s' ->
  effort_within allowed' n' s' m.
Proof.
  intros H Ha Hn Hs w. destruct (H w) as [l [R [I [L S']]]].
  exists l. repeat split; auto; lia.
Qed.

Lemma ew_quiet {A : Type} (m : M A) :
  (forall w, reads (snd (m w)) = reads w /\ slept (snd (m w)) = slept w) ->
  effort_within [] 0 0 m.
Proof.
  intros H w. destruct (H w) as [R S']. exists [].
  rewrite R, S'. simpl. repeat split; auto; try lia; try tauto.
Qed.

Lemma ew_ret {A : Type} (a : A) : effort_within [] 0 0 (ret a).
Proof. apply ew_quiet. intros w. split; reflexivity. Qed.

Lemma ew_raise {A : Type} (e : exn) : effort_within [] 0 0 (@raise A e).
Proof. apply ew_quiet. intros w. split; reflexivity. Qed.

Lemma ew_lift {A : Type} (r : result A) : effort_within [] 0 0 (lift r).
Proof. apply ew_quiet. intros w. split; reflexivity. Qed.

Lemma ew_logger lv msg : effort_within [] 0 0 (logger lv msg).
Proof. apply ew_quiet. intros w. split; reflexivity. Qed.

Lemma ew_write_json p rs : effort_within [] 0 0 (write_json env p rs).
Proof.
  apply ew_quiet. intros w. unfold write_json.
  destruct (write_ok env p); split; reflexivity.
Qed.

Lemma ew_bind {A B : Type} (m : M A) (k : A -> M B) allowed n1 n2 s1 s2 :
  effort_within allowed n1 s1 m ->
  (forall a, effort_within allowed n2 s2 (k a)) ->
  effort_within allowed (n1 + n2) (s1 + s2) (bind m k).
Proof.
  intros Hm Hk w. unfold bind. destruct (Hm w) as [l [R [I [L S']]]].
  destruct (m w) as [[a|e] w1]; simpl in *.
  - destruct (Hk a w1) as [l' [R' [I' [L' S'']]]].
    exists (l' ++ l). rewrite R', R, app_assoc.
    split; [reflexivity|]. split.
    + intros p Ip. apply in_app_or in Ip. destruct Ip; auto.
    + rewrite length_app. split; lia.
  - exists l. repeat split; auto; lia.
Qed.

Lemma ew_try_except {A : Type} (m : M A) (h : exn -> M A)
  allowed n1 n2 s1 s2 :
  effort_within allowed n1 s1 m ->
  (forall e, effort_within allowed n2 s2 (h e)) ->
  effort_within allowed (n1 + n2) (s1 + s2) (try_except m h).
Proof.
  intros Hm Hh w. unfold try_except. destruct (Hm w) as [l [R [I [L S']]]].
  destruct (m w) as [[a|e] w1]; simpl in *.
  - exists l. repeat split; auto; lia.
  - destruct (Hh e w1) as [l' [R' [I' [L' S'']]]].
    exists (l' ++ l). rewrite R', R, app_assoc.
    split; [reflexivity|]. split.
    + intros p Ip. apply in_app_or in Ip. destruct Ip; auto.
    + rewrite length_app. split; lia.
Qed.

Lemma ew_load_json_file p :
  effort_within [p] stop_after_attempt
    (wait_fixed * (stop_after_attempt - 1)) (_load_json_file env p).
Proof.
  intros w. unfold _load_json_file, retry.
  destruct (retry_loop_attempts p (stop_after_attempt - 1) w)
    as [k [Hk [R [S' [_ _]]]]].
  exists (repeat p k). rewrite R, S'. split; [reflexivity|].
  split; [intros q Iq; apply repeat_spec in Iq; subst; left; reflexivity|].
  rewrite repeat_length. unfold stop_after_attempt, wait_fixed in *.
  repeat split; lia.
Qed.

Lemma ew_merge_group_loop id_field fg : forall by_id,
  effort_within fg (stop_after_attempt * List.length fg)
    (wait_fixed * (stop_after_attempt - 1) * List.length fg)
    (merge_group_loop env id_field fg by_id).
Proof.
  induction fg as [|p fg IH]; intros by_id; simpl merge_group_loop.
  - eapply ew_weaken; [apply ew_ret | intros q [] | simpl; ew_arith | simpl; ew_arith].
  - eapply ew_weaken.
    + apply (ew_bind _ _ (p :: fg) stop_after_attempt
               (stop_after_attempt * List.length fg)
               (wait_fixed * (stop_after_attempt - 1))
               (wait_fixed * (stop_after_attempt - 1) * List.length fg)).
      * eapply ew_weaken; [apply ew_load_json_file | | ew_arith | ew_arith].
        intros q [<-|[]]. left. reflexivity.
      * intros [l|].
        -- eapply ew_weaken.
           ++ apply (ew_bind _ _ (p :: fg) 0
                       (stop_after_attempt * List.length fg) 0
                       (wait_fixed * (stop_after_attempt - 1)
                        * List.length fg)).
              ** eapply ew_weaken; [apply ew_lift | intros q [] | ew_arith | ew_arith].
              ** intros b. eapply ew_weaken; [apply IH | | ew_arith | ew_arith].
                 intros q Iq. right. exact Iq.
           ++ auto.
           ++ ew_arith.
           ++ ew_arith.
        -- eapply ew_weaken; [apply ew_raise | intros q [] | ew_arith | ew_arith].
    + auto.
    + simpl List.length. ew_arith.
    + simpl List.length. ew_arith.
Qed.

Lemma ew_merge_single_group fg id_field idx :
  effort_within fg (stop_after_attempt * List.length fg)
    (wait_fixed * (stop_after_attempt - 1) * List.length fg)
    (_merge_single_group env fg id_field idx).
Proof.
  unfold _merge_single_group. eapply ew_weaken.
  - apply (ew_bind _ _ fg (stop_after_attempt * List.length fg) 0
             (wait_fixed * (stop_after_attempt - 1) * List.length fg) 0).
    + apply ew_merge_group_loop.
    + intros [|b by_id];
        (eapply ew_weaken; [apply ew_ret | intros q [] | ew_arith | ew_arith]).
  - auto.
  - ew_arith.
  - ew_arith.
Qed.

End EffortFacts.
Section RunEffortFacts.
Variable env : environment.
Variable str_other : json -> string.
Variable self : Tag_Result_Merger.
Variable id_field : string.

Lemma ew_process_group save append idx fg :
  effort_within fg (stop_after_attempt * List.length fg)
    (wait_fixed * (stop_after_attempt - 1) * List.length fg)
    (process_group env str_other self id_field save append idx fg).
Proof.
  unfold process_group. eapply ew_weaken.
  - apply (ew_bind _ _ fg (stop_after_attempt * List.length fg) 0
             (wait_fixed * (stop_after_attempt - 1) * List.length fg) 0).
    + apply ew_merge_single_group.
    + intros [m|];
        [|eapply ew_weaken; [apply ew_ret | intros q [] | ew_arith | ew_arith]].
      eapply ew_weaken; [apply ew_quiet | intros q [] | ew_arith | ew_arith].
      intros w. destruct save; [|destruct append; split; reflexivity].
      unfold try_except, bind, ret, raise, logger, write_json.
      destruct (truthy _); [|destruct fg];
        try match goal with
            | |- context [write_ok env ?p] => destruct (write_ok env p)
            end; split; reflexivity.
  - auto.
  - ew_arith.
  - ew_arith.
Qed.

Lemma ew_run_groups save append groups : forall idx,
  effort_within (List.concat groups)
    (stop_after_attempt * List.length (List.concat groups))
    (wait_fixed * (stop_after_attempt - 1)
     * List.length (List.concat groups))
    (run_groups env str_other self id_field save append idx groups).
Proof.
  induction groups as [|fg groups IH]; intros idx; simpl run_groups.
  - eapply ew_weaken; [apply ew_ret | intros q [] | ew_arith | ew_arith].
  - simpl List.concat. rewrite length_app. eapply ew_weaken.
    + apply (ew_bind _ _ (fg ++ List.concat groups)
               (stop_after_attempt * List.length fg)
               (stop_after_attempt * List.length (List.concat groups))
               (wait_fixed * (stop_after_attempt - 1) * List.length fg)
               (wait_fixed * (stop_after_attempt - 1)
                * List.length (List.concat groups))).
      * eapply ew_weaken; [apply ew_process_group | | ew_arith | ew_arith].
        intros q Iq. apply in_or_app. left. exact Iq.
      * intros r. eapply ew_weaken.
        -- apply (ew_bind _ _ (fg ++ List.concat groups)
                    (stop_after_attempt * List.length (List.concat groups)) 0
                    (wait_fixed * (stop_after_attempt - 1)
                     * List.length (List.concat groups)) 0).
           ++ eapply ew_weaken; [apply IH | | ew_arith | ew_arith].
              intros q Iq. apply in_or_app. right. exact Iq.
           ++ intros rs.
              eapply ew_weaken; [apply ew_ret | intros q [] | ew_arith | ew_arith].
        -- auto.
        -- ew_arith.
        -- ew_arith.
    + auto.
    + ew_arith.
    + ew_arith.
Qed.

Lemma ew_merge_files save append groups :
  effort_within (List.concat groups)
    (stop_after_attempt * List.length (List.concat groups))
    (wait_fixed * (stop_after_attempt - 1)
     * List.length (List.concat groups))
    (merge_files env str_other self groups id_field save append).
Proof.
  intros w. rewrite merge_files_unfold.
  destruct (ew_run_groups save append groups 0 (started groups id_field w))
    as [l [R [I [L S']]]].
  change (reads (started groups id_field w)) with (reads w) in R.
  change (slept (started groups id_field w)) with (slept w) in S'.
  destruct (run_groups env str_other self id_field save append 0 groups
              (started groups id_field w)) as [[rs|e] w1];
    simpl in R, S'.
  - exists l.
    assert (Q : forall w0,
              reads (snd (((if save
                  then logger INFO (MsgSaved (List.length (filter_some rs))
                                      (List.length groups) (output_dir self))
                  else ret tt) ;;;
                 if append then
                   total_records <- lift (sum_records (filter_some rs)) ;;
                   logger INFO (MsgMerged (List.length (filter_some rs))
                                  total_records) ;;;
                   ret (filter_some rs)
                 else
                   logger INFO (MsgProcessed (List.length (filter_some rs))) ;;;
                   ret (filter_some rs))%monad w0)) = reads w0
              /\ slept (snd (((if save
                  then logger INFO (MsgSaved (List.length (filter_some rs))
                                      (List.length groups) (output_dir self))
                  else ret tt) ;;;
                 if append then
                   total_records <- lift (sum_records (filter_some rs)) ;;
                   logger INFO (MsgMerged (List.length (filter_some rs))
                                  total_records) ;;;
                   ret (filter_some rs)
                 else
                   logger INFO (MsgProcessed (List.length (filter_some rs))) ;;;
                   ret (filter_some rs))%monad w0)) = slept w0).
    { intros w0. unfold bind, ret, lift, logger.
      destruct save, append; simpl;
        try destruct (sum_records (filter_some rs)); split; reflexivity. }
    destruct (Q w1) as [Q1 Q2]. rewrite Q1, Q2. auto.
  - exists l. simpl. auto.
Qed.

End RunEffortFacts.

(** X6.  Whatever the file system answers, one call of [_load_json_file]
    makes between one and three read attempts on its file and on no other,
    sleeps five seconds before each attempt after the first, and writes
    nothing; it either returns or raises [RetryError] after the third
    attempt, never the exception of the failed read itself. *)
Theorem load_makes_one_to_three_attempts
  (env : environment) (p : Path) (w : world) :
  exists k,
    1 <= k <= stop_after_attempt
    /\ reads (snd (_load_json_file env p w)) = repeat p k ++ reads w
    /\ slept (snd (_load_json_file env p w))
       = wait_fixed * (k - 1) + slept w
    /\ writes (snd (_load_json_file env p w)) = writes w
    /\ ((exists v, fst (_load_json_file env p w) = Ok v)
        \/ (fst (_load_json_file env p w) = Raise RetryError
            /\ k = stop_after_attempt)).
Proof.
  unfold _load_json_file, retry.
  destruct (retry_loop_attempts env p (stop_after_attempt - 1) w)
    as [k [Hk [R [S' [W F]]]]].
  exists k. repeat split; try assumption; try (unfold stop_after_attempt in *; lia).
Qed.

(** X7.  In every mode, and whether it returns or raises, [merge_files]
    attempts to read only member files of the groups it was given, at most
    three times per member file, and sleeps at most ten seconds per member
    file. *)
Theorem merge_files_reads_only_member_files
  (env : environment) (str_other : json -> string)
  (self : Tag_Result_Merger) (groups : list (list Path))
  (id_field : string) (save append : bool) (w : world) :
  exists attempts,
    reads (snd (merge_files env str_other self groups id_field save
                  append w))
    = attempts ++ reads w
    /\ (forall p, In p attempts -> exists g, In g groups /\ In p g)
    /\ List.length attempts <= 3 * List.length (List.concat groups)
    /\ slept (snd (merge_files env str_other self groups id_field save
                     append w))
       <= slept w + 10 * List.length (List.concat groups).
Proof.
  destruct (ew_merge_files env str_other self id_field save append groups w)
    as [l [R [I [L S']]]].
  exists l. split; [exact R|]. split.
  - intros p Ip. apply I in Ip. apply in_concat in Ip.
    destruct Ip as [g [Ig Ipg]]. eauto.
  - unfold stop_after_attempt, wait_fixed in *. split; lia.
Qed.
(* ================================================================== *)
(** ** Further properties of [discover_merge_files] *)

Lemma ol_ret {A : Type} (a : A) : only_logs (ret a).
Proof. intros w. repeat split. Qed.

Lemma ol_raise {A : Type} (e : exn) : only_logs (@raise A e).
Proof. intros w. repeat split. Qed.

Lemma ol_logger lv msg : only_logs (logger lv msg).
Proof. intros w. repeat split. Qed.

Lemma ol_bind {A B : Type} (m : M A) (k : A -> M B) :
  only_logs m -> (forall a, only_logs (k a)) -> only_logs (bind m k).
Proof.
  intros Hm Hk w. unfold bind. destruct (Hm w) as [R [W S']].
  destruct (m w) as [[a|e] w1]; simpl in *; [|auto].
  destruct (Hk a w1) as [R' [W' S'']]. repeat split; congruence.
Qed.

Lemma forallb_false_exists {A : Type} (f : A -> bool) l :
  forallb f l = false -> exists x, In x l /\ f x = false.
Proof.
  induction l as [|a l IH]; simpl; [discriminate|].
  destruct (f a) eqn:E; simpl.
  - intros H. destruct (IH H) as [x [I F]]. eauto.
  - intros _. eauto.
Qed.

Lemma complete_of_distinct (items : pattern_map) :
  NoDup (PyDict.keys items) ->
  forall i1 i2 g1 g2,
    nth_error (complete_of items) i1 = Some g1 ->
    nth_error (complete_of items) i2 = Some g2 ->
    i1 <> i2 ->
    exists bp1 sl1 bp2 sl2,
      In (bp1, sl1) items /\ In (bp2, sl2) items /\ bp1 <> bp2
      /\ all_some sl1 = Some g1 /\ all_some sl2 = Some g2.
Proof.
  induction items as [|[bp sl] items IH]; intros ND i1 i2 g1 g2 H1 H2 Ne.
  - destruct i1; discriminate.
  - simpl in ND. inversion ND as [|? ? Hn ND']; subst.
    assert (Rest : forall i g, nth_error (complete_of items) i = Some g ->
              exists bp' sl', In (bp', sl') items /\ bp' <> bp
                              /\ all_some sl' = Some g).
    { intros i g Hg. apply nth_error_In in Hg. apply In_complete_of in Hg.
      destruct Hg as [bp' [sl' [I A]]]. exists bp', sl'.
      repeat split; auto. intros ->. apply Hn.
      apply (in_map fst) in I. exact I. }
    unfold complete_of in H1, H2. simpl in H1, H2.
    destruct (all_some sl) as [g|] eqn:A.
    + fold (complete_of items) in H1, H2.
      destruct i1 as [|i1], i2 as [|i2]; simpl in H1, H2.
      * congruence.
      * inversion H1; subst g1.
        destruct (Rest i2 g2 H2) as [bp' [sl' [I [N A']]]].
        exists bp, sl, bp', sl'. repeat split; auto.
        -- left. reflexivity.
        -- right. exact I.
      * inversion H2; subst g2.
        destruct (Rest i1 g1 H1) as [bp' [sl' [I [N A']]]].
        exists bp', sl', bp, sl. repeat split; auto.
        -- right. exact I.
        -- left. reflexivity.
      * destruct (IH ND' i1 i2 g1 g2 H1 H2 ltac:(congruence))
          as [b1 [s1 [b2 [s2 [I1 [I2 [N [A1 A2]]]]]]]].
        exists b1, s1, b2, s2. repeat split; auto; right; assumption.
    + fold (complete_of items) in H1, H2.
      destruct (IH ND' i1 i2 g1 g2 H1 H2 Ne)
        as [b1 [s1 [b2 [s2 [I1 [I2 [N [A1 A2]]]]]]]].
      exists b1, s1, b2, s2. repeat split; auto; right; assumption.
Qed.

Section FurtherDiscoverFacts.
Variable env : environment.

Lemma ol_check_dirs dirs : forall i, only_logs (check_dirs env i dirs).
Proof.
  induction dirs as [|d dirs IH]; intros i; simpl; [apply ol_ret|].
  destruct (dir_exists env d); [|apply ol_raise].
  apply ol_bind; [apply ol_logger | intros; apply IH].
Qed.

Lemma ol_scan_dirs num_dirs dirs : forall i m,
  only_logs (scan_dirs env num_dirs i dirs m).
Proof.
  induction dirs as [|d dirs IH]; intros i m; simpl; [apply ol_ret|].
  apply ol_bind; [apply ol_logger | intros _].
  apply ol_bind; [apply ol_logger | intros _; apply IH].
Qed.

Lemma ol_assemble items : forall acc, only_logs (assemble items acc).
Proof.
  induction items as [|[bp sl] items IH]; intros acc; simpl;
    [apply ol_ret|].
  destruct (all_some sl);
    (apply ol_bind; [apply ol_logger | intros _; apply IH]).
Qed.

Lemma ol_discover self : only_logs (discover_merge_files env self).
Proof.
  unfold discover_merge_files.
  apply ol_bind; [apply ol_logger | intros _].
  apply ol_bind; [apply ol_check_dirs | intros _].
  apply ol_bind; [apply ol_scan_dirs | intros m].
  apply ol_bind; [apply ol_logger | intros _].
  apply ol_bind; [apply ol_assemble | intros a].
  apply ol_bind; [apply ol_logger | intros _].
  apply ol_bind;
    [destruct (0 <? incomplete_groups a);
       [apply ol_logger | apply ol_ret] | intros _].
  apply ol_bind; [apply ol_logger | intros _; apply ol_ret].
Qed.

Lemma check_dirs_Raise dirs : forall i w,
  (exists d, In d dirs /\ dir_exists env d = false) ->
  fst (check_dirs env i dirs w) = Raise FileNotFoundError.
Proof.
  induction dirs as [|d dirs IH]; intros i w [d0 [I F]]; [destruct I|].
  simpl. destruct (dir_exists env d) eqn:E; [|reflexivity].
  unfold bind, logger. apply IH. destruct I as [->|I]; [congruence|].
  eauto.
Qed.

Lemma discover_raises self w :
  (exists d, In d (tagged_results_dirs self) /\ dir_exists env d = false) ->
  fst (discover_merge_files env self w) = Raise FileNotFoundError.
Proof.
  intros H. unfold discover_merge_files. unfold bind at 1. simpl.
  unfold bind at 1.
  match goal with |- context [check_dirs env 0 ?ds ?w0] =>
    pose proof (check_dirs_Raise ds 0 w0 H) as C;
    destruct (check_dirs env 0 ds w0) as [[[]|e] wc]
  end; simpl in C; [discriminate|]. simpl. inversion C. reflexivity.
Qed.

Lemma entry_group_of_pattern dirs bp sl g :
  In (bp, sl) (scan_all env (List.length dirs) 0 dirs []) ->
  all_some sl = Some g ->
  group_of_pattern env dirs bp g.
Proof.
  intros I A.
  pose proof (scan_all_well_sized (List.length dirs) env dirs 0 []
                (well_sized_nil _)) as W.
  destruct (all_some_nth sl g A) as [Hl _].
  assert (Hlen : List.length g = List.length dirs).
  { rewrite Hl. destruct W as [_ Wl]. eapply Wl; eassumption. }
  split; [exact Hlen|].
  intros j d Hd.
  assert (Hj : j < List.length g).
  { rewrite Hlen. apply nth_error_Some. congruence. }
  destruct (nth_error g j) as [p|] eqn:Hp;
    [|apply nth_error_None in Hp; lia].
  destruct (complete_entry_members env dirs bp sl g j p I A Hp)
    as [d0 [f [Hd0 [-> L]]]].
  assert (d0 = d) by congruence. subst d0.
  apply last_with_pattern_Some in L. exists f. tauto.
Qed.

Lemma group_member_pattern dirs bp g p :
  group_of_pattern env dirs bp g -> In p g ->
  base_pattern (name p) = Some bp.
Proof.
  intros [Hlen Hm] Ip. apply In_nth_error in Ip. destruct Ip as [j Hj].
  assert (Hj' : j < List.length dirs).
  { rewrite <- Hlen. apply nth_error_Some. congruence. }
  destruct (nth_error dirs j) as [d|] eqn:Hd;
    [|apply nth_error_None in Hd; lia].
  destruct (Hm j d Hd) as [f [Hf [_ Pf]]].
  rewrite Hj in Hf. inversion Hf; subst p. exact Pf.
Qed.

End FurtherDiscoverFacts.

(** X8.  [discover_merge_files] raises [FileNotFoundError] exactly when
    some configured directory does not exist, and returns the groups exactly
    when all of them exist; in both cases it opens no file, writes none and
    does not wait. *)
Theorem discover_needs_every_directory
  (env : environment) (self : Tag_Result_Merger) (w : world) :
  ((exists d, In d (tagged_results_dirs self)
              /\ dir_exists env d = false) <->
   fst (discover_merge_files env self w) = Raise FileNotFoundError)
  /\ ((forall d, In d (tagged_results_dirs self) ->
                 dir_exists env d = true) <->
      exists groups, fst (discover_merge_files env self w) = Ok groups)
  /\ reads (snd (discover_merge_files env self w)) = reads w
  /\ writes (snd (discover_merge_files env self w)) = writes w
  /\ slept (snd (discover_merge_files env self w)) = slept w.
Proof.
  assert (Cases :
    (forall d, In d (tagged_results_dirs self) -> dir_exists env d = true)
    \/ (exists d, In d (tagged_results_dirs self)
                  /\ dir_exists env d = false)).
  { destruct (forallb (dir_exists env) (tagged_results_dirs self)) eqn:F.
    - left. apply forallb_forall. exact F.
    - right. apply forallb_false_exists. exact F. }
  split; [|split; [|apply ol_discover]].
  - split; [apply discover_raises|].
    intros H. destruct Cases as [All|Ex]; [|exact Ex].
    destruct (discover_returns env self w All) as [groups [w' E]].
    rewrite E in H. discriminate.
  - split.
    + intros All. destruct (discover_returns env self w All)
        as [groups [w' E]].
      exists groups. rewrite E. reflexivity.
    + intros [groups H]. destruct Cases as [All|Ex]; [exact All|].
      rewrite (discover_raises env self w Ex) in H. discriminate.
Qed.

(** X9.  The converse of the completeness gate: when at least one directory
    is configured and every configured directory has a file of the base
    pattern [bp], a scan that returns has exactly one group for [bp]. *)
Theorem pattern_in_every_directory_yields_one_group
  (env : environment) (self : Tag_Result_Merger) (w : world)
  (groups : list (list Path)) (w' : world) (bp : string) :
  discover_merge_files env self w = (Ok groups, w') ->
  tagged_results_dirs self <> [] ->
  (forall d, In d (tagged_results_dirs self) ->
     exists f, In f (glob_json env d) /\ base_pattern f = Some bp) ->
  exists g,
    In g groups
    /\ group_of_pattern env (tagged_results_dirs self) bp g
    /\ forall g', In g' groups ->
         group_of_pattern env (tagged_results_dirs self) bp g' -> g' = g.
Proof.
  intros H Hne Hall.
  assert (Hfirst : exists d0, nth_error (tagged_results_dirs self) 0
                              = Some d0).
  { destruct (tagged_results_dirs self); [congruence|].
    eexists. reflexivity. }
  pose proof (discover_Ok_inv env self w groups w' H) as D. cbv zeta in D.
  set (dirs := tagged_results_dirs self) in *.
  set (m := scan_all env (List.length dirs) 0 dirs []) in *.
  destruct D as [a [w1 [w2 [_ [Hg _]]]]].
  pose proof (scan_all_well_sized (List.length dirs) env dirs 0 []
                (well_sized_nil _)) as W. fold m in W.
  assert (Slot : forall j d, nth_error dirs j = Some d ->
            exists f, slot m bp j = Some (path_join d f)).
  { intros j d Hd. unfold m. rewrite scanned_slot, Hd.
    destruct (Hall d (nth_error_In _ _ Hd)) as [f [If Pf]].
    destruct (last_with_pattern_defined bp _ f If Pf) as [f' L].
    rewrite L. eauto. }
  destruct Hfirst as [d0 Hd0].
  assert (Hpos : 0 < List.length dirs).
  { apply nth_error_Some. congruence. }
  destruct (Slot 0 d0 Hd0) as [f0 S0].
  destruct (slot_Some_entry m bp 0 _ S0) as [sl I].
  assert (Hlen : List.length sl = List.length dirs).
  { destruct W as [_ Wl]. apply (Wl bp sl I). }
  destruct (all_some sl) as [g|] eqn:A.
  - exists g. split; [rewrite Hg; apply In_complete_of; eauto|].
    split; [apply (entry_group_of_pattern env dirs bp sl g I A)|].
    intros g' Ig' Gp'. rewrite Hg in Ig'. apply In_complete_of in Ig'.
    destruct Ig' as [bp' [sl' [I' A']]].
    pose proof (entry_group_of_pattern env dirs bp' sl' g' I' A') as Gq.
    assert (Ip : exists p, In p g').
    { destruct Gp' as [Hl _]. destruct g' as [|p g'];
        [simpl in Hl; lia | exists p; left; reflexivity]. }
    destruct Ip as [p Ip].
    pose proof (group_member_pattern env dirs bp g' p Gp' Ip) as P1.
    pose proof (group_member_pattern env dirs bp' g' p Gq Ip) as P2.
    assert (bp' = bp) by congruence. subst bp'.
    destruct W as [ND _].
    pose proof (In_get_NoDup string_dec _ _ _ ND I) as G1.
    pose proof (In_get_NoDup string_dec _ _ _ ND I') as G2.
    congruence.
  - exfalso. apply all_some_None_iff in A.
    apply In_nth_error in A. destruct A as [j Hj].
    assert (Hj' : j < List.length dirs).
    { rewrite <- Hlen. apply nth_error_Some. congruence. }
    destruct (nth_error dirs j) as [d|] eqn:Hd;
      [|apply nth_error_None in Hd; lia].
    destruct (Slot j d Hd) as [f S1].
    rewrite (slot_of_entry _ _ bp sl j W I) in S1.
    rewrite (nth_error_nth sl j None Hj) in S1. discriminate.
Qed.

Lemma pattern_in_every_directory_yields_one_group_witness :
  exists g,
    In g Shelf.groups
    /\ group_of_pattern Shelf.env (tagged_results_dirs Scenario.self)
         "2020_articles_1_" g
    /\ forall g', In g' Shelf.groups ->
         group_of_pattern Shelf.env (tagged_results_dirs Scenario.self)
           "2020_articles_1_" g' -> g' = g.
Proof.
  apply (pattern_in_every_directory_yields_one_group Shelf.env
           Scenario.self world0 Shelf.groups
           (snd (discover_merge_files Shelf.env Scenario.self world0))
           "2020_articles_1_" eq_refl).
  - discriminate.
  - intros d [<-|[<-|[]]].
    + exists "2020_articles_1_old.json"%string. split; [left|]; reflexivity.
    + exists "2020_articles_1_tagY.json"%string. split; [left|]; reflexivity.
Defined.

(** X10.  Two different groups returned by one scan are groups of
    different base patterns and have no file in common. *)
Theorem groups_share_no_file
  (env : environment) (self : Tag_Result_Merger) (w : world)
  (groups : list (list Path)) (w' : world) :
  discover_merge_files env self w = (Ok groups, w') ->
  forall i1 i2 g1 g2,
    nth_error groups i1 = Some g1 -> nth_error groups i2 = Some g2 ->
    i1 <> i2 ->
    exists bp1 bp2,
      bp1 <> bp2
      /\ group_of_pattern env (tagged_results_dirs self) bp1 g1
      /\ group_of_pattern env (tagged_results_dirs self) bp2 g2
      /\ forall p, In p g1 -> ~ In p g2.
Proof.
  intros H i1 i2 g1 g2 H1 H2 Ne.
  pose proof (discover_Ok_inv env self w groups w' H) as D. cbv zeta in D.
  set (dirs := tagged_results_dirs self) in *.
  destruct D as [a [w1 [w2 [_ [Hg _]]]]].
  pose proof (scan_all_well_sized (List.length dirs) env dirs 0 []
                (well_sized_nil _)) as [ND _].
  rewrite Hg in H1, H2.
  destruct (complete_of_distinct _ ND i1 i2 g1 g2 H1 H2 Ne)
    as [bp1 [sl1 [bp2 [sl2 [I1 [I2 [N [A1 A2]]]]]]]].
  pose proof (entry_group_of_pattern env dirs bp1 sl1 g1 I1 A1) as G1.
  pose proof (entry_group_of_pattern env dirs bp2 sl2 g2 I2 A2) as G2.
  exists bp1, bp2. repeat split; try apply G1; try apply G2; auto.
  intros p Ip1 Ip2.
  pose proof (group_member_pattern env dirs bp1 g1 p G1 Ip1).
  pose proof (group_member_pattern env dirs bp2 g2 p G2 Ip2).
  congruence.
Qed.
Lemma groups_share_no_file_witness :
  exists bp1 bp2,
    bp1 <> bp2
    /\ group_of_pattern Shelves.env (tagged_results_dirs Scenario.self) bp1
         Shelves.first_group
    /\ group_of_pattern Shelves.env (tagged_results_dirs Scenario.self) bp2
         Shelves.second_group
    /\ forall p, In p Shelves.first_group -> ~ In p Shelves.second_group.
Proof.
  apply (groups_share_no_file Shelves.env Scenario.self world0
           [Shelves.first_group; Shelves.second_group]
           (snd (discover_merge_files Shelves.env Scenario.self world0))
           eq_refl 0 1); [reflexivity | reflexivity | discriminate].
Defined.

(* ================================================================== *)
(** ** File names: base patterns and stems *)

Lemma split_on_nonempty c s : split_on c s <> [].
Proof.
  destruct s as [|a s]; simpl; [discriminate|].
  destruct (Ascii.eqb a c); [discriminate|].
  destruct (split_on c s); discriminate.
Qed.

Lemma split_on_no_char c s :
  has_char c s = false -> split_on c s = [s].
Proof.
  induction s as [|a s IH]; simpl; [reflexivity|].
  destruct (Ascii.eqb a c); simpl; [discriminate|].
  intros H. rewrite (IH H). reflexivity.
Qed.

Lemma split_on_app_sep c a : forall b,
  has_char c a = false ->
  split_on c (a ++ String c b) = a :: split_on c b.
Proof.
  induction a as [|x a IH]; intros b H; simpl.
  - rewrite Ascii.eqb_refl. reflexivity.
  - simpl in H. destruct (Ascii.eqb x c); simpl in H; [discriminate|].
    rewrite (IH b H). reflexivity.
Qed.

Lemma all_digits_no_underscore s :
  all_digits s = true -> has_char "_" s = false.
Proof.
  induction s as [|a s IH]; simpl; [reflexivity|].
  intros H. apply andb_prop in H. destruct H as [D H].
  rewrite (IH H), Bool.orb_false_r.
  destruct (Ascii.eqb_spec a "_"%char) as [->|Ne]; [|reflexivity].
  vm_compute in D. discriminate.
Qed.

Lemma isdigit_no_underscore s :
  isdigit s = true -> has_char "_" s = false.
Proof.
  destruct s as [|a s]; [reflexivity|]. apply all_digits_no_underscore.
Qed.

Lemma str_length_app a b :
  String.length (a ++ b) = String.length a + String.length b.
Proof. induction a as [|x a IH]; simpl; [reflexivity | rewrite IH; reflexivity]. Qed.

Lemma substring_prefix s : forall t,
  substring 0 (String.length s) (s ++ t) = s.
Proof.
  induction s as [|a s IH]; intros t; simpl.
  - destruct t; reflexivity.
  - rewrite IH. reflexivity.
Qed.

Lemma rfind_from_app c a : forall b i last,
  rfind_from c (a ++ b) i last
  = rfind_from c b (i + String.length a) (rfind_from c a i last).
Proof.
  induction a as [|x a IH]; intros b i last; simpl.
  - rewrite Nat.add_0_r. reflexivity.
  - rewrite IH. f_equal. lia.
Qed.

(** [Path.stem] undoes the extension [.json]. *)
Lemma stem_json d s :
  s <> EmptyString -> stem (mkPath d (s ++ ".json")) = s.
Proof.
  intros Hs. unfold stem, rfind. simpl name.
  rewrite rfind_from_app. simpl.
  rewrite str_length_app. simpl String.length.
  assert (P : 0 < String.length s) by (destruct s; [congruence | simpl; lia]).
  apply Nat.ltb_lt in P. rewrite P. simpl.
  assert (Q : (String.length s <? String.length s + 5 - 1) = true)
    by (apply Nat.ltb_lt; lia).
  rewrite Q. apply substring_prefix.
Qed.

(** The names of a numbered batch. *)
Lemma base_pattern_numbered year n rest :
  isdigit year = true -> isdigit n = true ->
  base_pattern (year ++ "_articles_" ++ n ++ "_" ++ rest)
  = Some (year ++ "_articles_" ++ n ++ "_")%string.
Proof.
  intros Hy Hn. unfold base_pattern.
  change (year ++ "_articles_" ++ n ++ "_" ++ rest)%string
    with (year ++ String "_" ("articles" ++ String "_" (n ++ String "_" rest)))%string.
  rewrite (split_on_app_sep "_" year) by (apply isdigit_no_underscore; exact Hy).
  rewrite (split_on_app_sep "_" "articles") by reflexivity.
  rewrite (split_on_app_sep "_" n) by (apply isdigit_no_underscore; exact Hn).
  rewrite Hy, Hn. reflexivity.
Qed.

(** The names of a batch without number. *)
Lemma base_pattern_unnumbered year tail :
  isdigit year = true ->
  isdigit (hd EmptyString (split_on "_" tail)) = false ->
  base_pattern (year ++ "_articles_" ++ tail)
  = Some (year ++ "_articles_")%string.
Proof.
  intros Hy Ht. unfold base_pattern.
  change (year ++ "_articles_" ++ tail)%string
    with (year ++ String "_" ("articles" ++ String "_" tail))%string.
  rewrite (split_on_app_sep "_" year) by (apply isdigit_no_underscore; exact Hy).
  rewrite (split_on_app_sep "_" "articles") by reflexivity.
  rewrite Hy. simpl.
  destruct (split_on "_" tail) as [|p2 ps] eqn:E;
    [exfalso; apply (split_on_nonempty "_" tail E)|].
  simpl in Ht. rewrite Ht. reflexivity.
Qed.

(** X11.  The rule of lines 87-96, read from the file name: a name that
    starts with digits, [_articles_], digits and an underscore has these as
    its base pattern, whatever follows; a name that starts with digits and
    [_articles_] followed by anything that is not digits up to the next
    underscore (a tag, or a number glued to the extension as in
    [2005_articles_1.json]) has the base pattern without number, so that
    such files of one year share one pattern. *)
Theorem base_pattern_of_batch_names (year : string) :
  isdigit year = true ->
  (forall n rest,
     isdigit n = true ->
     base_pattern (year ++ "_articles_" ++ n ++ "_" ++ rest)
     = Some (year ++ "_articles_" ++ n ++ "_")%string)
  /\ (forall tail,
        isdigit (hd EmptyString (split_on "_" tail)) = false ->
        base_pattern (year ++ "_articles_" ++ tail)
        = Some (year ++ "_articles_")%string).
Proof.
  intros Hy. split.
  - intros n rest Hn. apply base_pattern_numbered; assumption.
  - intros tail Ht. apply base_pattern_unnumbered; assumption.
Qed.

Lemma base_pattern_of_batch_names_witness :
  base_pattern "2005_articles_1.json" = Some "2005_articles_"%string
  /\ base_pattern "2005_articles_2.json" = Some "2005_articles_"%string.
Proof.
  split.
  - apply (proj2 (base_pattern_of_batch_names "2005" eq_refl) "1.json"%string).
    reflexivity.
  - apply (proj2 (base_pattern_of_batch_names "2005" eq_refl) "2.json"%string).
    reflexivity.
Defined.

(** X12.  A base pattern is canonical: it is digits, [_articles_] and
    optionally digits and an underscore, and taken as a file name it is its
    own base pattern. *)
Theorem base_pattern_is_canonical (filename bp : string) :
  base_pattern filename = Some bp ->
  (exists year,
     isdigit year = true
     /\ (bp = (year ++ "_articles_")%string
         \/ exists n, isdigit n = true
                      /\ bp = (year ++ "_articles_" ++ n ++ "_")%string))
  /\ base_pattern bp = Some bp.
Proof.
  unfold base_pattern at 1.
  destruct (split_on "_" filename) as [|p0 [|p1 rest]]; try discriminate.
  destruct (isdigit p0) eqn:D0; simpl; [|discriminate].
  destruct (p1 =? "articles")%string; [|discriminate].
  destruct rest as [|p2 rest]; [discriminate|].
  destruct (isdigit p2) eqn:D2; intros H; inversion H; subst bp; clear H.
  - split.
    + exists p0. split; [exact D0|]. right. exists p2. auto.
    + exact (base_pattern_numbered p0 p2 "" D0 D2).
  - split.
    + exists p0. split; [exact D0|]. left. reflexivity.
    + exact (base_pattern_unnumbered p0 "" D0 eq_refl).
Qed.

Lemma base_pattern_is_canonical_witness :
  base_pattern "2020_articles_1_" = Some "2020_articles_1_"%string.
Proof.
  apply (proj2 (base_pattern_is_canonical "2020_articles_1_tagX.json"
                  "2020_articles_1_" eq_refl)).
Defined.
(** X13.  How a saved group is named.  With a tracked file name [s] (a
    non-empty string in [ILA_original_filename] of the first merged record)
    the group is saved as [s.json], whose stem is [s] again; without one, a
    group whose first member file is named [s.json] is saved under that very
    name in the output directory. *)
Theorem saved_file_name_round_trip
  (env : environment) (str_other : json -> string)
  (self : Tag_Result_Merger) (id_field : string) (append : bool)
  (idx : nat) (fg : list Path) (w : world) (m : merged_group) (w1 : world) :
  _merge_single_group env fg id_field idx w = (Ok (Some m), w1) ->
  (forall s,
     py_get "ILA_original_filename" (hd [] (records m)) = JStr s ->
     s <> EmptyString ->
     write_ok env (path_join (output_dir self) (s ++ ".json")) = true ->
     fst (process_group env str_other self id_field true append idx fg w)
     = Ok (Some (SavedPath (path_join (output_dir self) (s ++ ".json"))))
     /\ stem (path_join (output_dir self) (s ++ ".json")) = s)
  /\ (forall f0 rest s,
        fg = f0 :: rest ->
        truthy (py_get "ILA_original_filename" (hd [] (records m))) = false ->
        name f0 = (s ++ ".json")%string -> s <> EmptyString ->
        write_ok env (path_join (output_dir self) (name f0)) = true ->
        fst (process_group env str_other self id_field true append idx fg w)
        = Ok (Some (SavedPath (path_join (output_dir self) (name f0))))).
Proof.
  intros Mg.
  pose proof (process_group_saving env str_other self id_field append
                idx fg w m w1 Mg) as P.
  split.
  - intros s Hs Ne Wo.
    assert (Op : output_path self str_other fg m
                 = path_join (output_dir self) (s ++ ".json")).
    { unfold output_path, output_name. rewrite Hs. simpl.
      destruct s; [congruence | reflexivity]. }
    rewrite Op, Wo in P. rewrite P. split; [reflexivity|].
    apply stem_json. exact Ne.
  - intros f0 rest s -> Hf Hn Ne Wo.
    assert (Op : output_path self str_other (f0 :: rest) m
                 = path_join (output_dir self) (name f0)).
    { unfold output_path, output_name. rewrite Hf.
      destruct f0 as [d nm]. simpl in Hn. subst nm.
      rewrite stem_json by exact Ne. reflexivity. }
    rewrite Op, Wo in P. rewrite P. reflexivity.
Qed.

Lemma saved_file_name_round_trip_witness :
  fst (process_group Scenario.env Faults.str_other Scenario.self "id" true
         false 0 Scenario.group world0)
  = Ok (Some (SavedPath (path_join (output_dir Scenario.self)
                           (name Scenario.fileA)))).
Proof.
  apply (proj2 (saved_file_name_round_trip Scenario.env Faults.str_other
                  Scenario.self "id" false 0 Scenario.group world0
                  Scenario.merged Scenario.after_reads scenario_merge)
           Scenario.fileA [Scenario.fileB] "2020_articles_1_tagX"%string);
    try reflexivity.
  discriminate.
Defined.
